(** * tubesort: the resilient external-API access layer

  A shallow embedding of the server routes of [src/routes/api.js] (key
  rotation, the TTL cache over MongoDB, the handle resolver) and of the
  browser services that call them (the cache client, the YouTube loaders and
  the Gemini batch categorizer), with the properties of the specification
  stated and settled against them.

  JavaScript strings are Rocq strings, except in [ResolveHandle] where the
  whitespace set of [String.prototype.trim] matters and a string is the list
  of its UTF-16 code units.  Times are milliseconds since the epoch, in [Z].
  An [await] on the outside world (MongoDB, the YouTube and Gemini APIs) is
  an answer read from an explicit environment record. *)

From Stdlib Require Import ZArith NArith String Ascii List Bool Lia.
From stdpp Require Import base option list gmap strings pretty.

#[local] Set Warnings "-register-all".
Local Open Scope string_scope.
Local Open Scope Z_scope.

(** ** Outcome of an async function: the promise fulfils or rejects with an
    [Error] whose [message] is kept. *)
Inductive Outcome (A : Type) : Type :=
| Fulfilled (a : A)
| Rejected (message : string).
Arguments Fulfilled {A} a.
Arguments Rejected {A} message.

(** [s.includes(needle)] *)
Definition includes (needle s : string) : bool :=
  match String.index 0 needle s with
  | Some _ => true
  | None => false
  end.

(** * Key rotation (api.js, lines 36-105) *)
Module KeyRotation.

(** [keyUsageTracking.youtube] together with [keyRotationLock]. *)
Record KeyPool : Type := mkKeyPool {
  currentKeyIndex : nat;
  quotaResets : gmap nat Z;
  usageCount : gmap nat Z;
  keyRotationLock : bool
}.

(** [process.env.YOUTUBE_API_KEY_1 .. _5]: a slot is unset or holds a string. *)
Definition Env : Type := list (option string).

Definition truthy_string (s : string) : bool :=
  match s with
  | EmptyString => false
  | _ => true
  end.

(** [[...].filter(Boolean)]: unset and empty slots are dropped. *)
Definition getYouTubeApiKeys (env : Env) : list string :=
  List.filter truthy_string (omap id env).

Definition DAY_MS : Z := 24 * 60 * 60 * 1000.

(** [initializeKeyTracking] *)
Definition initializeKeyTracking (env : Env) (now : Z) : KeyPool :=
  let n := length (getYouTubeApiKeys env) in
  {| currentKeyIndex := 0;
     quotaResets := list_to_map (List.map (fun i => (i, now)) (seq 0 n));
     usageCount := list_to_map (List.map (fun i => (i, 0)) (seq 0 n));
     keyRotationLock := false |}.

(** The part of [rotateYoutubeKey] between [keyRotationLock = true] and the
    end of the [finally] block.  It contains no [await], so it runs without
    interruption; the lock is set on entry and cleared on both exits. *)
Definition rotate_locked (env : Env) (now : Z) (p : KeyPool)
  : KeyPool * Outcome (option string) :=
  let youtubeApiKeys := getYouTubeApiKeys env in
  if Nat.eqb (length youtubeApiKeys) 0 then
    ({| currentKeyIndex := currentKeyIndex p;
        quotaResets := quotaResets p;
        usageCount := usageCount p;
        keyRotationLock := false |},
     Rejected "No YouTube API keys available")
  else
    let i := ((currentKeyIndex p + 1) mod length youtubeApiKeys)%nat in
    let expired :=
      match quotaResets p !! i with
      | Some lastReset => DAY_MS <=? now - lastReset
      | None => false
      end in
    ({| currentKeyIndex := i;
        quotaResets := if expired then <[i := now]> (quotaResets p) else quotaResets p;
        usageCount := if expired then <[i := 0]> (usageCount p) else usageCount p;
        keyRotationLock := false |},
     Fulfilled (youtubeApiKeys !! i)).

(** [rotateYoutubeKey()], run from its start, or from the [await] of its
    polling loop, until it suspends or settles.  With the lock held the call
    suspends at the [await] ([None]) and looks again when it is next given a
    turn; with the lock free it takes the lock, runs the locked part and
    settles.  A call that no other call runs beside does not get past a held
    lock. *)
Definition rotateYoutubeKey (env : Env) (now : Z) (p : KeyPool)
  : KeyPool * option (Outcome (option string)) :=
  if keyRotationLock p then (p, None)
  else
    let '(p', r) := rotate_locked env now p in (p', Some r).

(** [n] calls one after the other, each with its own clock reading. *)
Fixpoint rotate_many (env : Env) (nows : list Z) (p : KeyPool) : KeyPool :=
  match nows with
  | [] => p
  | now :: rest => rotate_many env rest (fst (rotateYoutubeKey env now p))
  end.

(** *** Several callers under the event loop *)

(** Where a caller of [rotateYoutubeKey] stands: before its call, suspended
    in the polling loop, or with its promise settled. *)
Inductive Caller : Type :=
| Entering
| Polling
| Settled (r : Outcome (option string)).

(** The event loop gives turns to callers in some order; a turn names the
    caller and carries the clock reading of that moment.  [log] collects the
    outcomes in the order in which the calls settle. *)
Record Loop : Type := mkLoop {
  pool : KeyPool;
  callers : list Caller;
  log : list (Outcome (option string))
}.

Definition loop_turn (env : Env) (turn : nat * Z) (l : Loop) : Loop :=
  let '(j, now) := turn in
  match callers l !! j with
  | Some (Settled _) | None => l
  | Some _ =>
      match rotateYoutubeKey env now (pool l) with
      | (p', Some r) =>
          {| pool := p'; callers := <[j := Settled r]> (callers l); log := log l ++ [r] |}
      | (p', None) =>
          {| pool := p'; callers := <[j := Polling]> (callers l); log := log l |}
      end
  end.

Definition run_schedule (env : Env) (sched : list (nat * Z)) (l : Loop) : Loop :=
  fold_left (fun l turn => loop_turn env turn l) sched l.

(** [k] callers are about to invoke [rotateYoutubeKey] within the same
    window; the first turn of a caller is its invocation. *)
Definition concurrent_calls (k : nat) (p : KeyPool) : Loop :=
  {| pool := p; callers := repeat Entering k; log := [] |}.

Definition is_settled (c : Caller) : bool :=
  match c with Settled _ => true | _ => false end.

(** The key at index [i] of the configured keys, as a caller receives it. *)
Definition key_at (env : Env) (i : nat) : Outcome (option string) :=
  Fulfilled (getYouTubeApiKeys env !! i).

Definition settled_count (cs : list Caller) : nat := length (List.filter is_settled cs).

(** What holds of the event loop at every scheduling point, [i0] being the
    index before any of the calls has run. *)
Record loop_inv (env : Env) (i0 : nat) (l : Loop) : Prop := mkLoopInv {
  inv_unlocked : keyRotationLock (pool l) = false;
  inv_count : length (log l) = settled_count (callers l);
  inv_index :
    currentKeyIndex (pool l)
    = ((i0 + length (log l)) mod length (getYouTubeApiKeys env))%nat;
  inv_log :
    log l = List.map (fun m => key_at env ((i0 + m) mod length (getYouTubeApiKeys env))%nat)
              (seq 1 (length (log l)));
  inv_nobody_polls : Forall (fun c => c ≠ Polling) (callers l)
}.

(** Sample pools: five keys, three keys, none. *)
Definition env5 : Env := [Some "k1"; Some "k2"; Some "k3"; Some "k4"; Some "k5"].
Definition env3 : Env := [Some "k1"; None; Some "k2"; Some ""; Some "k3"].
Definition env0 : Env := [None; None; Some ""; None; None].

End KeyRotation.

(** * JSON values, as [req.body] holds them after [express.json()] *)
Module JS.

(** A number is an integer that JavaScript prints in full: a safe integer, or
    a power of ten below [1e21].  The property list of an object has distinct
    names.  [undefined] is [None] where a value is optional. *)
Inductive JSON : Type :=
| JNull
| JBool (b : bool)
| JNum (z : Z)
| JStr (s : string)
| JArr (items : list JSON)
| JObj (props : list (string * JSON)).

(** [!!v] *)
Definition truthy (v : JSON) : bool :=
  match v with
  | JNull => false
  | JBool b => b
  | JNum z => negb (z =? 0)
  | JStr s => negb (String.eqb s "")
  | JArr _ | JObj _ => true
  end.

Definition truthy_opt (o : option JSON) : bool :=
  match o with
  | Some v => truthy v
  | None => false
  end.

Fixpoint assoc (name : string) (props : list (string * JSON)) : option JSON :=
  match props with
  | [] => None
  | (k, v) :: rest => if String.eqb k name then Some v else assoc name rest
  end.

(** [v.name] for a name that no prototype defines: an own property of an
    object, [undefined] on every other value. *)
Definition prop (name : string) (v : JSON) : option JSON :=
  match v with
  | JObj props => assoc name props
  | _ => None
  end.

Definition isArray (o : option JSON) : bool :=
  match o with
  | Some (JArr _) => true
  | _ => false
  end.

(** [o && typeof o === 'object'] *)
Definition truthy_object (o : option JSON) : bool :=
  match o with
  | Some (JArr _) | Some (JObj _) => true
  | _ => false
  end.

Definition hex_digit (n : N) : ascii :=
  match n with
  | 0%N => "0" | 1%N => "1" | 2%N => "2" | 3%N => "3" | 4%N => "4"
  | 5%N => "5" | 6%N => "6" | 7%N => "7" | 8%N => "8" | 9%N => "9"
  | 10%N => "a" | 11%N => "b" | 12%N => "c" | 13%N => "d" | 14%N => "e"
  | _ => "f"
  end%char.

Definition double_quote : string := String (ascii_of_N 34) "".

(** One character inside a JSON string literal (ECMAScript QuoteJSONString). *)
Definition quote_char (c : ascii) : string :=
  let n := N_of_ascii c in
  if (n =? 34)%N then "\" ++ double_quote
  else if (n =? 92)%N then "\\"
  else if (n =? 8)%N then "\b"
  else if (n =? 12)%N then "\f"
  else if (n =? 10)%N then "\n"
  else if (n =? 13)%N then "\r"
  else if (n =? 9)%N then "\t"
  else if (n <? 32)%N then
    "\u00" ++ String (hex_digit (n / 16)) (String (hex_digit (n mod 16)) "")
  else String c "".

Fixpoint quote_chars (s : string) : string :=
  match s with
  | EmptyString => ""
  | String c rest => quote_char c ++ quote_chars rest
  end.

Definition quote (s : string) : string :=
  double_quote ++ quote_chars s ++ double_quote.

(** [JSON.stringify(v)] *)
Fixpoint JSON_stringify (v : JSON) : string :=
  match v with
  | JNull => "null"
  | JBool true => "true"
  | JBool false => "false"
  | JNum z => pretty.pretty z
  | JStr s => quote s
  | JArr items => "[" ++ String.concat "," (List.map JSON_stringify items) ++ "]"
  | JObj props =>
      "{" ++ String.concat ","
               (List.map (fun kv => quote (fst kv) ++ ":" ++ JSON_stringify (snd kv)) props)
          ++ "}"
  end.

End JS.

(** * The TTL cache over MongoDB (api.js, lines 8-23 and 220-484) *)
Module CacheStore.
Import JS.

(** A document of a cache collection.  The driver's [_id] is left out; a
    field a document does not have is [None]. *)
Record Doc : Type := mkDoc {
  key : string;
  collection : option string;
  expiresAt : option Z;
  updatedAt : option Z;
  cacheVersion : option string;
  videos : option JSON;
  channelId : option JSON;
  uploadsPlaylistId : option JSON;
  categories : option JSON
}.

(** [dataToReturn] of [POST /cache/get]. *)
Record Payload : Type := mkPayload {
  p_videos : option JSON;
  p_channelId : option JSON;
  p_uploadsPlaylistId : option JSON;
  p_categories : option JSON
}.

(** [DB_CONFIG.collections[name]].  The lookup is that of the object's own
    four names.  For a name that [Object.prototype] defines ([constructor],
    [toString], ...) the source's truthiness test passes and
    [db.collection] is handed a non-string, which ends in a 500; here such a
    name is unknown like any other and answered 400.  Either way nothing is
    read or written. *)
Definition DB_collections (name : string) : option string :=
  if String.eqb name "channels" then Some "channels"
  else if String.eqb name "videos" then Some "videos"
  else if String.eqb name "categories" then Some "categories"
  else if String.eqb name "playlists" then Some "playlists"
  else None.

(** [DB_CONFIG.cacheExpiry[name]], in hours. *)
Definition DB_cacheExpiry (name : string) : option Z :=
  if String.eqb name "channels" then Some 24
  else if String.eqb name "videos" then Some 12
  else if String.eqb name "categories" then Some 48
  else if String.eqb name "playlists" then Some 24
  else None.

Definition HOUR_MS : Z := 60 * 60 * 1000.

(** The database: the documents of each collection, in insertion order. *)
Abbreviation Database := (gmap string (list Doc)).

Definition db_collection (db : Database) (name : string) : list Doc :=
  default [] (db !! name).

(** The filter [{ key, $or: [{expiresAt: {$exists: false}}, {expiresAt: {$gt: now}}] }]. *)
Definition live (now : Z) (d : Doc) : bool :=
  match expiresAt d with
  | None => true
  | Some e => now <? e
  end.

Definition matches_live (k : string) (now : Z) (d : Doc) : bool :=
  String.eqb (key d) k && live now d.

(** The filter [{ expiresAt: {$lt: now} }]. *)
Definition expired (now : Z) (d : Doc) : bool :=
  match expiresAt d with
  | None => false
  | Some e => e <? now
  end.

Definition matches_expired (k : string) (now : Z) (d : Doc) : bool :=
  String.eqb (key d) k && expired now d.

Definition findOne (f : Doc -> bool) (c : list Doc) : option Doc := List.find f c.

Fixpoint deleteOne (f : Doc -> bool) (c : list Doc) : list Doc :=
  match c with
  | [] => []
  | d :: rest => if f d then rest else d :: deleteOne f rest
  end.

Definition deleteMany (f : Doc -> bool) (c : list Doc) : list Doc :=
  List.filter (fun d => negb (f d)) c.

Definition or_else {A} (new old : option A) : option A :=
  match new with
  | Some a => Some a
  | None => old
  end.

(** [{ $set: cacheDoc }] applied to a stored document: the fields of
    [cacheDoc] replace the stored ones, every other stored field stays. *)
Definition apply_set (cacheDoc d : Doc) : Doc :=
  {| key := key cacheDoc;
     collection := or_else (collection cacheDoc) (collection d);
     expiresAt := or_else (expiresAt cacheDoc) (expiresAt d);
     updatedAt := or_else (updatedAt cacheDoc) (updatedAt d);
     cacheVersion := or_else (cacheVersion cacheDoc) (cacheVersion d);
     videos := or_else (videos cacheDoc) (videos d);
     channelId := or_else (channelId cacheDoc) (channelId d);
     uploadsPlaylistId := or_else (uploadsPlaylistId cacheDoc) (uploadsPlaylistId d);
     categories := or_else (categories cacheDoc) (categories d) |}.

(** [updateOne({ key }, { $set: cacheDoc }, { upsert: true })]: the first
    document with that key is updated; without one, [cacheDoc] is inserted.
    The second component is [upsertedCount]. *)
Fixpoint updateOne_upsert (k : string) (cacheDoc : Doc) (c : list Doc) : list Doc * Z :=
  match c with
  | [] => ([cacheDoc], 1)
  | d :: rest =>
      if String.eqb (key d) k then (apply_set cacheDoc d :: rest, 0)
      else
        let '(rest', n) := updateOne_upsert k cacheDoc rest in (d :: rest', n)
  end.

(** What the database does during one request: whether the connection can be
    ensured, and whether each driver call throws. *)
Record Faults : Type := mkFaults {
  connection_fails : bool;
  findOne_fails : bool;
  deleteOne_fails : bool;
  updateOne_fails : nat -> option string
}.

Definition no_faults : Faults :=
  {| connection_fails := false; findOne_fails := false;
     deleteOne_fails := false; updateOne_fails := fun _ => None |}.

(** The parts of a request the cache routes read. *)
Record Request : Type := mkRequest {
  query_collection : option string;
  query_key : option string;
  body_collection : option string;
  body_key : option string;
  body_data : option JSON
}.

Inductive Body : Type :=
| ErrorBody (error : string)
| StoreFailed (error details : string)
| TooLarge (error maxSize : string) (actualSize : Z)
| DataDoc (d : Doc)
| DataPayload (p : Payload)
| Stored (message : string) (expires : Z) (operation : string).

Record Response : Type := mkResponse {
  status : Z;
  body : Body
}.

Definition truthy_str (o : option string) : bool :=
  match o with
  | Some s => negb (String.eqb s "")
  | None => false
  end.

(** [a || b] on optional strings. *)
Definition str_or (a b : option string) : option string :=
  if truthy_str a then a else b.

(** The checks shared by [cacheMiddleware] and [getCacheMiddleware]: an
    error response, or the name of the collection to use. *)
Definition middleware (f : Faults) (collectionName : option string) : Response + string :=
  if connection_fails f then
    inl {| status := 500; body := ErrorBody "Database connection error. Please try again." |}
  else
    match collectionName with
    | Some name =>
        if negb (String.eqb name "") then
          match DB_collections name with
          | Some c => inr c
          | None =>
              inl {| status := 400;
                     body := ErrorBody ("Invalid or missing collection name: '" ++ name ++ "'") |}
          end
        else
          inl {| status := 400;
                 body := ErrorBody ("Invalid or missing collection name: '" ++ name ++ "'") |}
    | None =>
        inl {| status := 400;
               body := ErrorBody "Invalid or missing collection name: 'undefined'" |}
    end.

Definition cacheMiddleware (f : Faults) (req : Request) : Response + string :=
  middleware f (body_collection req).

Definition getCacheMiddleware (f : Faults) (req : Request) : Response + string :=
  middleware f (str_or (query_collection req) (body_collection req)).

Definition not_found : Response :=
  {| status := 404; body := ErrorBody "Cache not found" |}.

Definition internal_error : Response :=
  {| status := 500; body := ErrorBody "Internal server error" |}.

(** The lookup both read routes share: [findOne] with the liveness filter,
    then on a miss [deleteOne] of an expired document with that key. *)
Definition lookup_live (f : Faults) (now : Z) (c : string) (k : string) (db : Database)
  : (Response + Doc) * Database :=
  if findOne_fails f then (inl internal_error, db)
  else
    match findOne (matches_live k now) (db_collection db c) with
    | Some d => (inr d, db)
    | None =>
        if deleteOne_fails f then (inl internal_error, db)
        else (inl not_found, <[c := deleteOne (matches_expired k now) (db_collection db c)]> db)
    end.

(** [router.get('/cache', getCacheMiddleware, ...)] *)
Definition get_cache (f : Faults) (now : Z) (req : Request) (db : Database)
  : Response * Database :=
  match getCacheMiddleware f req with
  | inl r => (r, db)
  | inr c =>
      if truthy_str (query_key req) then
        match lookup_live f now c (default "" (query_key req)) db with
        | (inl r, db') => (r, db')
        | (inr data, db') => ({| status := 200; body := DataDoc data |}, db')
        end
      else ({| status := 400; body := ErrorBody "Key is required" |}, db)
  end.

Definition keep_truthy (o : option JSON) : option JSON :=
  if truthy_opt o then o else None.

(** [dataToReturn]: the four payload fields of the document that are truthy. *)
Definition dataToReturn (doc : Doc) : Payload :=
  {| p_videos := keep_truthy (videos doc);
     p_channelId := keep_truthy (channelId doc);
     p_uploadsPlaylistId := keep_truthy (uploadsPlaylistId doc);
     p_categories := keep_truthy (categories doc) |}.

(** [router.post('/cache/get', getCacheMiddleware, ...)] *)
Definition post_cache_get (f : Faults) (now : Z) (req : Request) (db : Database)
  : Response * Database :=
  match getCacheMiddleware f req with
  | inl r => (r, db)
  | inr c =>
      if truthy_str (body_key req) then
        match lookup_live f now c (default "" (body_key req)) db with
        | (inl r, db') => (r, db')
        | (inr doc, db') => ({| status := 200; body := DataPayload (dataToReturn doc) |}, db')
        end
      else ({| status := 400; body := ErrorBody "Key is required" |}, db)
  end.

Definition MAX_DATA_SIZE : Z := 10 * 1024 * 1024.

(** [JSON.stringify(data).length] *)
Definition dataSize (data : JSON) : Z :=
  Z.of_nat (String.length (JSON_stringify data)).

Definition maxAttempts : nat := 3.

(** The retry loop around [updateOne]: [None] when an attempt went through,
    the message of the last error when the third attempt threw as well.
    [fails n] is the error attempt [n] throws, if it throws. *)
Fixpoint store_with_retries (turns attempts : nat) (fails : nat -> option string)
  : option string :=
  match turns with
  | O => Some ""
  | S turns' =>
      match fails attempts with
      | Some message =>
          if Nat.eqb (S attempts) maxAttempts then Some message
          else store_with_retries turns' (S attempts) fails
      | None => None
      end
  end.

(** [cacheDoc]: the bookkeeping fields and the truthy payload fields of [data]. *)
Definition cacheDoc_of (k c : string) (data : JSON) (expires updated : Z) : Doc :=
  {| key := k;
     collection := Some c;
     expiresAt := Some expires;
     updatedAt := Some updated;
     cacheVersion := Some "1.0";
     videos := keep_truthy (prop "videos" data);
     channelId := keep_truthy (prop "channelId" data);
     uploadsPlaylistId := keep_truthy (prop "uploadsPlaylistId" data);
     categories := keep_truthy (prop "categories" data) |}.

(** [router.post('/cache', cacheMiddleware, ...)].  [now] is the clock when
    [expiresAt] is computed, [now'] when [updatedAt] is; [setHours] adds whole
    hours, the server's local time having no daylight-saving jump between
    [now] and the expiry.  In front of the route, [express.json({ limit:
    '10mb' })] of server.js answers 413 itself to a body of more than 10 MiB;
    the bodies that reach the route are within that limit, and their [data]
    can still print longer than it was sent (a number sent as [1e20]). *)
Definition post_cache (f : Faults) (now now' : Z) (req : Request) (db : Database)
  : Response * Database :=
  match cacheMiddleware f req with
  | inl r => (r, db)
  | inr c =>
      match body_data req with
      | Some data =>
          if truthy_str (body_key req) && truthy data && truthy_str (body_collection req) then
            if MAX_DATA_SIZE <? dataSize data then
              ({| status := 413;
                  body := TooLarge "Payload too large" "10MB" (dataSize data) |}, db)
            else
              let k := default "" (body_key req) in
              let collectionName := default "" (body_collection req) in
              let expiryHours := default 24 (DB_cacheExpiry collectionName) in
              let expires := now + expiryHours * HOUR_MS in
              let cacheDoc := cacheDoc_of k collectionName data expires now' in
              match store_with_retries maxAttempts 0 (updateOne_fails f) with
              | None =>
                  let '(docs, upsertedCount) := updateOne_upsert k cacheDoc (db_collection db c) in
                  ({| status := 200;
                      body := Stored "Cache stored successfully" expires
                                (if 0 <? upsertedCount then "inserted" else "updated") |},
                   <[c := docs]> db)
              | Some message =>
                  ({| status := 500; body := StoreFailed "Failed to store cache" message |}, db)
              end
          else
            ({| status := 400; body := ErrorBody "Key, data, and collection are required" |}, db)
      | None =>
          ({| status := 400; body := ErrorBody "Key, data, and collection are required" |}, db)
      end
  end.

(** [router.delete('/cache/expired', ...)]: every collection loses the
    documents whose [expiresAt] is before [now]. *)
Definition delete_expired (now : Z) (db : Database) : Database :=
  deleteMany (expired now) <$> db.

(** The requests the cache client sends: [GET /cache?collection=..&key=..],
    [POST /cache/get {key, collection}] and [POST /cache {key, data, collection}]. *)
Definition get_request (name k : string) : Request :=
  {| query_collection := Some name; query_key := Some k;
     body_collection := None; body_key := None; body_data := None |}.

Definition post_get_request (name k : string) : Request :=
  {| query_collection := None; query_key := None;
     body_collection := Some name; body_key := Some k; body_data := None |}.

Definition put_request (name k : string) (data : JSON) : Request :=
  {| query_collection := None; query_key := None;
     body_collection := Some name; body_key := Some k; body_data := Some data |}.

(** The four recognized fields of [data], as sent. *)
Definition recognized_fields (data : JSON) : Payload :=
  {| p_videos := prop "videos" data;
     p_channelId := prop "channelId" data;
     p_uploadsPlaylistId := prop "uploadsPlaylistId" data;
     p_categories := prop "categories" data |}.

(** What a read returns after [data] was put over the stored document
    [old]: each truthy field of [data], and for the others the truthy field
    the stored document had. *)
Definition merged_fields (data : JSON) (old : option Doc) : Payload :=
  {| p_videos := or_else (keep_truthy (prop "videos" data)) (keep_truthy (old ≫= videos));
     p_channelId :=
       or_else (keep_truthy (prop "channelId" data)) (keep_truthy (old ≫= channelId));
     p_uploadsPlaylistId :=
       or_else (keep_truthy (prop "uploadsPlaylistId" data))
         (keep_truthy (old ≫= uploadsPlaylistId));
     p_categories :=
       or_else (keep_truthy (prop "categories" data)) (keep_truthy (old ≫= categories)) |}.

(** The document stored under key [k] before a write, if any. *)
Definition stored_under (k : string) (c : list Doc) : option Doc :=
  List.find (fun d => String.eqb (key d) k) c.

(** When [POST /cache] computes the expiry of an entry written at [now]. *)
Definition expiry_of (name : string) (now : Z) : Z :=
  now + default 24 (DB_cacheExpiry name) * HOUR_MS.

(** Every document of the collection under key [k] has an [expiresAt] that is
    not after [now]. *)
Definition all_expired (k : string) (now : Z) (c : list Doc) : Prop :=
  forall d, In d c -> key d = k -> exists e, expiresAt d = Some e /\ e <= now.

(** No two documents of the collection share a key. *)
Definition unique_keys (c : list Doc) : Prop := NoDup (List.map key c).


End CacheStore.

(** * The browser's cache service (services/cache.js) *)
Module CacheClient.
Import JS CacheStore.

(** What happens around one [fetch] to the server: whether the request gets
    through at all, how the database behaves while the server handles it, and
    the server's clock readings. *)
Record Attempt : Type := mkAttempt {
  network_error : option string;
  faults : Faults;
  server_now : Z;
  server_now' : Z
}.

Definition calm (now : Z) : Attempt :=
  {| network_error := None; faults := no_faults; server_now := now; server_now' := now |}.

(** [errorData.error || `Server responded with status ${response.status}`] *)
Definition error_text (r : Response) : string :=
  let e := match body r with
           | ErrorBody e => e
           | StoreFailed e _ => e
           | TooLarge e _ _ => e
           | _ => ""
           end in
  if String.eqb e "" then "Server responded with status " ++ pretty.pretty (status r) else e.

Definition ok (r : Response) : bool := (200 <=? status r) && (status r <=? 299).

(** [getCachedData(key, collection)]: the stored payload, or [null] on a miss
    and on every error. *)
Definition getCachedData (a : Attempt) (k : string) (collectionName : string) (db : Database)
  : option Payload * Database :=
  match network_error a with
  | Some _ => (None, db)
  | None =>
      let req := {| query_collection := None; query_key := None;
                    body_collection := Some collectionName; body_key := Some k;
                    body_data := None |} in
      match post_cache_get (faults a) (server_now a) req db with
      | ({| status := _; body := DataPayload p |}, db') => (Some p, db')
      | (_, db') => (None, db')
      end
  end.

Definition field (name : string) (keep : bool) (v : option JSON) : list (string * JSON) :=
  match v with
  | Some x => if keep then [(name, x)] else []
  | None => []
  end.

(** [validatedData]: the recognized fields of [data] that pass their check. *)
Definition validatedData (data : JSON) : list (string * JSON) :=
  field "videos" (isArray (prop "videos" data)) (prop "videos" data)
  ++ field "channelId" (truthy_opt (prop "channelId" data)) (prop "channelId" data)
  ++ field "uploadsPlaylistId" (truthy_opt (prop "uploadsPlaylistId" data))
       (prop "uploadsPlaylistId" data)
  ++ field "categories" (truthy_object (prop "categories" data)) (prop "categories" data).

(** The retry loop of [cacheData]: up to [maxAttempts] requests
    [POST /api/cache], the attempt number selecting the surroundings.  The
    result carries the database as the server left it and the number of
    requests sent. *)
Fixpoint post_with_retries (turns attempts : nat) (world : nat -> Attempt)
    (req : Request) (lastError : string) (db : Database)
  : Outcome Body * Database * nat :=
  match turns with
  | O => (Rejected lastError, db, attempts)
  | S turns' =>
      let a := world attempts in
      match network_error a with
      | Some message => post_with_retries turns' (S attempts) world req message db
      | None =>
          let '(response, db') := post_cache (faults a) (server_now a) (server_now' a) req db in
          if ok response then (Fulfilled (body response), db', S attempts)
          else post_with_retries turns' (S attempts) world req (error_text response) db'
      end
  end.

(** [cacheData(key, data, collection)].  The third component counts the
    requests sent to the server. *)
Definition cacheData (world : nat -> Attempt) (k : string) (data : JSON)
    (collectionName : string) (db : Database) : Outcome Body * Database * nat :=
  if negb (String.eqb k "") && truthy data then
    match validatedData data with
    | [] => (Rejected "No valid data to cache", db, 0%nat)
    | fields =>
        let req := {| query_collection := None; query_key := None;
                      body_collection := Some collectionName; body_key := Some k;
                      body_data := Some (JObj fields) |} in
        post_with_retries maxAttempts 0 world req "" db
    end
  else (Rejected "Key and data are required for caching", db, 0%nat).

End CacheClient.

(** * Resolving a channel handle (api.js, lines 574-596) *)
Module ResolveHandle.

(** A JavaScript string as the list of its UTF-16 code units. *)
Definition jsstring : Type := list N.

Definition of_string (s : string) : jsstring :=
  List.map N_of_ascii (list_ascii_of_string s).

(** [s.replace('@', '')]: a string pattern replaces the first occurrence only. *)
Fixpoint replace_first_at (s : jsstring) : jsstring :=
  match s with
  | [] => []
  | c :: rest => if (c =? 64)%N then rest else c :: replace_first_at rest
  end.

(** The code units [trim] strips: ECMAScript WhiteSpace and LineTerminator. *)
Definition is_whitespace (c : N) : bool :=
  ((9 <=? c) && (c <=? 13) || (c =? 32) || (c =? 160) || (c =? 5760)
   || (8192 <=? c) && (c <=? 8202) || (c =? 8232) || (c =? 8233) || (c =? 8239)
   || (c =? 8287) || (c =? 12288) || (c =? 65279))%N.

Fixpoint trim_start (s : jsstring) : jsstring :=
  match s with
  | [] => []
  | c :: rest => if is_whitespace c then trim_start rest else s
  end.

Definition trim (s : jsstring) : jsstring :=
  rev (trim_start (rev (trim_start s))).

(** The character class [[a-zA-Z0-9_-]]. *)
Definition is_handle_char (c : N) : bool :=
  ((97 <=? c) && (c <=? 122) || (65 <=? c) && (c <=? 90) || (48 <=? c) && (c <=? 57)
   || (c =? 95) || (c =? 45))%N.

(** [/^[a-zA-Z0-9_-]{1,100}$/.test(s)] *)
Definition valid_handle (s : jsstring) : bool :=
  Nat.leb 1 (length s) && Nat.leb (length s) 100 && forallb is_handle_char s.

(** What the route does first: answer at once, or call [https.get(url)]. *)
Inductive Action : Type :=
| Respond (status : Z) (error : string)
| HttpsGet (url : jsstring).

Definition cleanHandle (handle : jsstring) : jsstring := trim (replace_first_at handle).

(** [router.get('/resolve-handle', ...)] up to the outbound request;
    [handle] is [req.query.handle], a string when present. *)
Definition resolve_handle (handle : option jsstring) : Action :=
  match handle with
  | None | Some [] => Respond 400 "Handle is required"
  | Some h =>
      if valid_handle (cleanHandle h) then
        HttpsGet (List.app (of_string "https://www.youtube.com/@") (cleanHandle h))
      else Respond 400 "Invalid handle format"
  end.


End ResolveHandle.

(** * The browser's YouTube service (services/youtube.js) *)
Module YouTube.
Import JS KeyRotation CacheStore CacheClient.

(** The answer to a [fetch] of a Google API. *)
Inductive Reply (A : Type) : Type :=
| Unreachable (message : string)
| ApiError (message : option string)
| ApiOk (a : A).
Arguments Unreachable {A} message.
Arguments ApiError {A} message.
Arguments ApiOk {A} a.

(** One page of [playlistItems]: the [videoId] of each item, if it has one,
    and the token of the next page. *)
Record Page : Type := mkPage {
  items : list (option string);
  nextPageToken : option string
}.

(** Everything outside the browser tab: the server's environment and clock
    (one reading per rotation), the Google APIs as functions of the key and
    the query, and the surroundings of the cache requests. *)
Record World : Type := mkWorld {
  env : Env;
  clock : nat -> Z;
  channels_api : option string -> string -> Reply (option (string * option string));
  playlistItems_api : option string -> string -> string -> Reply Page;
  videos_api : option string -> string -> Reply (option (list JSON));
  cache_read : Attempt;
  cache_write : nat -> Attempt
}.

Inductive Event : Type :=
| SetChannelInfo (channelId uploads : string)
| SetVideos (videos : JSON)
| Rendered
| ConsoleLog (text : string)
| ConsoleError (text : string).

(** The server's key pool and database, and the tab's state: the keys it
    holds, the number of rotations it has asked for, what it has shown. *)
Record Browser : Type := mkBrowser {
  server : KeyPool;
  db : Database;
  currentApiKeys : list string;
  rotations : nat;
  events : list Event
}.

Definition emit (es : list Event) (b : Browser) : Browser :=
  {| server := server b; db := db b; currentApiKeys := currentApiKeys b;
     rotations := rotations b; events := events b ++ es |}.

Definition with_db (d : Database) (b : Browser) : Browser :=
  {| server := server b; db := d; currentApiKeys := currentApiKeys b;
     rotations := rotations b; events := events b |}.

(** [getCurrentApiKey()] *)
Definition getCurrentApiKey (b : Browser) : option string := head (currentApiKeys b).

(** [[newKey, ...youtubeApiKeys.filter(k => k !== newKey)]] *)
Definition rotated_keys (newKey : option string) (keys : list string) : list string :=
  match newKey with
  | Some k => k :: List.filter (fun k' => negb (String.eqb k' k)) keys
  | None => keys
  end.

(** [rotateApiKey()]: [POST /api/rotate-key] runs [rotateYoutubeKey] on the
    server.  An answer without [keyRotated] makes the call throw: the 500 of
    a rejected rotation, and the 408 that the timeout of server.js sends for
    a rotation that stays suspended. *)
Definition rotateApiKey (w : World) (b : Browser) : Browser * Outcome (option string) :=
  match rotateYoutubeKey (env w) (clock w (rotations b)) (server b) with
  | (p', Some (Fulfilled newKey)) =>
      let keys := rotated_keys newKey (getYouTubeApiKeys (env w)) in
      ({| server := p'; db := db b; currentApiKeys := keys;
          rotations := S (rotations b); events := events b |},
       Fulfilled (head keys))
  | (p', _) =>
      ({| server := p'; db := db b; currentApiKeys := currentApiKeys b;
          rotations := S (rotations b); events := events b |},
       Rejected "Failed to rotate API key")
  end.

Definition mentions_quota (message : option string) : bool :=
  match message with
  | Some m => negb (String.eqb m "") && includes "quota" m
  | None => false
  end.

(** [message || fallback] *)
Definition message_or (message : option string) (fallback : string) : string :=
  match message with
  | Some m => if String.eqb m "" then fallback else m
  | None => fallback
  end.

(** The [try] block of [getChannelDetails]. *)
Definition channel_details_try (w : World) (channelId : string) (b : Browser)
  : Outcome (string * string) :=
  match channels_api w (getCurrentApiKey b) channelId with
  | Unreachable m => Rejected m
  | ApiError message =>
      if mentions_quota message then Rejected "quota exceeded"
      else Rejected (message_or message "Failed to fetch channel details")
  | ApiOk (Some (id, Some uploads)) =>
      if String.eqb uploads "" then Rejected "Channel uploads playlist not found"
      else Fulfilled (id, uploads)
  | ApiOk _ => Rejected "Channel uploads playlist not found"
  end.

(** [getChannelDetails(channelId)].  Every call of the function, the first
    and each one made from the [catch] block, uses one unit of [fuel];
    [None] says the promise has not settled within it. *)
Fixpoint getChannelDetails (fuel : nat) (w : World) (channelId : string) (b : Browser)
  : Browser * option (Outcome unit) :=
  match fuel with
  | O => (b, None)
  | S fuel' =>
      match channel_details_try w channelId b with
      | Fulfilled (id, uploads) => (emit [SetChannelInfo id uploads] b, Some (Fulfilled tt))
      | Rejected m =>
          if includes "quota" m then
            match rotateApiKey w b with
            | (b', Fulfilled _) => getChannelDetails fuel' w channelId b'
            | (b', Rejected m') => (b', Some (Rejected m'))
            end
          else (b, Some (Rejected "Failed to load channel details. Please try again."))
      end
  end.

(** How the [do ... while] loop of a loader ends. *)
Inductive Pages : Type :=
| Collected (videos : list JSON)
| Threw (message : string)
| Unfinished.

(** [items.map(...).filter(Boolean).join(',')] *)
Definition join_ids (its : list (option string)) : string :=
  String.concat "," (List.filter truthy_string (omap id its)).

(** The page loop of [loadPlaylistData]; each page uses one unit of [fuel]. *)
Fixpoint fetch_pages (fuel : nat) (w : World) (k : option string)
    (playlistId pageToken : string) (allVideos : list JSON) : Pages :=
  match fuel with
  | O => Unfinished
  | S fuel' =>
      match playlistItems_api w k playlistId pageToken with
      | Unreachable m => Threw m
      | ApiError message =>
          if mentions_quota message then Threw "quota exceeded"
          else Threw (message_or message "Failed to fetch playlist items")
      | ApiOk page =>
          match items page with
          | [] => Collected allVideos
          | _ =>
              let videoIds := join_ids (items page) in
              let fetched :=
                if String.eqb videoIds "" then inr allVideos
                else
                  match videos_api w k videoIds with
                  | Unreachable m => inl m
                  | ApiError message =>
                      if mentions_quota message then inl "quota exceeded" else inr allVideos
                  | ApiOk statsItems => inr (allVideos ++ default [] statsItems)%list
                  end in
              match fetched with
              | inl m => Threw m
              | inr allVideos' =>
                  match nextPageToken page with
                  | Some token =>
                      if String.eqb token "" then Collected allVideos'
                      else fetch_pages fuel' w k playlistId token allVideos'
                  | None => Collected allVideos'
                  end
              end
          end
      end
  end.

(** The background write of a loader: [cacheData(...)] is not awaited, its
    rejection reaches the [.catch] handler only. *)
Definition cache_in_background (w : World) (k : string) (data : JSON)
    (collectionName : string) (b : Browser) : Browser :=
  match cacheData (cache_write w) k data collectionName (db b) with
  | (Fulfilled _, db', _) =>
      emit [ConsoleLog "[Cache] Playlist automatically cached in background."] (with_db db' b)
  | (Rejected m, db', _) =>
      emit [ConsoleError ("[Cache] Background playlist caching failed: " ++ m)] (with_db db' b)
  end.

(** [loadPlaylistData(playlistId)]; each call of the function uses one unit
    of [fuel] and lends the rest to its page loop. *)
Fixpoint loadPlaylistData (fuel : nat) (w : World) (playlistId : string) (b : Browser)
  : Browser * option (Outcome unit) :=
  match fuel with
  | O => (b, None)
  | S fuel' =>
      let '(cachedData, db') :=
        getCachedData (cache_read w) ("playlist_" ++ playlistId) "playlists" (db b) in
      let b := with_db db' b in
      match cachedData ≫= p_videos with
      | Some videos => (emit [SetVideos videos; Rendered] b, Some (Fulfilled tt))
      | None =>
          let thrown (m : string) :=
            if includes "quota" m then
              match rotateApiKey w b with
              | (b', Fulfilled _) => loadPlaylistData fuel' w playlistId b'
              | (b', Rejected m') => (b', Some (Rejected m'))
              end
            else (b, Some (Rejected (message_or (Some m) "Failed to load playlist data"))) in
          match fetch_pages fuel' w (getCurrentApiKey b) playlistId "" [] with
          | Unfinished => (b, None)
          | Threw m => thrown m
          | Collected [] => thrown "No videos found in this playlist"
          | Collected allVideos =>
              (cache_in_background w ("playlist_" ++ playlistId)
                 (JObj [("videos", JArr allVideos)]) "playlists"
                 (emit [SetVideos (JArr allVideos); Rendered] b),
               Some (Fulfilled tt))
          end
      end
  end.

(** Every request to the channels and playlist-items APIs is refused with a
    message that mentions the quota, whichever key it carries. *)
Definition quota_everywhere (w : World) : Prop :=
  (forall k channelId, exists m,
      channels_api w k channelId = ApiError (Some m) /\ mentions_quota (Some m) = true)
  /\ (forall k playlistId pageToken, exists m,
        playlistItems_api w k playlistId pageToken = ApiError (Some m)
        /\ mentions_quota (Some m) = true).

End YouTube.

(** * The Gemini batch categorizer (services/gemini.js) *)
Module Categorize.
Import JS CacheStore CacheClient.

(** An entry of [globalState.videos]; the fields the categorizer does not
    read are left out. *)
Record Video : Type := mkVideo {
  id : string;
  title : string;
  playlistId : option string
}.

(** One element of the parsed answer, [{category, videos: [{title}]}]:
    [category] is empty when the field is missing or falsy, [titles] is
    [None] when [videos] is not an array, and a title is [None] when the
    entry has no string [title]. *)
Record CategoryObj : Type := mkCategoryObj {
  category : string;
  titles : option (list (option string))
}.

(** What one call of the Gemini API comes to: [fetch] or a later statement
    of the batch throws with a message; the answer is not [ok]; it has no
    text; the text fails [JSON.parse]; or it parses, to an array of objects
    (a single object is wrapped into one). *)
Inductive ChunkReply : Type :=
| FetchFailed (message : string)
| HttpFailed (errorData : string)
| NoText
| ParseError
| Parsed (parsedCategories : list CategoryObj).

Record World : Type := mkWorld {
  geminiApiKey : option string;
  gemini : nat -> list Video -> ChunkReply;
  cache_read : Attempt;
  cache_write : nat -> Attempt;
  has_toast : bool
}.

Inductive Event : Type :=
| ToastWarning (text : string)
| ToastError (text : string)
| DisplayCategories (categories : JSON)
| LoadingStatus (text : option string).

Definition BATCH_SIZE : nat := 200.
Definition MAX_PARALLEL : nat := 3.

(** [Math.ceil(videos.length / BATCH_SIZE)] *)
Definition totalBatches (videos : list Video) : nat :=
  ((length videos + BATCH_SIZE - 1) / BATCH_SIZE)%nat.

(** [videos.slice(start, start + BATCH_SIZE)] with [start = i * BATCH_SIZE] *)
Definition batchVideos (videos : list Video) (i : nat) : list Video :=
  take BATCH_SIZE (drop (i * BATCH_SIZE) videos).

(** [list.find(v => v.title === t)] *)
Definition find_by_title (list : list Video) (t : option string) : option Video :=
  match t with
  | Some s => List.find (fun v => String.eqb (title v) s) list
  | None => None
  end.

(** The property names every object inherits from [Object.prototype]: for
    these [batchCategories[name]] is never falsy and has no [push]. *)
Definition inherited (name : string) : bool :=
  existsb (String.eqb name)
    ["constructor"; "toString"; "toLocaleString"; "valueOf"; "hasOwnProperty";
     "isPrototypeOf"; "propertyIsEnumerable"; "__proto__"; "__defineGetter__";
     "__defineSetter__"; "__lookupGetter__"; "__lookupSetter__"].

(** One turn of [parsedCategories.forEach]: the titles are looked up in
    [videos], the whole list the categorizer was started on. *)
Definition add_category (videos : list Video) (batchCategories : gmap string (list Video))
    (categoryObj : CategoryObj) : Outcome (gmap string (list Video)) :=
  if String.eqb (category categoryObj) "" then Fulfilled batchCategories
  else
    match titles categoryObj with
    | None => Fulfilled batchCategories
    | Some ts =>
        let found := omap (find_by_title videos) ts in
        if inherited (category categoryObj) then
          match found with
          | [] => Fulfilled batchCategories
          | _ => Rejected "batchCategories[categoryName].push is not a function"
          end
        else
          Fulfilled (<[category categoryObj :=
                        (default [] (batchCategories !! category categoryObj) ++ found)%list]>
                       batchCategories)
    end.

Fixpoint add_categories (videos : list Video) (batchCategories : gmap string (list Video))
    (parsedCategories : list CategoryObj) : Outcome (gmap string (list Video)) :=
  match parsedCategories with
  | [] => Fulfilled batchCategories
  | categoryObj :: rest =>
      match add_category videos batchCategories categoryObj with
      | Fulfilled batchCategories' => add_categories videos batchCategories' rest
      | Rejected m => Rejected m
      end
  end.

(** [batchPromise] number [i]. *)
Definition batchPromise (w : World) (videos : list Video) (i : nat)
  : Outcome (gmap string (list Video)) :=
  match geminiApiKey w with
  | Some (String _ _) =>
      match gemini w i (batchVideos videos i) with
      | FetchFailed m => Rejected m
      | HttpFailed errorData =>
          Rejected ("Batch " ++ pretty.pretty (Z.of_nat (i + 1)) ++ " failed: " ++ errorData)
      | NoText => Rejected "Invalid response structure from API"
      | ParseError => Fulfilled ∅
      | Parsed parsedCategories => add_categories videos ∅ parsedCategories
      end
  | _ => Rejected "Gemini API key not available."
  end.

(** [Promise.all]: the results in the order of the promises, or a rejection. *)
Fixpoint Promise_all {A} (promises : list (Outcome A)) : Outcome (list A) :=
  match promises with
  | [] => Fulfilled []
  | Fulfilled a :: rest =>
      match Promise_all rest with
      | Fulfilled results => Fulfilled (a :: results)
      | Rejected m => Rejected m
      end
  | Rejected m :: _ => Rejected m
  end.

(** The merge of one batch into [allCategories]. *)
Definition merge_batch (allCategories batchCategories : gmap string (list Video))
  : gmap string (list Video) :=
  union_with (fun old new => Some (old ++ new)%list) allCategories batchCategories.

(** The [for] loop over the batch numbers still to come, with the promises
    of the current wave and the categories merged so far. *)
Fixpoint batch_loop (w : World) (videos : list Video) (numbers : list nat)
    (batchPromises : list (Outcome (gmap string (list Video))))
    (allCategories : gmap string (list Video)) : Outcome (gmap string (list Video)) :=
  match numbers with
  | [] => Fulfilled allCategories
  | i :: rest =>
      let batchPromises := (batchPromises ++ [batchPromise w videos i])%list in
      if Nat.leb MAX_PARALLEL (length batchPromises) || Nat.eqb i (totalBatches videos - 1) then
        match Promise_all batchPromises with
        | Fulfilled results =>
            batch_loop w videos rest [] (fold_left merge_batch results allCategories)
        | Rejected m => Rejected m
        end
      else batch_loop w videos rest batchPromises allCategories
  end.

(** [allCategories] as the loop leaves it. *)
Definition dispatch (w : World) (videos : list Video) : Outcome (gmap string (list Video)) :=
  batch_loop w videos (seq 0 (totalBatches videos)) [] ∅.

Fixpoint insert_sorted (s : string) (l : list string) : list string :=
  match l with
  | [] => [s]
  | x :: rest => if String.leb s x then s :: l else x :: insert_sorted s rest
  end.

(** [ids.sort()] *)
Definition sort_strings (l : list string) : list string :=
  fold_right insert_sorted [] l.

Definition categorizationKey (videos : list Video) : string :=
  match head videos ≫= playlistId with
  | Some (String c rest) => "categorization_playlist_" ++ String c rest
  | _ => "categorization_videos_" ++ String.concat "," (sort_strings (List.map id videos))
  end.

Definition video_json (v : Video) : JSON :=
  JObj ([("id", JStr (id v)); ("title", JStr (title v))]
        ++ match playlistId v with
           | Some p => [("playlistId", JStr p)]
           | None => []
           end)%list.

Definition categories_json (allCategories : gmap string (list Video)) : JSON :=
  JObj (List.map (fun kv => (fst kv, JArr (List.map video_json (snd kv))))
          (map_to_list allCategories)).

Definition toast (w : World) (e : Event) : list Event :=
  if has_toast w then [e] else [].

(** The [catch] and [finally] blocks of [categorizeVideos]. *)
Definition failed (w : World) (message : string) : list Event :=
  (toast w (ToastError ("Failed to categorize videos: " ++ message))
   ++ [LoadingStatus (Some "Categorization failed."); LoadingStatus None])%list.

(** [categorizeVideos()] on [globalState.videos]: what the page shows, and
    the database afterwards.  Progress messages are left out. *)
Definition categorizeVideos (w : World) (videos : list Video) (db : Database)
  : list Event * Database :=
  match videos with
  | [] => (toast w (ToastWarning "No videos to categorize. Please load some videos first."), db)
  | _ =>
      let k := categorizationKey videos in
      let '(cachedCategories, db1) := getCachedData (cache_read w) k "categories" db in
      match cachedCategories ≫= p_categories with
      | Some cached => ([DisplayCategories cached; LoadingStatus None], db1)
      | None =>
          match dispatch w videos with
          | Rejected m => (failed w m, db1)
          | Fulfilled allCategories =>
              if decide (allCategories = ∅) then (failed w "No categories were generated.", db1)
              else
                match cacheData (cache_write w) k
                        (JObj [("categories", categories_json allCategories)])
                        "categories" db1 with
                | (Rejected m, db2, _) => (failed w m, db2)
                | (Fulfilled _, db2, _) =>
                    ([DisplayCategories (categories_json allCategories); LoadingStatus None], db2)
                end
          end
      end
  end.

(** The entries a parsed answer contributes to category [cat]: for each of
    its elements of that name that has a [videos] array, in order, the videos
    its titles resolve to in [videos]; elements without a usable name
    contribute nothing. *)
Definition chunk_entries (videos : list Video) (cat : string)
    (parsedCategories : list CategoryObj) : list Video :=
  flat_map (fun categoryObj =>
              if String.eqb (category categoryObj) cat
                 && negb (String.eqb cat "") && negb (inherited cat)
              then match titles categoryObj with
                   | Some ts => omap (find_by_title videos) ts
                   | None => []
                   end
              else []) parsedCategories.

Definition reply_entries (videos : list Video) (cat : string) (r : ChunkReply) : list Video :=
  match r with
  | Parsed parsedCategories => chunk_entries videos cat parsedCategories
  | _ => []
  end.

(** The list stored under a category, empty when the category is missing. *)
Definition entries (m : gmap string (list Video)) (cat : string) : list Video :=
  default [] (m !! cat).

End Categorize.

(** * Sample data *)
Module Samples.
Import JS CacheStore.

(** A playlist entry that expired at time 1000. *)
Definition stale_doc : Doc :=
  {| key := "playlist_ABC"; collection := Some "playlists";
     expiresAt := Some 1000; updatedAt := Some 0; cacheVersion := Some "1.0";
     videos := Some (JArr [JStr "v1"; JStr "v2"]); channelId := None;
     uploadsPlaylistId := None; categories := None |}.

Definition stale_db : Database := {[ "playlists" := [stale_doc] ]}.

(** Two writes under one key of the [videos] collection: a video list, then
    a classification. *)
Definition first_payload : JSON := JObj [("videos", JArr [JStr "v1"; JStr "v2"])].
Definition second_payload : JSON := JObj [("categories", JObj [("Music", JArr [JStr "v1"])])].

Definition after_first_put : Database :=
  snd (post_cache no_faults 0 0 (put_request "videos" "list_1" first_payload) ∅).

Definition after_second_put : Database :=
  snd (post_cache no_faults 10 10 (put_request "videos" "list_1" second_payload)
         after_first_put).


(** A list of 201 videos whose first and last entries carry the same title,
    and a classifier that answers each chunk with one category holding the
    titles of that chunk. *)
Definition early : Categorize.Video :=
  {| Categorize.id := "vid_a"; Categorize.title := "Live Q&A"; Categorize.playlistId := None |}.

Definition late : Categorize.Video :=
  {| Categorize.id := "vid_b"; Categorize.title := "Live Q&A"; Categorize.playlistId := None |}.

Definition episode (n : nat) : Categorize.Video :=
  {| Categorize.id := "ep_" ++ pretty.pretty n;
     Categorize.title := "Episode " ++ pretty.pretty n;
     Categorize.playlistId := None |}.

Definition videos201 : list Categorize.Video :=
  (early :: List.map episode (seq 1 199) ++ [late])%list.

Definition echo (label : string) : nat -> list Categorize.Video -> Categorize.ChunkReply :=
  fun _ batch =>
    Categorize.Parsed
      [{| Categorize.category := label;
          Categorize.titles := Some (List.map (fun v => Some (Categorize.title v)) batch) |}].

Definition echo_world : Categorize.World :=
  {| Categorize.geminiApiKey := Some "gemini-key";
     Categorize.gemini := echo "Everything";
     Categorize.cache_read := CacheClient.calm 0;
     Categorize.cache_write := fun _ => CacheClient.calm 0;
     Categorize.has_toast := true |}.

(** What the merge of the two chunks of [videos201] holds under the one
    category of [echo_world]. *)
Definition merged201 : list Categorize.Video :=
  (early :: List.map episode (seq 1 199) ++ [early])%list.

Definition count_id (i : string) (l : list Categorize.Video) : nat :=
  length (List.filter (fun v => String.eqb (Categorize.id v) i) l).

(** Five keys, all out of quota. *)
Definition quota_message : string :=
  "The request cannot be completed because you have exceeded your quota.".

Definition world5 : YouTube.World :=
  {| YouTube.env := KeyRotation.env5;
     YouTube.clock := fun n => Z.of_nat n * 1000;
     YouTube.channels_api := fun _ _ => YouTube.ApiError (Some quota_message);
     YouTube.playlistItems_api := fun _ _ _ => YouTube.ApiError (Some quota_message);
     YouTube.videos_api := fun _ _ => YouTube.ApiError (Some quota_message);
     YouTube.cache_read := CacheClient.calm 0;
     YouTube.cache_write := fun _ => CacheClient.calm 0 |}.

Definition browser5 : YouTube.Browser :=
  {| YouTube.server := KeyRotation.initializeKeyTracking KeyRotation.env5 0;
     YouTube.db := ∅;
     YouTube.currentApiKeys := KeyRotation.getYouTubeApiKeys KeyRotation.env5;
     YouTube.rotations := 0;
     YouTube.events := [] |}.

(** A server whose database refuses every [updateOne]. *)
Definition store_down : CacheClient.Attempt :=
  {| CacheClient.network_error := None;
     CacheClient.faults :=
       {| connection_fails := false; findOne_fails := false; deleteOne_fails := false;
          updateOne_fails := fun _ => Some "connection timed out" |};
     CacheClient.server_now := 0;
     CacheClient.server_now' := 0 |}.

(** One video, classified without trouble, while the store is down. *)
Definition one_video : list Categorize.Video :=
  [{| Categorize.id := "vid_a"; Categorize.title := "Live Q&A";
      Categorize.playlistId := Some "PL_ABC" |}].

Definition store_down_world : Categorize.World :=
  {| Categorize.geminiApiKey := Some "gemini-key";
     Categorize.gemini := echo "Streams";
     Categorize.cache_read := CacheClient.calm 0;
     Categorize.cache_write := fun _ => store_down;
     Categorize.has_toast := true |}.

(** A one-page playlist, loaded while the store is down. *)
Definition playlist_world : YouTube.World :=
  {| YouTube.env := KeyRotation.env5;
     YouTube.clock := fun n => Z.of_nat n * 1000;
     YouTube.channels_api := fun _ _ => YouTube.ApiOk None;
     YouTube.playlistItems_api :=
       fun _ _ _ => YouTube.ApiOk {| YouTube.items := [Some "vid_a"];
                                     YouTube.nextPageToken := None |};
     YouTube.videos_api := fun _ _ => YouTube.ApiOk (Some [JObj [("id", JStr "vid_a")]]);
     YouTube.cache_read := CacheClient.calm 0;
     YouTube.cache_write := fun _ => store_down |}.

End Samples.

(** * Cache housekeeping routes (api.js, lines 433-516) *)
Module CacheAdmin.
Import JS CacheStore.


(** The filter [{ expiresAt: { $gt: now } }]. *)
Definition unexpired (now : Z) (d : Doc) : bool :=
  match expiresAt d with
  | None => false
  | Some e => now <? e
  end.




Definition countDocuments (f : Doc -> bool) (c : list Doc) : Z :=
  Z.of_nat (length (List.filter f c)).

(** One element of [status] in [GET /cache/status]. *)
Record Counts : Type := mkCounts {
  total : Z;
  expired_count : Z;
  active : Z
}.

(** The three counts of one collection; [t1] is the clock when the expired
    documents are counted, [t2] when the active ones are. *)
Definition collection_status (t1 t2 : Z) (c : list Doc) : Counts :=
  {| total := countDocuments (fun _ => true) c;
     expired_count := countDocuments (expired t1) c;
     active := countDocuments (unexpired t2) c |}.

(** [Object.values(DB_CONFIG.collections)] *)
Definition collection_names : list string := ["channels"; "videos"; "categories"; "playlists"].

(** [status] of [router.get('/cache/status', ...)]; each collection is
    counted at clock readings of its own. *)
Definition cache_status (t1 t2 : string -> Z) (db : Database) : list (string * Counts) :=
  List.map (fun name => (name, collection_status (t1 name) (t2 name) (db_collection db name)))
    collection_names.

(** [results] of [router.delete('/cache/expired', ...)]: the [deletedCount]
    of each collection.  The four filters are built in one turn of the event
    loop, from the same reading of the clock. *)
Definition deleted_counts (now : Z) (db : Database) : list (string * Z) :=
  List.map (fun name => (name, countDocuments (expired now) (db_collection db name)))
    collection_names.

(** A document neither count of the status names: it has no [expiresAt], or
    one that lies between the two clock readings. *)
Definition uncounted (t1 t2 : Z) (d : Doc) : bool :=
  negb (expired t1 d) && negb (unexpired t2 d).

(** Three playlist entries and the clock at 1000: one expired, one that
    expires at this very moment, one without an expiry. *)
Definition edge_doc : Doc :=
  {| key := "playlist_EDGE"; collection := Some "playlists";
     expiresAt := Some 1000; updatedAt := Some 0; cacheVersion := Some "1.0";
     videos := Some (JArr [JStr "v3"]); channelId := None;
     uploadsPlaylistId := None; categories := None |}.

Definition old_doc : Doc :=
  {| key := "playlist_OLD"; collection := Some "playlists";
     expiresAt := Some 999; updatedAt := Some 0; cacheVersion := Some "1.0";
     videos := Some (JArr [JStr "v4"]); channelId := None;
     uploadsPlaylistId := None; categories := None |}.

Definition fresh_doc : Doc :=
  {| key := "playlist_NEW"; collection := Some "playlists";
     expiresAt := Some 5000; updatedAt := Some 0; cacheVersion := Some "1.0";
     videos := Some (JArr [JStr "v5"]); channelId := None;
     uploadsPlaylistId := None; categories := None |}.

Definition edge_db : Database := {[ "playlists" := [old_doc; edge_doc; fresh_doc] ]}.

End CacheAdmin.

(** * Attempts of the cache client, one by one *)
Module CacheAttempts.
Import JS CacheStore CacheClient.

(** The request [cacheData] sends. *)
Definition cache_request (k name : string) (data : JSON) : Request :=
  {| query_collection := None; query_key := None;
     body_collection := Some name; body_key := Some k;
     body_data := Some (JObj (validatedData data)) |}.

(** The answer attempt [j] gets from the server when the database is [db]. *)
Definition answer (world : nat -> Attempt) (req : Request) (db : Database) (j : nat)
  : Response * Database :=
  post_cache (faults (world j)) (server_now (world j)) (server_now' (world j)) req db.

(** Attempt [j] reaches the server and is answered with a 2xx status. *)
Definition goes_through (world : nat -> Attempt) (req : Request) (db : Database) (j : nat)
  : bool :=
  match network_error (world j) with
  | Some _ => false
  | None => ok (fst (answer world req db j))
  end.

End CacheAttempts.


(** * Further sample surroundings *)
Module MoreSamples.
Import JS CacheStore.

(** A classifier whose every answer fails to parse; the store works. *)
Definition garbled_world : Categorize.World :=
  {| Categorize.geminiApiKey := Some "gemini-key";
     Categorize.gemini := fun _ _ => Categorize.ParseError;
     Categorize.cache_read := CacheClient.calm 3600000;
     Categorize.cache_write := fun _ => CacheClient.calm 3600000;
     Categorize.has_toast := true |}.

End MoreSamples.

(** * The key routes of the server *)
Module KeyRoutes.
Import JS KeyRotation.

(** [[key, ...youtubeApiKeys.filter(k => k !== key)]]; [None] is the
    [undefined] an index outside the array gives, which no key equals. *)
Definition key_first (key : option string) (youtubeApiKeys : list string)
  : list (option string) :=
  key :: List.map Some
           (List.filter (fun k => match key with
                                  | Some c => negb (String.eqb k c)
                                  | None => true
                                  end) youtubeApiKeys).

(** The answer of [GET /config]. *)
Inductive ConfigReply : Type :=
| ConfigError (status : Z) (error : string)
| Config (youtubeApiKeys : list (option string)) (geminiApiKey : string) (keyRotated : bool).

(** [router.get('/config', ...)]; [gemini] is [process.env.GEMINI_API_KEY]. *)
Definition config (env : Env) (gemini : option string) (p : KeyPool) : ConfigReply :=
  let youtubeApiKeys := getYouTubeApiKeys env in
  if Nat.eqb (length youtubeApiKeys) 0 then ConfigError 500 "YouTube API keys not configured"
  else
    match gemini with
    | Some (String c rest) =>
        Config (key_first (youtubeApiKeys !! currentKeyIndex p) youtubeApiKeys)
          (String c rest) false
    | _ => ConfigError 500 "Gemini API key not configured"
    end.

(** The answer of [POST /rotate-key]. *)
Inductive RotateReply : Type :=
| RotateError (status : Z) (error details : string)
| Rotated (youtubeApiKeys : list (option string)) (currentKeyIndex availableKeys : nat).

(** [router.post('/rotate-key', ...)]: [None] while [rotateYoutubeKey] stays
    suspended. *)
Definition rotate_key (env : Env) (now : Z) (p : KeyPool) : KeyPool * option RotateReply :=
  match rotateYoutubeKey env now p with
  | (p', None) => (p', None)
  | (p', Some (Fulfilled newKey)) =>
      (p', Some (Rotated (key_first newKey (getYouTubeApiKeys env)) (currentKeyIndex p')
                   (length (getYouTubeApiKeys env))))
  | (p', Some (Rejected m)) => (p', Some (RotateError 500 "Failed to rotate key" m))
  end.

(** One element of [usage] in [GET /key-usage]. *)
Record Usage : Type := mkUsage {
  keyIndex : nat;
  usageCount_of : Z;
  lastReset : option Z
}.

(** [router.get('/key-usage', ...)]: the current index and one element for
    each entry of [usageCount]. *)
Definition key_usage (p : KeyPool) : nat * list Usage :=
  (currentKeyIndex p,
   List.map (fun e => {| keyIndex := fst e; usageCount_of := snd e;
                         lastReset := quotaResets p !! fst e |})
     (map_to_list (usageCount p))).

(** What every pool reached from [initializeKeyTracking] satisfies; [times]
    are the clock readings so far. *)
Record pool_ok (env : Env) (times : list Z) (p : KeyPool) : Prop := mkPoolOk {
  ok_unlocked : keyRotationLock p = false;
  ok_index : getYouTubeApiKeys env ≠ [] ->
             (currentKeyIndex p < length (getYouTubeApiKeys env))%nat;
  ok_usage : forall i,
    usageCount p !! i
    = if decide (i < length (getYouTubeApiKeys env))%nat then Some 0 else None;
  ok_resets : forall i, (i < length (getYouTubeApiKeys env))%nat ->
    exists r, quotaResets p !! i = Some r /\ In r times;
  ok_no_resets : forall i, (length (getYouTubeApiKeys env) <= i)%nat ->
    quotaResets p !! i = None
}.

End KeyRoutes.

(** * Runs of the loaders of the tab *)
Module YouTubeRuns.
Import JS KeyRotation CacheStore CacheClient YouTube.

(** The channels API refuses key [k] with a message that mentions the quota. *)
Definition quota_refusal (w : World) (channelId : string) (k : option string) : Prop :=
  exists m, channels_api w k channelId = ApiError (Some m) /\ mentions_quota (Some m) = true.

(** The key the tab holds after [j] rotations asked for from [b]: its own
    first key, then the keys of the server in the order of their indices. *)
Definition key_after (w : World) (b : Browser) (j : nat) : option string :=
  match j with
  | O => getCurrentApiKey b
  | S _ =>
      getYouTubeApiKeys (env w)
        !! ((currentKeyIndex (server b) + j) mod length (getYouTubeApiKeys (env w)))%nat
  end.

(** Five keys, the first two out of quota, the third working. *)
Definition third_key_world : World :=
  {| env := env5;
     clock := fun n => Z.of_nat n * 1000;
     channels_api :=
       fun k _ =>
         match k with
         | Some "k3" => ApiOk (Some ("UCX6OQ3DkcsbYNE6H8uQQuVA", Some "UUX6OQ3DkcsbYNE6H8uQQuVA"))
         | _ => ApiError (Some Samples.quota_message)
         end;
     playlistItems_api := fun _ _ _ => ApiError (Some Samples.quota_message);
     videos_api := fun _ _ => ApiError (Some Samples.quota_message);
     cache_read := calm 0;
     cache_write := fun _ => calm 0 |}.



(** A one-page playlist and a working store. *)
Definition stored_playlist_world : World :=
  {| env := env5;
     clock := fun n => Z.of_nat n * 1000;
     channels_api := fun _ _ => ApiOk None;
     playlistItems_api :=
       fun _ _ _ => ApiOk {| items := [Some "vid_a"]; nextPageToken := None |};
     videos_api := fun _ _ => ApiOk (Some [JObj [("id", JStr "vid_a")]]);
     cache_read := calm 0;
     cache_write := fun _ => calm 0 |}.

(** The APIs unreachable, the store working. *)
Definition offline_world : World :=
  {| env := env5;
     clock := fun n => Z.of_nat n * 1000;
     channels_api := fun _ _ => Unreachable "Failed to fetch";
     playlistItems_api := fun _ _ _ => Unreachable "Failed to fetch";
     videos_api := fun _ _ => Unreachable "Failed to fetch";
     cache_read := calm 3600000;
     cache_write := fun _ => calm 3600000 |}.

End YouTubeRuns.

(** * The channel page (api.js, lines 596-655) *)
Module ResolvePage.
Import ResolveHandle.

(** The double quote. *)
Definition dq : jsstring := [34%N].

(** [s] begins with [p]. *)
Fixpoint starts_with (p s : jsstring) : bool :=
  match p, s with
  | [], _ => true
  | a :: p', b :: s' => (a =? b)%N && starts_with p' s'
  | _ :: _, [] => false
  end.

(** [UC[a-zA-Z0-9_-]{22}], matched against the whole of [s]. *)
Definition is_channel_id (s : jsstring) : bool :=
  Nat.eqb (length s) 24 && starts_with (of_string "UC") s
  && forallb is_handle_char (drop 2 s).

(** A match of the pattern [prefix(UC[a-zA-Z0-9_-]{22})] followed by a
    double quote, at the very start of [s]: its group. *)
Definition channel_id_at (prefix s : jsstring) : option jsstring :=
  if starts_with prefix s then
    let rest := drop (length prefix) s in
    if is_channel_id (take 24 rest) && starts_with dq (drop 24 rest)
    then Some (take 24 rest)
    else None
  else None.

(** [data.match(...)] with that pattern: the group of the leftmost match. *)
Fixpoint first_match (prefix s : jsstring) : option jsstring :=
  match channel_id_at prefix s with
  | Some id => Some id
  | None =>
      match s with
      | [] => None
      | _ :: rest => first_match prefix rest
      end
  end.

(** The text before the group in each of the three patterns. *)
Definition canonical : jsstring :=
  (dq ++ of_string "canonicalChannelUrl" ++ dq ++ of_string ":" ++ dq
   ++ of_string "https://www.youtube.com/channel/")%list.

Definition browse : jsstring :=
  (dq ++ of_string "browseId" ++ dq ++ of_string ":" ++ dq)%list.

Definition external : jsstring :=
  (dq ++ of_string "externalId" ++ dq ++ of_string ":" ++ dq)%list.

(** [channelId] as the [end] handler computes it from the page. *)
Definition channelId_of (data : jsstring) : option jsstring :=
  match first_match canonical data with
  | Some id => Some id
  | None =>
      match first_match browse data with
      | Some id => Some id
      | None => first_match external data
      end
  end.

Inductive Answer : Type :=
| Found (channelId : jsstring)
| Failed (status : Z) (error : string).

(** The [end] handler. *)
Definition on_end (data : jsstring) : Answer :=
  match channelId_of data with
  | Some id => Found id
  | None => Failed 404 "Could not resolve handle"
  end.

(** A chunk of the response: the length of the buffer, and the text it adds
    to [data]. *)
Record Chunk : Type := mkChunk {
  bytes : nat;
  text : jsstring
}.

Definition MAX_RESPONSE_SIZE : Z := 5 * 1024 * 1024.

(** The [data] handler over the chunks still to come, then the [end]
    handler. *)
Fixpoint receive (chunks : list Chunk) (dataSize : Z) (data : jsstring) : Answer :=
  match chunks with
  | [] => on_end data
  | chunk :: rest =>
      let dataSize := dataSize + Z.of_nat (bytes chunk) in
      if MAX_RESPONSE_SIZE <? dataSize then Failed 413 "Response too large"
      else receive rest dataSize (data ++ text chunk)%list
  end.

(** The callback of [https.get] on a response that arrives whole, before
    the timer and without an error of the connection. *)
Definition on_response (statusCode : Z) (chunks : list Chunk) : Answer :=
  if statusCode =? 404 then Failed 404 "Channel not found"
  else if negb (statusCode =? 200) then
    Failed statusCode ("YouTube returned status " ++ pretty.pretty statusCode)
  else receive chunks 0 [].

(** The page as the chunks spell it. *)
Definition page_text (chunks : list Chunk) : jsstring := List.concat (List.map text chunks).

Definition page_bytes (chunks : list Chunk) : Z :=
  fold_right Z.add 0 (List.map (fun chunk => Z.of_nat (bytes chunk)) chunks).

(** A page in two chunks that names its channel twice: by [browseId] first
    and by the canonical URL after it. *)
Definition sample_page : list Chunk :=
  [ {| bytes := 40;
       text := (of_string "{" ++ browse ++ of_string "UCaaaaaaaaaaaaaaaaaaaaaa" ++ dq
                ++ of_string ",")%list |};
    {| bytes := 90;
       text := (canonical ++ of_string "UCX6OQ3DkcsbYNE6H8uQQuVA" ++ dq
                ++ of_string "}")%list |} ].

End ResolvePage.

(** * What the tab does with the address (app.js, lines 9-45) *)
Module LoadContent.
Import ResolveHandle ResolvePage.

(** The longest prefix of [s] whose code units all satisfy [f]: what a
    greedy [[...]+] takes. *)
Fixpoint take_while (f : N -> bool) (s : jsstring) : jsstring :=
  match s with
  | [] => []
  | c :: rest => if f c then c :: take_while f rest else []
  end.

(** The class [[^&]]. *)
Definition not_amp (c : N) : bool := negb (c =? 38)%N.

(** A match of [/list=([^&]+)/] at the very start of [s]: its group. *)
Definition playlist_at (s : jsstring) : option jsstring :=
  if starts_with (of_string "list=") s then
    match take_while not_amp (drop 5 s) with
    | [] => None
    | c :: g => Some (c :: g)
    end
  else None.

(** [url.match(/list=([^&]+)/)]: the group of the leftmost match. *)
Fixpoint playlistIdMatch (s : jsstring) : option jsstring :=
  match playlist_at s with
  | Some g => Some g
  | None =>
      match s with
      | [] => None
      | _ :: rest => playlistIdMatch rest
      end
  end.

(** [s] without its prefix [p], when it has it. *)
Definition strip (p : string) (s : jsstring) : option jsstring :=
  if starts_with (of_string p) s then Some (drop (String.length p) s) else None.

(** An optional part of a pattern: taken when it is there. *)
Definition strip_optional (p : string) (s : jsstring) : jsstring :=
  default s (strip p s).

(** [url.match(/^https?:\/\/(www\.)?youtube\.com\/@([\w-]+)/)]: its second
    group.  Neither optional part can be left untaken when it is there: what
    follows it in the pattern begins with another character. *)
Definition channelHandleMatch (url : jsstring) : option jsstring :=
  match strip "http" url with
  | None => None
  | Some s1 =>
      match strip "://" (strip_optional "s" s1) with
      | None => None
      | Some s2 =>
          match strip "youtube.com/@" (strip_optional "www." s2) with
          | None => None
          | Some s3 =>
              match take_while is_handle_char s3 with
              | [] => None
              | c :: g => Some (c :: g)
              end
          end
      end
  end.

(** A match of [/channel\/([A-Za-z0-9_-]{24})/] at the very start of [s]. *)
Definition channel_at (s : jsstring) : option jsstring :=
  if starts_with (of_string "channel/") s then
    let g := take 24 (drop 8 s) in
    if Nat.eqb (length g) 24 && forallb is_handle_char g then Some g else None
  else None.

Fixpoint channelIdMatch (s : jsstring) : option jsstring :=
  match channel_at s with
  | Some g => Some g
  | None =>
      match s with
      | [] => None
      | _ :: rest => channelIdMatch rest
      end
  end.

(** Where [loadContent] sends the address the user typed. *)
Inductive Route : Type :=
| NoAddress
| ToPlaylist (playlistId : jsstring)
| ToHandle (channelHandle : jsstring)
| ToChannel (channelId : jsstring)
| NotRecognized.

(** The [try] block of [loadContent] up to the call of a loader. *)
Definition loadContent (input : jsstring) : Route :=
  match trim input with
  | [] => NoAddress
  | url =>
      match playlistIdMatch url with
      | Some g => ToPlaylist g
      | None =>
          match channelHandleMatch url with
          | Some g => ToHandle g
          | None =>
              match channelIdMatch url with
              | Some g => ToChannel g
              | None => NotRecognized
              end
          end
      end
  end.

(** The first line of [getChannelIdByHandle]:
    [channelHandle.startsWith('@') ? channelHandle.substring(1) : channelHandle].
    The tab sends it to the server as
    [/api/resolve-handle?handle=encodeURIComponent(cleanHandle)]. *)
Definition tab_cleanHandle (channelHandle : jsstring) : jsstring :=
  match channelHandle with
  | c :: rest => if (c =? 64)%N then rest else channelHandle
  | [] => []
  end.

End LoadContent.

(** * Order of the video ids in a cache key *)
Module KeyOrder.

(** Every string of the list is at most each one after it, in the order of
    [ids.sort()]. *)
Fixpoint ascending (l : list string) : Prop :=
  match l with
  | [] => True
  | x :: rest => Forall (fun y => String.leb x y = true) rest /\ ascending rest
  end.

End KeyOrder.

(** * Finding a channel by its handle (youtube.js, lines 113-164) *)
Module HandleLookup.
Import JS KeyRotation CacheStore CacheClient YouTube.

(** The answer to [fetch('/api/resolve-handle?handle=...')]: the request or
    the reading of its body throws; the server answers with an error status
    and perhaps an [error] text; or it answers with a channel id. *)
Inductive ResolveReply : Type :=
| ResolveUnreachable (message : string)
| ResolveFailed (error : option string)
| Resolved (channelId : string).

(** What [setChannelInfo] is called with. *)
Inductive Shown : Type :=
| ChannelInfo (channelId uploadsPlaylistId : option JSON).

(** [channelHandle.startsWith('@') ? channelHandle.substring(1) : channelHandle] *)
Definition cleanHandle (channelHandle : string) : string :=
  match channelHandle with
  | String "@" rest => rest
  | _ => channelHandle
  end.

Definition cacheKey (channelHandle : string) : string :=
  "channel_handle_" ++ cleanHandle channelHandle ++ "_resolved".

(** What the function stores once the channel is set. *)
Definition resolved_data (channelId uploadsPlaylistId : string) : JSON :=
  JObj [("channelId", JStr channelId); ("uploadsPlaylistId", JStr uploadsPlaylistId)].

(** The [try] block of [getChannelIdByHandle]. *)
Definition handle_try (w : World) (resolve_api : string -> ResolveReply)
    (channelHandle : string) (b : Browser) : Browser * list Shown * Outcome unit :=
  match resolve_api (cleanHandle channelHandle) with
  | ResolveUnreachable m => (b, [], Rejected m)
  | ResolveFailed error =>
      (b, [],
       Rejected (message_or error
                   ("Failed to resolve handle '@" ++ cleanHandle channelHandle ++ "'.")))
  | Resolved channelId =>
      match channels_api w (getCurrentApiKey b) channelId with
      | Unreachable m => (b, [], Rejected m)
      | ApiError message =>
          if mentions_quota message then (b, [], Rejected "quota exceeded")
          else (b, [], Rejected "Could not retrieve channel details after resolving handle.")
      | ApiOk (Some (_, Some (String c rest))) =>
          let uploadsPlaylistId := String c rest in
          let shown := [ChannelInfo (Some (JStr channelId)) (Some (JStr uploadsPlaylistId))] in
          match cacheData (cache_write w) (cacheKey channelHandle)
                  (resolved_data channelId uploadsPlaylistId) "channels" (db b) with
          | (Fulfilled _, db', _) => (with_db db' b, shown, Fulfilled tt)
          | (Rejected m, db', _) => (with_db db' b, shown, Rejected m)
          end
      | ApiOk _ => (b, [], Rejected "Channel uploads playlist not found.")
      end
  end.

(** [getChannelIdByHandle(channelHandle)]; each call of the function uses
    one unit of [fuel].  The second component lists the calls of
    [setChannelInfo], in order. *)
Fixpoint getChannelIdByHandle (fuel : nat) (w : World) (resolve_api : string -> ResolveReply)
    (channelHandle : string) (b : Browser) : Browser * list Shown * option (Outcome unit) :=
  match fuel with
  | O => (b, [], None)
  | S fuel' =>
      let '(cachedData, db') :=
        getCachedData (cache_read w) (cacheKey channelHandle) "channels" (db b) in
      let b := with_db db' b in
      match cachedData with
      | Some p =>
          (b, [ChannelInfo (p_channelId p) (p_uploadsPlaylistId p)], Some (Fulfilled tt))
      | None =>
          match handle_try w resolve_api channelHandle b with
          | (b1, shown, Fulfilled _) => (b1, shown, Some (Fulfilled tt))
          | (b1, shown, Rejected m) =>
              if includes "quota" m then
                match rotateApiKey w b1 with
                | (b2, Fulfilled _) =>
                    let '(b3, shown', r) :=
                      getChannelIdByHandle fuel' w resolve_api channelHandle b2 in
                    (b3, (shown ++ shown')%list, r)
                | (b2, Rejected m') => (b2, shown, Some (Rejected m'))
                end
              else (b1, shown, Some (Rejected m))
          end
      end
  end.

(** A server that resolves every handle to one channel. *)
Definition resolver : string -> ResolveReply :=
  fun _ => Resolved "UCX6OQ3DkcsbYNE6H8uQQuVA".

(** The details of the channel are served, the store is down. *)
Definition details_world : World :=
  {| env := env5;
     clock := fun n => Z.of_nat n * 1000;
     channels_api :=
       fun _ _ => ApiOk (Some ("UCX6OQ3DkcsbYNE6H8uQQuVA", Some "UUX6OQ3DkcsbYNE6H8uQQuVA"));
     playlistItems_api := fun _ _ _ => Unreachable "Failed to fetch";
     videos_api := fun _ _ => Unreachable "Failed to fetch";
     cache_read := calm 0;
     cache_write := fun _ => Samples.store_down |}.

(** The same with a working store. *)
Definition details_stored_world : World :=
  {| env := env5;
     clock := fun n => Z.of_nat n * 1000;
     channels_api :=
       fun _ _ => ApiOk (Some ("UCX6OQ3DkcsbYNE6H8uQQuVA", Some "UUX6OQ3DkcsbYNE6H8uQQuVA"));
     playlistItems_api := fun _ _ _ => Unreachable "Failed to fetch";
     videos_api := fun _ _ => Unreachable "Failed to fetch";
     cache_read := calm 0;
     cache_write := fun _ => calm 0 |}.

(** A server that resolves nothing. *)
Definition no_resolver : string -> ResolveReply :=
  fun _ => ResolveUnreachable "Failed to fetch".

(** The empty database after a read has missed, and after the channel of
    the sample handle has been stored. *)
Definition after_miss : Database :=
  snd (getCachedData (calm 0) "channel_handle_MrBeast_resolved" "channels" ∅).

Definition after_store : Database :=
  snd (fst (cacheData (fun _ => calm 0) "channel_handle_MrBeast_resolved"
              (resolved_data "UCX6OQ3DkcsbYNE6H8uQQuVA" "UUX6OQ3DkcsbYNE6H8uQQuVA")
              "channels" after_miss)).

End HandleLookup.

(** * The two views of a channel (youtube.js, lines 262-295; utils.js, lines 1-17) *)
Module ChannelViews.
Import JS KeyRotation YouTube.

(** [isStreamVideo(videoItem)] *)
Definition isStreamVideo (videoItem : JSON) : bool :=
  if truthy videoItem then
    let fallback :=
      match prop "snippet" videoItem with
      | Some snippet =>
          match prop "liveBroadcastContent" snippet with
          | Some (JStr l) =>
              negb (String.eqb l "") && (String.eqb l "live" || String.eqb l "upcoming")
          | _ => false
          end
      | None => false
      end in
    match prop "liveStreamingDetails" videoItem with
    | Some details =>
        if truthy details then
          truthy_opt (prop "actualStartTime" details)
          || truthy_opt (prop "scheduledStartTime" details)
        else fallback
    | None => fallback
    end
  else false.

(** The filter of [loadChannelData]:
    [type === 'streams' ? isVideoStream : !isVideoStream]. *)
Definition wanted (type : string) (videoItem : JSON) : bool :=
  if String.eqb type "streams" then isStreamVideo videoItem
  else negb (isStreamVideo videoItem).

(** The page loop of [loadChannelData] over the uploads playlist;
    [statusText] is the status text of a refused request, and each page uses
    one unit of [fuel]. *)
Fixpoint fetch_channel_pages (fuel : nat) (w : World) (statusText : string)
    (k : option string) (uploadsPlaylistId pageToken type : string)
    (allVideos : list JSON) : Pages :=
  match fuel with
  | O => Unfinished
  | S fuel' =>
      match playlistItems_api w k uploadsPlaylistId pageToken with
      | Unreachable m => Threw m
      | ApiError message =>
          if mentions_quota message then Threw "quota exceeded"
          else Threw (message_or message statusText)
      | ApiOk page =>
          match items page with
          | [] => Collected allVideos
          | _ =>
              let videoIds := join_ids (items page) in
              let fetched :=
                if String.eqb videoIds "" then inr allVideos
                else
                  match videos_api w k videoIds with
                  | Unreachable m => inl m
                  | ApiError message =>
                      if mentions_quota message then inl "quota exceeded" else inr allVideos
                  | ApiOk (Some detailsItems) =>
                      inr (allVideos ++ List.filter (wanted type) detailsItems)%list
                  | ApiOk None => inr allVideos
                  end in
              match fetched with
              | inl m => Threw m
              | inr allVideos' =>
                  match nextPageToken page with
                  | Some token =>
                      if String.eqb token "" then Collected allVideos'
                      else fetch_channel_pages fuel' w statusText k uploadsPlaylistId token
                             type allVideos'
                  | None => Collected allVideos'
                  end
              end
          end
      end
  end.

(** Two uploads, one of them a finished live stream, on one page. *)
Definition upload : JSON := JObj [("id", JStr "vid_a")].

Definition stream : JSON :=
  JObj [("id", JStr "vid_b");
        ("liveStreamingDetails", JObj [("actualStartTime", JStr "2024-05-01T18:00:00Z")])].

Definition uploads_world : World :=
  {| env := env5;
     clock := fun n => Z.of_nat n * 1000;
     channels_api := fun _ _ => ApiOk None;
     playlistItems_api :=
       fun _ _ _ => ApiOk {| items := [Some "vid_a"; Some "vid_b"]; nextPageToken := None |};
     videos_api := fun _ _ => ApiOk (Some [upload; stream]);
     cache_read := CacheClient.calm 0;
     cache_write := fun _ => CacheClient.calm 0 |}.

End ChannelViews.

(** * Properties of key rotation *)
Module KeyRotationFacts.
Import KeyRotation.

Lemma rotate_locked_index env now p :
  getYouTubeApiKeys env ≠ [] ->
  currentKeyIndex (fst (rotate_locked env now p))
  = ((currentKeyIndex p + 1) mod length (getYouTubeApiKeys env))%nat.
Proof.
  intros Hne. unfold rotate_locked.
  destruct (getYouTubeApiKeys env) as [|k ks] eqn:E; [congruence|].
  reflexivity.
Qed.

Lemma rotate_locked_result env now p :
  getYouTubeApiKeys env ≠ [] ->
  snd (rotate_locked env now p)
  = key_at env ((currentKeyIndex p + 1) mod length (getYouTubeApiKeys env))%nat.
Proof.
  intros Hne. unfold rotate_locked, key_at.
  destruct (getYouTubeApiKeys env) as [|k ks] eqn:E; [congruence|].
  reflexivity.
Qed.

Lemma rotate_locked_unlocks env now p :
  keyRotationLock (fst (rotate_locked env now p)) = false.
Proof.
  unfold rotate_locked.
  destruct (Nat.eqb _ 0); reflexivity.
Qed.

Lemma rotate_locked_empty env now p :
  getYouTubeApiKeys env = [] ->
  snd (rotate_locked env now p) = Rejected "No YouTube API keys available"
  /\ currentKeyIndex (fst (rotate_locked env now p)) = currentKeyIndex p.
Proof.
  intros E. unfold rotate_locked. rewrite E. split; reflexivity.
Qed.

Lemma rotateYoutubeKey_unlocked env now p :
  keyRotationLock p = false ->
  rotateYoutubeKey env now p
  = (fst (rotate_locked env now p), Some (snd (rotate_locked env now p))).
Proof.
  intros Hl. unfold rotateYoutubeKey. rewrite Hl.
  destruct (rotate_locked env now p). reflexivity.
Qed.

Lemma rotate_many_index env nows : forall p,
  keyRotationLock p = false ->
  (currentKeyIndex p < length (getYouTubeApiKeys env))%nat ->
  currentKeyIndex (rotate_many env nows p)
  = ((currentKeyIndex p + length nows) mod length (getYouTubeApiKeys env))%nat.
Proof.
  induction nows as [|now rest IH]; intros p Hl Hlt; simpl.
  - rewrite Nat.add_0_r. symmetry. apply Nat.mod_small. exact Hlt.
  - assert (Hne : getYouTubeApiKeys env ≠ []).
    { intros E. rewrite E in Hlt. simpl in Hlt. lia. }
    rewrite (rotateYoutubeKey_unlocked env now p Hl). cbn [fst]. rewrite IH.
    + rewrite rotate_locked_index by exact Hne.
      rewrite Nat.Div0.add_mod_idemp_l. f_equal. lia.
    + apply rotate_locked_unlocks.
    + rewrite rotate_locked_index by exact Hne.
      apply Nat.mod_upper_bound. lia.
Qed.

(** C9. Each rotation of a non-empty pool moves [currentKeyIndex] to the next
    index modulo the number of keys and hands out the key there; as many
    rotations as there are keys bring the index back to where it was; on an
    empty pool the rotation is rejected with the no-keys error and the index
    stays. *)
Theorem rotate_advances_and_wraps (env : Env) (p : KeyPool) (now : Z) (nows : list Z) :
  keyRotationLock p = false ->
  (getYouTubeApiKeys env ≠ [] ->
     currentKeyIndex (fst (rotateYoutubeKey env now p))
       = ((currentKeyIndex p + 1) mod length (getYouTubeApiKeys env))%nat
     /\ snd (rotateYoutubeKey env now p)
       = Some (key_at env ((currentKeyIndex p + 1) mod length (getYouTubeApiKeys env))%nat))
  /\ ((currentKeyIndex p < length (getYouTubeApiKeys env))%nat ->
      length nows = length (getYouTubeApiKeys env) ->
      currentKeyIndex (rotate_many env nows p) = currentKeyIndex p)
  /\ (getYouTubeApiKeys env = [] ->
      snd (rotateYoutubeKey env now p) = Some (Rejected "No YouTube API keys available")
      /\ currentKeyIndex (fst (rotateYoutubeKey env now p)) = currentKeyIndex p).
Proof.
  intros Hl. rewrite (rotateYoutubeKey_unlocked env now p Hl). cbn [fst snd].
  split; [|split].
  - intros Hne. split.
    + apply rotate_locked_index, Hne.
    + f_equal. apply rotate_locked_result, Hne.
  - intros Hlt Hlen. rewrite rotate_many_index by assumption.
    rewrite Hlen.
    rewrite <- (Nat.mul_1_l (length (getYouTubeApiKeys env))) at 1.
    rewrite Nat.Div0.mod_add. apply Nat.mod_small, Hlt.
  - intros E. destruct (rotate_locked_empty env now p E) as [-> ->]. auto.
Qed.

Lemma rotate_advances_and_wraps_witness :
  (currentKeyIndex (fst (rotateYoutubeKey env5 90000000 (initializeKeyTracking env5 0))) = 1%nat
   /\ snd (rotateYoutubeKey env5 90000000 (initializeKeyTracking env5 0))
      = Some (Fulfilled (Some "k2")))
  /\ currentKeyIndex (rotate_many env5 [1; 2; 3; 4; 5] (initializeKeyTracking env5 0)) = 0%nat
  /\ snd (rotateYoutubeKey env0 1 (initializeKeyTracking env0 0))
     = Some (Rejected "No YouTube API keys available").
Proof.
  pose proof (rotate_advances_and_wraps env5 (initializeKeyTracking env5 0) 90000000
                [1; 2; 3; 4; 5] eq_refl) as (H1 & H2 & _).
  pose proof (rotate_advances_and_wraps env0 (initializeKeyTracking env0 0) 1 [] eq_refl)
    as (_ & _ & H3).
  split; [|split].
  - apply H1. discriminate.
  - apply H2; [vm_compute; lia | reflexivity].
  - apply H3. reflexivity.
Defined.

Lemma settled_count_insert (cs : list Caller) j c r :
  cs !! j = Some c -> is_settled c = false ->
  settled_count (<[j := Settled r]> cs) = S (settled_count cs).
Proof.
  unfold settled_count. revert j.
  induction cs as [|x cs IH]; intros [|j] Hj Hc; simpl in *; try discriminate.
  - injection Hj as ->. rewrite Hc. reflexivity.
  - specialize (IH j Hj Hc). destruct (is_settled x); simpl; rewrite IH; reflexivity.
Qed.

Lemma loop_inv_start env k p :
  keyRotationLock p = false ->
  (currentKeyIndex p < length (getYouTubeApiKeys env))%nat ->
  loop_inv env (currentKeyIndex p) (concurrent_calls k p).
Proof.
  intros Hl Hlt. constructor; simpl.
  - exact Hl.
  - unfold settled_count. induction k; simpl; auto.
  - rewrite Nat.add_0_r. symmetry. apply Nat.mod_small, Hlt.
  - reflexivity.
  - induction k; simpl; constructor; [discriminate | assumption].
Qed.

Lemma loop_inv_turn env i0 turn l :
  getYouTubeApiKeys env ≠ [] ->
  loop_inv env i0 l -> loop_inv env i0 (loop_turn env turn l).
Proof.
  intros Hne [Hl Hc Hi Hlog Hp]. destruct turn as [j now]. unfold loop_turn.
  destruct (callers l !! j) as [c|] eqn:Ej; [|constructor; assumption].
  pose proof (rotateYoutubeKey_unlocked env now (pool l) Hl) as Hturn.
  assert (Hstep : forall c0, c = c0 -> is_settled c0 = false ->
    loop_inv env i0
      {| pool := fst (rotate_locked env now (pool l));
         callers := <[j := Settled (snd (rotate_locked env now (pool l)))]> (callers l);
         log := log l ++ [snd (rotate_locked env now (pool l))] |}).
  { intros c0 -> Hc0. constructor; simpl.
    - apply rotate_locked_unlocks.
    - rewrite length_app, (settled_count_insert _ _ _ _ Ej Hc0), Hc. simpl. lia.
    - rewrite rotate_locked_index by exact Hne. rewrite Hi, length_app. simpl.
      rewrite Nat.Div0.add_mod_idemp_l. f_equal. lia.
    - rewrite length_app. simpl. rewrite Nat.add_1_r, seq_S, map_app. simpl.
      rewrite <- Hlog. f_equal. rewrite rotate_locked_result by exact Hne.
      rewrite Hi, Nat.Div0.add_mod_idemp_l. do 3 f_equal. lia.
    - apply Forall_insert; [exact Hp | discriminate]. }
  destruct c as [| |r]; [| |constructor; assumption]; rewrite Hturn.
  - apply (Hstep Entering); reflexivity.
  - apply (Hstep Polling); reflexivity.
Qed.

Lemma loop_inv_run env i0 sched : forall l,
  getYouTubeApiKeys env ≠ [] ->
  loop_inv env i0 l -> loop_inv env i0 (run_schedule env sched l).
Proof.
  unfold run_schedule.
  induction sched as [|turn rest IH]; intros l Hne Hinv; simpl; [exact Hinv|].
  apply IH; [exact Hne|]. apply loop_inv_turn; assumption.
Qed.

(** C3, as the code has it. Whatever order the event loop runs the callers
    in, no caller ever waits for the lock, every call that settles has made
    its own advance, so the index has moved by the number of settled calls
    modulo the number of keys, and the callers receive the keys at the
    consecutive indices, one each, in the order in which they settle. *)
Theorem concurrent_rotations_each_advance (env : Env) (k : nat) (p : KeyPool)
    (sched : list (nat * Z)) :
  keyRotationLock p = false ->
  (currentKeyIndex p < length (getYouTubeApiKeys env))%nat ->
  let l := run_schedule env sched (concurrent_calls k p) in
  let n := length (getYouTubeApiKeys env) in
  keyRotationLock (pool l) = false
  /\ Forall (fun c => c ≠ Polling) (callers l)
  /\ length (log l) = settled_count (callers l)
  /\ currentKeyIndex (pool l) = ((currentKeyIndex p + settled_count (callers l)) mod n)%nat
  /\ log l = List.map (fun m => key_at env ((currentKeyIndex p + m) mod n)%nat)
               (seq 1 (settled_count (callers l))).
Proof.
  intros Hl Hlt l n.
  assert (Hne : getYouTubeApiKeys env ≠ []).
  { intros E. rewrite E in Hlt. simpl in Hlt. lia. }
  destruct (loop_inv_run env (currentKeyIndex p) sched (concurrent_calls k p) Hne
              (loop_inv_start env k p Hl Hlt)) as [H1 H2 H3 H4 H5].
  fold l in H1, H2, H3, H4, H5. fold n in H3, H4.
  rewrite <- H2. auto.
Qed.

Lemma concurrent_rotations_each_advance_witness :
  let l := run_schedule env3 [(1%nat, 5); (0%nat, 6); (1%nat, 7)]
             (concurrent_calls 2 (initializeKeyTracking env3 0)) in
  keyRotationLock (pool l) = false
  /\ Forall (fun c => c ≠ Polling) (callers l)
  /\ length (log l) = 2%nat
  /\ currentKeyIndex (pool l) = 2%nat
  /\ log l = [Fulfilled (Some "k2"); Fulfilled (Some "k3")].
Proof.
  apply (concurrent_rotations_each_advance env3 2 (initializeKeyTracking env3 0)
           [(1%nat, 5); (0%nat, 6); (1%nat, 7)]).
  - reflexivity.
  - vm_compute. lia.
Defined.

(** C3, as stated, fails. Two callers invoke the rotation of a three-key pool
    in the same tick: the index moves by two, and the callers receive two
    different keys. *)
Lemma concurrent_rotations_do_not_collapse :
  let l := run_schedule env3 [(0%nat, 1000); (1%nat, 1000)]
             (concurrent_calls 2 (initializeKeyTracking env3 0)) in
  callers l = [Settled (Fulfilled (Some "k2")); Settled (Fulfilled (Some "k3"))]
  /\ currentKeyIndex (initializeKeyTracking env3 0) = 0%nat
  /\ currentKeyIndex (pool l) = 2%nat
  /\ ~ (currentKeyIndex (pool l) = 1%nat
        /\ exists r, Forall (fun c => c = Settled r) (callers l)).
Proof.
  vm_compute. repeat split.
  intros [H _]. discriminate.
Qed.

End KeyRotationFacts.

(** * Properties of the handle resolver *)
Module ResolveHandleFacts.
Import ResolveHandle.

Lemma handle_char_not_at c : is_handle_char c = true -> (c =? 64)%N = false.
Proof.
  unfold is_handle_char. intros H.
  destruct (N.eqb_spec c 64) as [->|]; [vm_compute in H; discriminate | reflexivity].
Qed.









End ResolveHandleFacts.

(** * Properties of the cache store *)
Module CacheStoreFacts.
Import JS CacheStore.

Lemma DB_collections_valid name c :
  DB_collections name = Some c -> c = name /\ name <> "".
Proof.
  unfold DB_collections. intros H.
  repeat match type of H with
         | context [String.eqb name ?s] =>
             destruct (String.eqb_spec name s) as [->|]; [injection H as <-; split; [reflexivity|discriminate]|]
         end.
  discriminate.
Qed.

Lemma middleware_valid name c :
  DB_collections name = Some c -> middleware no_faults (Some name) = inr c.
Proof.
  intros H. destruct (DB_collections_valid _ _ H) as [_ Hne].
  unfold middleware. simpl.
  destruct (String.eqb_spec name ""); [contradiction|]. simpl. rewrite H. reflexivity.
Qed.


Lemma findOne_all_expired k now c :
  all_expired k now c -> findOne (matches_live k now) c = None.
Proof.
  unfold findOne. induction c as [|d c IH]; intros H; simpl; [reflexivity|].
  rewrite IH by (intros x Hx; apply H; right; exact Hx).
  unfold matches_live, live.
  destruct (String.eqb_spec (key d) k) as [E|]; [|reflexivity]. simpl.
  destruct (H d (or_introl eq_refl) E) as (e & -> & He).
  destruct (Z.ltb_spec now e); [lia|reflexivity].
Qed.




Lemma In_deleteOne f (c : list Doc) d : In d (deleteOne f c) -> In d c.
Proof.
  induction c as [|x c IH]; simpl; [tauto|].
  destruct (f x); simpl; [tauto|]. intros [->|H]; [tauto|]. right. apply IH, H.
Qed.

Lemma db_collection_insert (db : Database) c docs c' :
  db_collection (<[c := docs]> db) c' = if decide (c = c') then docs else db_collection db c'.
Proof.
  unfold db_collection. rewrite lookup_insert. destruct (decide (c = c')); reflexivity.
Qed.

Lemma db_collection_delete_expired t (db : Database) c :
  db_collection (delete_expired t db) c = deleteMany (expired t) (db_collection db c).
Proof.
  unfold db_collection, delete_expired. rewrite lookup_fmap.
  destruct (db !! c); reflexivity.
Qed.

Lemma all_expired_incl k now (c c' : list Doc) :
  (forall d, In d c' -> In d c) -> all_expired k now c -> all_expired k now c'.
Proof. intros Hi H d Hd. apply H, Hi, Hd. Qed.


Lemma middleware_error f x r : middleware f x = inl r -> status r <> 200.
Proof.
  unfold middleware. destruct (connection_fails f); [intros [= <-]; discriminate|].
  destruct x as [name|]; [|intros [= <-]; discriminate].
  destruct (negb _); [destruct (DB_collections name)|]; intros [= <-]; discriminate.
Qed.



Lemma keys_after_upsert k cacheDoc (c : list Doc) :
  key cacheDoc = k ->
  List.map key (fst (updateOne_upsert k cacheDoc c))
  = if existsb (fun d => String.eqb (key d) k) c then List.map key c
    else (List.map key c ++ [k])%list.
Proof.
  intros Hk. induction c as [|d c IH]; simpl; [rewrite Hk; reflexivity|].
  destruct (String.eqb_spec (key d) k) as [E|Hne]; simpl; [rewrite Hk, E; reflexivity|].
  destruct (updateOne_upsert k cacheDoc c) as [rest upserted]. simpl in *. rewrite IH.
  destruct (existsb _ c); reflexivity.
Qed.

(** The upsert of a write keeps the keys of a collection distinct. *)
Lemma upsert_keeps_keys_unique k cacheDoc (c : list Doc) :
  key cacheDoc = k -> unique_keys c -> unique_keys (fst (updateOne_upsert k cacheDoc c)).
Proof.
  unfold unique_keys. intros Hk Hu. rewrite (keys_after_upsert _ _ _ Hk).
  destruct (existsb _ c) eqn:E; [exact Hu|].
  apply NoDup_app. split; [exact Hu|]. split; [|apply NoDup_singleton].
  intros x Hx Hx'. apply list_elem_of_In in Hx. apply list_elem_of_In in Hx'.
  destruct Hx' as [<-|[]]. apply in_map_iff in Hx as (d & Hd & Hin).
  assert (existsb (fun d => String.eqb (key d) k) c = true); [|congruence].
  apply existsb_exists. exists d. split; [exact Hin|]. apply String.eqb_eq, Hd.
Qed.

(** With distinct keys, an entry whose expiry has passed is all there is
    under its key. *)
Lemma expired_entry_all_expired (c : list Doc) d e now :
  unique_keys c -> In d c -> expiresAt d = Some e -> e <= now ->
  all_expired (key d) now c.
Proof.
  unfold unique_keys. intros Hu Hd He Hle d' Hd' Hk.
  assert (d' = d); [|subst; eauto].
  clear He Hle. induction c as [|x c IH]; [contradiction|].
  simpl in Hu. apply NoDup_cons in Hu as [Hx Hu].
  assert (Hin : forall y, In y c -> key y ∈ List.map key c).
  { intros y Hy. apply list_elem_of_In, in_map, Hy. }
  destruct Hd as [->|Hd], Hd' as [->|Hd']; auto.
  - exfalso. apply Hx. rewrite <- Hk. apply Hin, Hd'.
  - exfalso. apply Hx. rewrite Hk. apply Hin, Hd.
Qed.




Lemma keep_truthy_or_else x y :
  keep_truthy (or_else (keep_truthy x) y) = or_else (keep_truthy x) (keep_truthy y).
Proof.
  unfold keep_truthy. destruct x as [v|]; simpl; [|reflexivity].
  destruct (truthy v) eqn:E; simpl; [rewrite E|]; reflexivity.
Qed.

Lemma findOne_after_upsert k t cacheDoc (c : list Doc) e :
  key cacheDoc = k -> expiresAt cacheDoc = Some e -> t < e ->
  findOne (matches_live k t) (fst (updateOne_upsert k cacheDoc c))
  = Some (match stored_under k c with
          | Some old => apply_set cacheDoc old
          | None => cacheDoc
          end).
Proof.
  intros Hk He Ht.
  assert (Hlive : forall d, matches_live k t (apply_set cacheDoc d) = true).
  { intros d. unfold matches_live, live. simpl. rewrite Hk, He, String.eqb_refl. simpl.
    apply Z.ltb_lt, Ht. }
  assert (Hnew : matches_live k t cacheDoc = true).
  { unfold matches_live, live. rewrite Hk, He, String.eqb_refl. simpl. apply Z.ltb_lt, Ht. }
  unfold findOne, stored_under. induction c as [|d c IH]; simpl.
  - rewrite Hnew. reflexivity.
  - destruct (String.eqb (key d) k) eqn:Ed; simpl.
    + rewrite Hlive. reflexivity.
    + destruct (updateOne_upsert k cacheDoc c) as [rest n]. simpl in *.
      unfold matches_live at 1. rewrite Ed. simpl. exact IH.
Qed.

Lemma dataToReturn_stored k name data e u old :
  dataToReturn (match old with
                | Some d => apply_set (cacheDoc_of k name data e u) d
                | None => cacheDoc_of k name data e u
                end) = merged_fields data old.
Proof.
  unfold dataToReturn, merged_fields.
  destruct old as [d|]; simpl; rewrite ?keep_truthy_or_else; [reflexivity|].
  f_equal; unfold keep_truthy;
    match goal with |- context [prop ?f data] => destruct (prop f data) as [v|]; simpl; [|reflexivity];
      destruct (truthy v) eqn:E; simpl; rewrite ?E; reflexivity end.
Qed.

(** A write that answers 200 has upserted the cache document of the request
    into the collection the request names. *)
Lemma post_cache_success f db name k data now now' :
  status (fst (post_cache f now now' (put_request name k data) db)) = 200 ->
  DB_collections name = Some name /\ k <> ""
  /\ snd (post_cache f now now' (put_request name k data) db)
     = <[name := fst (updateOne_upsert k (cacheDoc_of k name data (expiry_of name now) now')
                        (db_collection db name))]> db.
Proof.
  unfold post_cache, cacheMiddleware.
  set (stored := store_with_retries maxAttempts 0 (updateOne_fails f)). simpl.
  destruct (middleware f (Some name)) as [r|c] eqn:Em.
  { simpl. intros H. apply middleware_error in Em. contradiction. }
  assert (Hc : DB_collections name = Some c).
  { unfold middleware in Em. destruct (connection_fails f); [discriminate|].
    destruct (negb _); [|discriminate]. destruct (DB_collections name); [|discriminate].
    congruence. }
  destruct (DB_collections_valid _ _ Hc) as [-> Hne].
  destruct (String.eqb_spec k "") as [->|Hk]; simpl; [discriminate|].
  destruct (truthy data); simpl; [|discriminate].
  destruct (String.eqb name ""); simpl; [discriminate|].
  destruct (MAX_DATA_SIZE <? dataSize data); simpl; [discriminate|].
  destruct stored; simpl; [discriminate|].
  unfold expiry_of.
  destruct (updateOne_upsert _ _ _) as [docs n]. simpl. intros _. auto.
Qed.

(** C7, as the code has it. After a write that answered 200, a read of the
    same collection and key before the expiry answers 200 with, for each of
    the four recognized fields, the value just written when that value is
    truthy, and otherwise the truthy value the entry held under that key
    before the write. With nothing stored under the key before and every
    recognized field of the payload truthy, that is the payload's recognized
    fields exactly. *)
Theorem put_then_get_returns_merged_fields (f : Faults) (db : Database)
    (name k : string) (data : JSON) (now now' t : Z) :
  status (fst (post_cache f now now' (put_request name k data) db)) = 200 ->
  t < expiry_of name now ->
  let db1 := snd (post_cache f now now' (put_request name k data) db) in
  let old := stored_under k (db_collection db name) in
  fst (post_cache_get no_faults t (post_get_request name k) db1)
    = {| status := 200; body := DataPayload (merged_fields data old) |}
  /\ (old = None ->
      merged_fields data None = recognized_fields data ->
      fst (post_cache_get no_faults t (post_get_request name k) db1)
        = {| status := 200; body := DataPayload (recognized_fields data) |}).
Proof.
  intros Hput Ht db1 old.
  assert (Hget : fst (post_cache_get no_faults t (post_get_request name k) db1)
                 = {| status := 200; body := DataPayload (merged_fields data old) |}).
  { destruct (post_cache_success _ _ _ _ _ _ _ Hput) as (Hc & Hk & Hdb).
    destruct (DB_collections_valid _ _ Hc) as [_ Hne].
    subst db1 old. rewrite Hdb.
    unfold post_cache_get, getCacheMiddleware, str_or. simpl.
    rewrite (middleware_valid _ _ Hc).
    destruct (String.eqb_spec k ""); [contradiction|]. simpl.
    unfold lookup_live. simpl.
    rewrite db_collection_insert. destruct (decide (name = name)); [|contradiction].
    rewrite (findOne_after_upsert k t _ _ (expiry_of name now)); [|reflexivity|reflexivity|exact Ht].
    simpl. rewrite dataToReturn_stored. reflexivity. }
  split; [exact Hget|].
  intros Hold Hall. rewrite Hget, Hold, Hall. reflexivity.
Qed.

Lemma put_then_get_returns_merged_fields_witness :
  fst (post_cache_get no_faults 3600000 (post_get_request "videos" "list_1")
         Samples.after_first_put)
  = {| status := 200;
       body := DataPayload {| p_videos := Some (JArr [JStr "v1"; JStr "v2"]);
                              p_channelId := None; p_uploadsPlaylistId := None;
                              p_categories := None |} |}.
Proof.
  refine (proj1 (put_then_get_returns_merged_fields no_faults ∅ "videos" "list_1"
                   Samples.first_payload 0 0 3600000 _ _)).
  - reflexivity.
  - reflexivity.
Defined.

(** C7, as stated, fails. A video list is written under a key, then a
    classification under the same key; the read that follows the second
    write returns the video list of the first write together with the
    classification, not the payload just written. *)
Lemma put_then_get_keeps_older_fields :
  status (fst (post_cache no_faults 10 10
                 (put_request "videos" "list_1" Samples.second_payload)
                 Samples.after_first_put)) = 200
  /\ fst (post_cache_get no_faults 20 (post_get_request "videos" "list_1")
            Samples.after_second_put)
     = {| status := 200;
          body := DataPayload
                    {| p_videos := Some (JArr [JStr "v1"; JStr "v2"]);
                       p_channelId := None; p_uploadsPlaylistId := None;
                       p_categories := Some (JObj [("Music", JArr [JStr "v1"])]) |} |}
  /\ recognized_fields Samples.second_payload
     = {| p_videos := None; p_channelId := None; p_uploadsPlaylistId := None;
          p_categories := Some (JObj [("Music", JArr [JStr "v1"])]) |}
  /\ fst (post_cache_get no_faults 20 (post_get_request "videos" "list_1")
            Samples.after_second_put)
     <> {| status := 200; body := DataPayload (recognized_fields Samples.second_payload) |}.
Proof.
  split; [reflexivity|]. split; [reflexivity|]. split; [reflexivity|].
  vm_compute. discriminate.
Qed.

End CacheStoreFacts.

(** * Properties of the cache client *)
Module CacheClientFacts.
Import JS CacheStore CacheClient CacheStoreFacts.




Lemma status_not_ok (r : Response) :
  status r = 400 \/ status r = 413 \/ status r = 500 -> ok r = false.
Proof. unfold ok. intros [H|[H|H]]; rewrite H; reflexivity. Qed.

Lemma middleware_status f x r :
  middleware f x = inl r -> status r = 400 \/ status r = 413 \/ status r = 500.
Proof.
  unfold middleware. destruct (connection_fails f); [intros [= <-]; auto|].
  destruct x as [name|]; [|intros [= <-]; auto].
  destruct (negb _); [destruct (DB_collections name)|]; intros [= <-]; auto.
Qed.

(** A write either answers 200 or leaves the database as it was, with an
    answer of 400, 413 or 500. *)
Lemma post_cache_rejection f now now' req db :
  status (fst (post_cache f now now' req db)) = 200
  \/ snd (post_cache f now now' req db) = db
     /\ ok (fst (post_cache f now now' req db)) = false.
Proof.
  unfold post_cache.
  set (stored := store_with_retries maxAttempts 0 (updateOne_fails f)).
  destruct (cacheMiddleware f req) as [r|c] eqn:Em.
  { right. split; [reflexivity|]. apply status_not_ok. simpl.
    exact (middleware_status _ _ _ Em). }
  destruct (body_data req) as [data|]; [|right; split; reflexivity].
  destruct (_ && _ && _); [|right; split; reflexivity].
  destruct (MAX_DATA_SIZE <? dataSize data); [right; split; reflexivity|].
  destruct stored; [right; split; reflexivity|].
  destruct (updateOne_upsert _ _ _). left. reflexivity.
Qed.





(** The validation is the client's: sent to the route directly, a payload
    without a recognized field is stored, as an entry that has the
    bookkeeping fields only. *)
Lemma route_stores_payload_without_recognized_fields :
  validatedData (JObj [("title", JStr "x")]) = []
  /\ status (fst (post_cache no_faults 0 0
                    (put_request "videos" "list_1" (JObj [("title", JStr "x")])) ∅)) = 200
  /\ db_collection (snd (post_cache no_faults 0 0
                           (put_request "videos" "list_1" (JObj [("title", JStr "x")])) ∅))
       "videos"
     = [{| key := "list_1"; collection := Some "videos"; expiresAt := Some 43200000;
           updatedAt := Some 0; cacheVersion := Some "1.0"; videos := None;
           channelId := None; uploadsPlaylistId := None; categories := None |}].
Proof. split; [reflexivity|]. split; vm_compute; reflexivity. Qed.

End CacheClientFacts.

(** * Properties of the batch categorizer *)
Module CategorizeFacts.
Import JS CacheStore CacheClient Categorize.

Lemma find_by_title_first videos t v :
  find_by_title videos t = Some v ->
  In v videos /\ t = Some (title v) /\ find_by_title videos (Some (title v)) = Some v.
Proof.
  destruct t as [s|]; simpl; [|discriminate]. intros H.
  destruct (find_some _ _ H) as [Hin Ht]. apply String.eqb_eq in Ht. subst s. auto.
Qed.

Lemma In_omap_find videos ts v :
  In v (omap (find_by_title videos) ts) ->
  exists t, In t ts /\ find_by_title videos t = Some v.
Proof.
  intros H. apply list_elem_of_In, list_elem_of_omap in H as (t & Ht & Hf).
  exists t. split; [apply list_elem_of_In, Ht | exact Hf].
Qed.

Lemma In_chunk_entries videos cat parsed v :
  In v (chunk_entries videos cat parsed) ->
  In v videos /\ find_by_title videos (Some (title v)) = Some v
  /\ exists categoryObj ts,
       In categoryObj parsed /\ category categoryObj = cat
       /\ titles categoryObj = Some ts /\ In (Some (title v)) ts.
Proof.
  unfold chunk_entries. intros H. apply in_flat_map in H as (co & Hco & H).
  destruct (String.eqb_spec (category co) cat) as [E|]; simpl in H; [|contradiction].
  destruct (negb (String.eqb cat "") && negb (inherited cat)); [|contradiction].
  destruct (titles co) as [ts|] eqn:Et; [|contradiction].
  apply In_omap_find in H as (t & Ht & Hf).
  apply find_by_title_first in Hf as (Hin & -> & Hfirst).
  split; [exact Hin|]. split; [exact Hfirst|]. exists co, ts. auto.
Qed.

(** One element of the answer adds its resolved titles to its category. *)
Lemma add_category_entries videos m categoryObj m' cat :
  add_category videos m categoryObj = Fulfilled m' ->
  entries m' cat = (entries m cat ++ chunk_entries videos cat [categoryObj])%list.
Proof.
  unfold add_category, chunk_entries, entries. simpl. rewrite app_nil_r.
  destruct (String.eqb_spec (category categoryObj) "") as [E|Hne].
  { intros [= <-]. rewrite E.
    destruct (String.eqb_spec "" cat) as [<-|]; simpl; rewrite app_nil_r; reflexivity. }
  destruct (titles categoryObj) as [ts|].
  2:{ intros [= <-]. destruct (_ && _ && _); rewrite app_nil_r; reflexivity. }
  destruct (inherited (category categoryObj)) eqn:Ei.
  { destruct (omap _ ts) eqn:Ef; [|discriminate]. intros [= <-].
    destruct (String.eqb_spec (category categoryObj) cat) as [<-|]; simpl;
      [rewrite Ei, andb_false_r|]; rewrite app_nil_r; reflexivity. }
  intros [= <-].
  destruct (String.eqb_spec (category categoryObj) cat) as [<-|Hc]; simpl.
  - rewrite Ei. destruct (String.eqb_spec (category categoryObj) ""); [contradiction|].
    simpl. rewrite lookup_insert_eq. reflexivity.
  - rewrite lookup_insert_ne by exact Hc. rewrite app_nil_r. reflexivity.
Qed.

Lemma chunk_entries_cons videos cat categoryObj rest :
  chunk_entries videos cat (categoryObj :: rest)
  = (chunk_entries videos cat [categoryObj] ++ chunk_entries videos cat rest)%list.
Proof. unfold chunk_entries. simpl. rewrite app_nil_r. reflexivity. Qed.

Lemma add_categories_entries videos cat parsed : forall m m',
  add_categories videos m parsed = Fulfilled m' ->
  entries m' cat = (entries m cat ++ chunk_entries videos cat parsed)%list.
Proof.
  induction parsed as [|co rest IH]; intros m m' H; simpl in H.
  - injection H as <-. unfold chunk_entries. simpl. rewrite app_nil_r. reflexivity.
  - destruct (add_category videos m co) as [m1|] eqn:E1; [|discriminate].
    rewrite (IH _ _ H), (add_category_entries _ _ _ _ cat E1).
    rewrite (chunk_entries_cons videos cat co rest), app_assoc. reflexivity.
Qed.

(** What batch [i] holds under a category when its promise fulfils. *)
Lemma batchPromise_entries w videos i m cat :
  batchPromise w videos i = Fulfilled m ->
  entries m cat = reply_entries videos cat (gemini w i (batchVideos videos i)).
Proof.
  unfold batchPromise. destruct (geminiApiKey w) as [[|c s]|]; try discriminate.
  destruct (gemini w i (batchVideos videos i)) as [| | | |parsed]; try discriminate.
  - intros [= <-]. reflexivity.
  - intros H. rewrite (add_categories_entries _ cat _ _ _ H). reflexivity.
Qed.

(** C1, as the code has it. Every title a batch's answer returns is looked
    up in the whole list the categorizer was started on: what the batch holds
    under a category is, in order, the first video of the whole list carrying
    each returned title, titles without a match adding nothing. *)
Theorem titles_resolve_against_whole_list (w : World) (videos : list Video) (i : nat)
    (m : gmap string (list Video)) :
  batchPromise w videos i = Fulfilled m ->
  forall cat vs, m !! cat = Some vs ->
    vs = reply_entries videos cat (gemini w i (batchVideos videos i))
    /\ forall v, In v vs ->
         In v videos /\ find_by_title videos (Some (title v)) = Some v
         /\ exists parsed categoryObj ts,
              gemini w i (batchVideos videos i) = Parsed parsed
              /\ In categoryObj parsed /\ category categoryObj = cat
              /\ titles categoryObj = Some ts /\ In (Some (title v)) ts.
Proof.
  intros Hb cat vs Hm.
  pose proof (batchPromise_entries w videos i m cat Hb) as He.
  unfold entries in He. rewrite Hm in He. simpl in He.
  split; [exact He|]. intros v Hv. rewrite He in Hv.
  destruct (gemini w i (batchVideos videos i)) as [| | | |parsed]; try contradiction.
  simpl in Hv. apply In_chunk_entries in Hv as (Hin & Hfirst & co & ts & H).
  split; [exact Hin|]. split; [exact Hfirst|]. exists parsed, co, ts. tauto.
Qed.

Lemma titles_resolve_against_whole_list_witness :
  [Samples.early]
  = reply_entries Samples.videos201 "Everything"
      (gemini Samples.echo_world 1 (batchVideos Samples.videos201 1))
  /\ In Samples.early Samples.videos201
  /\ find_by_title Samples.videos201 (Some "Live Q&A") = Some Samples.early.
Proof.
  assert (Hb : batchPromise Samples.echo_world Samples.videos201 1
               = Fulfilled {[ "Everything" := [Samples.early] ]}).
  { vm_compute. reflexivity. }
  destruct (titles_resolve_against_whole_list Samples.echo_world Samples.videos201 1 _ Hb
              "Everything" [Samples.early] eq_refl) as [H1 H2].
  split; [exact H1|].
  destruct (H2 Samples.early (or_introl eq_refl)) as (H3 & H4 & _).
  split; [exact H3 | exact H4].
Defined.

(** C1, as stated, fails. The second chunk of a 201-video list holds only
    the last video; the classifier returns that video's title for it; the
    batch resolves the title to the first video of the list, which carries
    the same title and lies in the first chunk. *)
Lemma chunk_titles_resolve_outside_the_chunk :
  batchVideos Samples.videos201 1 = [Samples.late]
  /\ gemini Samples.echo_world 1 [Samples.late]
     = Parsed [{| category := "Everything"; titles := Some [Some "Live Q&A"] |}]
  /\ batchPromise Samples.echo_world Samples.videos201 1
     = Fulfilled {[ "Everything" := [Samples.early] ]}
  /\ ~ In Samples.early (batchVideos Samples.videos201 1)
  /\ In Samples.early (batchVideos Samples.videos201 0)
  /\ id Samples.early <> id Samples.late.
Proof.
  split; [vm_compute; reflexivity|]. split; [reflexivity|].
  split; [vm_compute; reflexivity|]. split; [|split].
  - vm_compute. intros [H|[]]. discriminate.
  - left. reflexivity.
  - discriminate.
Qed.

Lemma Promise_all_snoc {A} (promises : list (Outcome A)) p results :
  Promise_all (promises ++ [p]) = Fulfilled results ->
  exists rs r, Promise_all promises = Fulfilled rs /\ p = Fulfilled r
               /\ results = (rs ++ [r])%list.
Proof.
  revert results. induction promises as [|[a|m] promises IH]; intros results; simpl.
  - destruct p as [r|]; [|discriminate]. intros [= <-]. exists [], r. auto.
  - destruct (Promise_all (promises ++ [p])) as [rs'|] eqn:E; [|discriminate].
    intros [= <-]. destruct (IH rs' eq_refl) as (rs & r & -> & -> & ->).
    exists (a :: rs), r. auto.
  - discriminate.
Qed.

Lemma merge_entries a b cat :
  entries (merge_batch a b) cat = (entries a cat ++ entries b cat)%list.
Proof.
  unfold entries, merge_batch. rewrite lookup_union_with.
  destruct (a !! cat), (b !! cat); simpl; rewrite ?app_nil_r; reflexivity.
Qed.

Lemma fold_merge_entries cat ms : forall allCategories,
  entries (fold_left merge_batch ms allCategories) cat
  = (entries allCategories cat ++ flat_map (fun m => entries m cat) ms)%list.
Proof.
  induction ms as [|m ms IH]; intros allCategories; simpl.
  - rewrite app_nil_r. reflexivity.
  - rewrite IH, merge_entries, app_assoc. reflexivity.
Qed.

(** The loop over batch numbers that end with the last batch merges, under
    each category, the promises pending on entry and then the batches in
    order. *)
Lemma batch_loop_entries w videos cat : forall pre batchPromises allCategories r,
  batch_loop w videos (pre ++ [(totalBatches videos - 1)%nat]) batchPromises allCategories
    = Fulfilled r ->
  exists ps, Promise_all batchPromises = Fulfilled ps
    /\ entries r cat
       = (entries allCategories cat ++ flat_map (fun m => entries m cat) ps
          ++ flat_map (fun i => reply_entries videos cat (gemini w i (batchVideos videos i)))
               (pre ++ [(totalBatches videos - 1)%nat]))%list.
Proof.
  induction pre as [|i pre IH]; intros pending allCategories r.
  - cbn [app batch_loop]. rewrite Nat.eqb_refl, orb_true_r.
    destruct (Promise_all (pending ++ [_])) as [results|] eqn:E; [|discriminate].
    intros [= <-]. apply Promise_all_snoc in E as (ps & m & Hps & Hm & ->).
    exists ps. split; [exact Hps|].
    rewrite fold_merge_entries, flat_map_app. cbn [flat_map].
    rewrite (batchPromise_entries _ _ _ _ cat Hm), !app_nil_r. reflexivity.
  - cbn [app batch_loop].
    destruct (Nat.leb _ _ || Nat.eqb _ _).
    + destruct (Promise_all (pending ++ [_])) as [results|] eqn:E; [|discriminate].
      intros H. apply IH in H as (ps0 & Hps0 & H). injection Hps0 as <-.
      apply Promise_all_snoc in E as (ps & m & Hps & Hm & ->).
      exists ps. split; [exact Hps|].
      rewrite H, fold_merge_entries, flat_map_app. cbn [flat_map].
      rewrite (batchPromise_entries _ _ _ _ cat Hm), !app_nil_r, <- !app_assoc. reflexivity.
    + intros H. apply IH in H as (ps' & E & H).
      apply Promise_all_snoc in E as (ps & m & Hps & Hm & ->).
      exists ps. split; [exact Hps|].
      rewrite H, flat_map_app. cbn [flat_map].
      rewrite (batchPromise_entries _ _ _ _ cat Hm), !app_nil_r, <- !app_assoc. reflexivity.
Qed.

Lemma dispatch_entries w videos allCategories cat :
  dispatch w videos = Fulfilled allCategories ->
  entries allCategories cat
  = flat_map (fun i => reply_entries videos cat (gemini w i (batchVideos videos i)))
      (seq 0 (totalBatches videos)).
Proof.
  unfold dispatch. destruct (totalBatches videos) as [|n] eqn:En.
  - simpl. intros [= <-]. reflexivity.
  - rewrite seq_S. simpl plus.
    replace n with (totalBatches videos - 1)%nat by (rewrite En; lia).
    intros H. apply (batch_loop_entries w videos cat) in H as (ps & Hps & H).
    injection Hps as <-. rewrite H. unfold entries at 1. rewrite lookup_empty. reflexivity.
Qed.

(** C5, as the code has it. What the merged mapping holds under a category is
    the concatenation, in batch order, of the videos the titles returned under
    that category resolve to in the input list: every entry is an input item,
    the first one carrying a returned title; a returned title that matches no
    input item adds nothing; an item is entered once for every time a title
    resolving to it is returned. *)
Theorem merged_categories_concatenate_resolved_titles (w : World) (videos : list Video)
    (allCategories : gmap string (list Video)) :
  dispatch w videos = Fulfilled allCategories ->
  forall cat,
    entries allCategories cat
    = flat_map (fun i => reply_entries videos cat (gemini w i (batchVideos videos i)))
        (seq 0 (totalBatches videos))
    /\ forall v, In v (entries allCategories cat) ->
         In v videos /\ find_by_title videos (Some (title v)) = Some v
         /\ exists i parsed categoryObj ts,
              (i < totalBatches videos)%nat
              /\ gemini w i (batchVideos videos i) = Parsed parsed
              /\ In categoryObj parsed /\ category categoryObj = cat
              /\ titles categoryObj = Some ts /\ In (Some (title v)) ts.
Proof.
  intros Hd cat. pose proof (dispatch_entries w videos allCategories cat Hd) as He.
  split; [exact He|]. intros v Hv. rewrite He in Hv.
  apply in_flat_map in Hv as (i & Hi & Hv). apply in_seq in Hi.
  destruct (gemini w i (batchVideos videos i)) as [| | | |parsed] eqn:Eg; try contradiction.
  simpl in Hv. apply In_chunk_entries in Hv as (Hin & Hfirst & co & ts & H).
  split; [exact Hin|]. split; [exact Hfirst|].
  exists i, parsed, co, ts. split; [lia|]. split; [exact Eg|]. tauto.
Qed.

Lemma merged_categories_concatenate_resolved_titles_witness :
  entries {[ "Everything" := Samples.merged201 ]} "Everything"
  = flat_map (fun i => reply_entries Samples.videos201 "Everything"
                         (gemini Samples.echo_world i (batchVideos Samples.videos201 i)))
      (seq 0 (totalBatches Samples.videos201)).
Proof.
  refine (proj1 (merged_categories_concatenate_resolved_titles Samples.echo_world
                   Samples.videos201 {[ "Everything" := Samples.merged201 ]} _ "Everything")).
  vm_compute. reflexivity.
Defined.

(** C5, as stated, fails. Each of the two chunks of the 201-video list
    returns its own titles; the merged mapping holds the first video twice
    and the last video, which shares its title, not at all. *)
Lemma merged_mapping_repeats_an_item :
  dispatch Samples.echo_world Samples.videos201
  = Fulfilled {[ "Everything" := Samples.merged201 ]}
  /\ Samples.count_id "vid_a" Samples.videos201 = 1%nat
  /\ Samples.count_id "vid_a" Samples.merged201 = 2%nat
  /\ Samples.count_id "vid_b" Samples.videos201 = 1%nat
  /\ Samples.count_id "vid_b" Samples.merged201 = 0%nat.
Proof.
  split; [vm_compute; reflexivity|]. repeat split; vm_compute; reflexivity.
Qed.

End CategorizeFacts.

(** * Properties of the YouTube loaders *)
Module YouTubeFacts.
Import JS KeyRotation CacheStore CacheClient YouTube KeyRotationFacts CacheStoreFacts.

Lemma rotateApiKey_nonempty w b :
  getYouTubeApiKeys (env w) ≠ [] ->
  keyRotationLock (server b) = false ->
  exists b' k,
    rotateApiKey w b = (b', Fulfilled k)
    /\ rotations b' = S (rotations b) /\ db b' = db b /\ events b' = events b
    /\ keyRotationLock (server b') = false
    /\ currentKeyIndex (server b')
       = ((currentKeyIndex (server b) + 1) mod length (getYouTubeApiKeys (env w)))%nat.
Proof.
  intros Hne Hl. unfold rotateApiKey.
  rewrite (rotateYoutubeKey_unlocked _ _ _ Hl).
  pose proof (rotate_locked_index (env w) (clock w (rotations b)) (server b) Hne) as Hi.
  pose proof (rotate_locked_result (env w) (clock w (rotations b)) (server b) Hne) as Hr.
  pose proof (rotate_locked_unlocks (env w) (clock w (rotations b)) (server b)) as Hu.
  destruct (rotate_locked _ _ _) as [p' r]. simpl in Hi, Hr, Hu. subst r. unfold key_at.
  eexists _, _. split; [reflexivity|]. simpl. auto.
Qed.

Lemma quota_try w channelId b :
  quota_everywhere w -> channel_details_try w channelId b = Rejected "quota exceeded".
Proof.
  intros [Hq _]. unfold channel_details_try.
  destruct (Hq (getCurrentApiKey b) channelId) as (m & -> & ->). reflexivity.
Qed.

(** With no quota left on any key, [getChannelDetails] is still running
    after any number of calls, and has rotated once per call. *)
Lemma getChannelDetails_quota w channelId :
  getYouTubeApiKeys (env w) ≠ [] -> quota_everywhere w ->
  forall fuel b,
    keyRotationLock (server b) = false ->
    snd (getChannelDetails fuel w channelId b) = None
    /\ rotations (fst (getChannelDetails fuel w channelId b)) = (rotations b + fuel)%nat
    /\ ((currentKeyIndex (server b) < length (getYouTubeApiKeys (env w)))%nat ->
        currentKeyIndex (server (fst (getChannelDetails fuel w channelId b)))
        = ((currentKeyIndex (server b) + fuel) mod length (getYouTubeApiKeys (env w)))%nat).
Proof.
  intros Hne Hq. induction fuel as [|fuel IH]; intros b Hl.
  - simpl. rewrite !Nat.add_0_r. split; [reflexivity|]. split; [reflexivity|].
    intros Hlt. symmetry. apply Nat.mod_small, Hlt.
  - cbn [getChannelDetails]. rewrite (quota_try w channelId b Hq).
    change (includes "quota" "quota exceeded") with true. cbv iota.
    destruct (rotateApiKey_nonempty w b Hne Hl) as (b' & k & -> & Hr & _ & _ & Hl' & Hi).
    destruct (IH b' Hl') as (H1 & H2 & H3).
    split; [exact H1|]. split; [rewrite H2, Hr; lia|].
    intros _. rewrite H3.
    + rewrite Hi, Nat.Div0.add_mod_idemp_l. f_equal. lia.
    + rewrite Hi. apply Nat.mod_upper_bound. intros E. apply Hne.
      destruct (getYouTubeApiKeys (env w)); [reflexivity|discriminate].
Qed.

Lemma quota_pages w k playlistId pageToken allVideos fuel :
  quota_everywhere w ->
  fetch_pages (S fuel) w k playlistId pageToken allVideos = Threw "quota exceeded".
Proof.
  intros [_ Hq]. cbn [fetch_pages].
  destruct (Hq k playlistId pageToken) as (m & -> & ->). reflexivity.
Qed.

(** A lookup of a key whose documents have all expired is a miss, whatever
    the database does during the request, and leaves them expired. *)
Lemma getCachedData_miss a k (d : Database) :
  all_expired k (server_now a) (db_collection d "playlists") ->
  fst (getCachedData a k "playlists" d) = None
  /\ all_expired k (server_now a) (db_collection (snd (getCachedData a k "playlists" d)) "playlists").
Proof.
  intros H. unfold getCachedData.
  destruct (network_error a); [split; [reflexivity|exact H]|].
  unfold post_cache_get, getCacheMiddleware, str_or, middleware. simpl.
  destruct (connection_fails (faults a)); [split; [reflexivity|exact H]|].
  destruct (String.eqb k ""); simpl; [split; [reflexivity|exact H]|].
  unfold lookup_live.
  destruct (findOne_fails (faults a)); [split; [reflexivity|exact H]|].
  rewrite (findOne_all_expired _ _ _ H).
  destruct (deleteOne_fails (faults a)); [split; [reflexivity|exact H]|].
  simpl. split; [reflexivity|].
  rewrite db_collection_insert. destruct (decide (_ = _)); [|contradiction].
  eapply all_expired_incl; [|exact H]. intros x. apply In_deleteOne.
Qed.

Lemma loadPlaylistData_quota w playlistId :
  getYouTubeApiKeys (env w) ≠ [] -> quota_everywhere w ->
  forall fuel b,
    keyRotationLock (server b) = false ->
    all_expired ("playlist_" ++ playlistId) (server_now (cache_read w))
      (db_collection (db b) "playlists") ->
    snd (loadPlaylistData fuel w playlistId b) = None
    /\ rotations (fst (loadPlaylistData fuel w playlistId b)) = (rotations b + (fuel - 1))%nat.
Proof.
  intros Hne Hq. induction fuel as [|fuel IH]; intros b Hl Hmiss.
  - simpl. split; [reflexivity|lia].
  - cbn [loadPlaylistData].
    destruct (getCachedData_miss _ _ _ Hmiss) as [Hnone Hstill].
    destruct (getCachedData _ _ _ _) as [cachedData db']. simpl in Hnone, Hstill.
    subst cachedData. cbn [mbind option_bind].
    destruct fuel as [|fuel'].
    + simpl. split; [reflexivity|lia].
    + rewrite (quota_pages w _ playlistId "" [] fuel' Hq).
      change (includes "quota" "quota exceeded") with true. cbv iota.
      destruct (rotateApiKey_nonempty w (with_db db' b) Hne Hl)
        as (b' & k & -> & Hr & Hdb & _ & Hl' & _).
      destruct (IH b' Hl') as [H1 H2]; [rewrite Hdb; exact Hstill|].
      split; [exact H1|]. rewrite H2, Hr. simpl. lia.
Qed.

(** C2, as the code has it. With at least one key configured and every
    request refused for quota, the loaders rotate and call themselves again
    without a bound: after any number of calls neither [getChannelDetails]
    nor [loadPlaylistData] has settled, one rotation has been made per
    refused call, and the server's index has gone round the pool as often
    as that takes. *)
Theorem quota_exhaustion_rotates_without_bound (w : World) (b : Browser)
    (channelId playlistId : string) (fuel : nat) :
  getYouTubeApiKeys (env w) ≠ [] ->
  quota_everywhere w ->
  keyRotationLock (server b) = false ->
  (currentKeyIndex (server b) < length (getYouTubeApiKeys (env w)))%nat ->
  all_expired ("playlist_" ++ playlistId) (server_now (cache_read w))
    (db_collection (db b) "playlists") ->
  (snd (getChannelDetails fuel w channelId b) = None
   /\ rotations (fst (getChannelDetails fuel w channelId b)) = (rotations b + fuel)%nat
   /\ currentKeyIndex (server (fst (getChannelDetails fuel w channelId b)))
      = ((currentKeyIndex (server b) + fuel) mod length (getYouTubeApiKeys (env w)))%nat)
  /\ (snd (loadPlaylistData fuel w playlistId b) = None
      /\ rotations (fst (loadPlaylistData fuel w playlistId b))
         = (rotations b + (fuel - 1))%nat).
Proof.
  intros Hne Hq Hl Hlt Hmiss. split.
  - destruct (getChannelDetails_quota w channelId Hne Hq fuel b Hl) as (H1 & H2 & H3). auto.
  - apply loadPlaylistData_quota; assumption.
Qed.

Lemma world5_quota_everywhere : quota_everywhere Samples.world5.
Proof.
  split; intros; exists Samples.quota_message; split; reflexivity.
Qed.

Lemma quota_exhaustion_rotates_without_bound_witness :
  (snd (getChannelDetails 12 Samples.world5 "UC_x5XG1OV2P6uZZ5FSM9Ttw" Samples.browser5) = None
   /\ rotations (fst (getChannelDetails 12 Samples.world5 "UC_x5XG1OV2P6uZZ5FSM9Ttw"
                        Samples.browser5)) = 12%nat
   /\ currentKeyIndex (server (fst (getChannelDetails 12 Samples.world5
                                      "UC_x5XG1OV2P6uZZ5FSM9Ttw" Samples.browser5)))
      = 2%nat)
  /\ (snd (loadPlaylistData 12 Samples.world5 "PL_ABC" Samples.browser5) = None
      /\ rotations (fst (loadPlaylistData 12 Samples.world5 "PL_ABC" Samples.browser5))
         = 11%nat).
Proof.
  apply (quota_exhaustion_rotates_without_bound Samples.world5 Samples.browser5
           "UC_x5XG1OV2P6uZZ5FSM9Ttw" "PL_ABC" 12).
  - discriminate.
  - exact world5_quota_everywhere.
  - reflexivity.
  - vm_compute. lia.
  - intros d Hd. vm_compute in Hd. contradiction.
Defined.

(** C2, as stated, fails. Five keys are configured and each is refused for
    quota. After six calls of [getChannelDetails], one past a full round of
    the pool, the promise has not settled and the index stands at 1 again;
    it has not settled after a hundred calls either, and no number of calls
    settles it, with an exhausted-quota error or otherwise. *)
Lemma quota_exhaustion_never_settles :
  length (getYouTubeApiKeys (env Samples.world5)) = 5%nat
  /\ snd (getChannelDetails 6 Samples.world5 "UC_x5XG1OV2P6uZZ5FSM9Ttw" Samples.browser5) = None
  /\ currentKeyIndex (server (fst (getChannelDetails 6 Samples.world5
                                     "UC_x5XG1OV2P6uZZ5FSM9Ttw" Samples.browser5))) = 1%nat
  /\ snd (getChannelDetails 100 Samples.world5 "UC_x5XG1OV2P6uZZ5FSM9Ttw" Samples.browser5)
     = None
  /\ ~ (exists fuel outcome,
          snd (getChannelDetails fuel Samples.world5 "UC_x5XG1OV2P6uZZ5FSM9Ttw"
                 Samples.browser5) = Some outcome)
  /\ ~ (exists fuel outcome,
          snd (loadPlaylistData fuel Samples.world5 "PL_ABC" Samples.browser5) = Some outcome).
Proof.
  split; [reflexivity|]. split; [vm_compute; reflexivity|].
  split; [vm_compute; reflexivity|]. split; [vm_compute; reflexivity|]. split.
  - intros (fuel & outcome & H).
    destruct (getChannelDetails_quota Samples.world5 "UC_x5XG1OV2P6uZZ5FSM9Ttw"
                ltac:(discriminate) world5_quota_everywhere fuel Samples.browser5 eq_refl)
      as [E _].
    rewrite E in H. discriminate.
  - intros (fuel & outcome & H).
    destruct (loadPlaylistData_quota Samples.world5 "PL_ABC"
                ltac:(discriminate) world5_quota_everywhere fuel Samples.browser5 eq_refl)
      as [E _].
    + intros d Hd. vm_compute in Hd. contradiction.
    + rewrite E in H. discriminate.
Qed.

End YouTubeFacts.

(** * Writing a fetched result back to the cache *)
Module WriteBackFacts.
Import JS CacheStore CacheClient.

(** C4, in [categorizeVideos]. The categorizer awaits [cacheData] inside its
    [try] block before it displays anything: when the classification has
    succeeded and the write of its result is rejected, the categories are
    never displayed and the user is shown a failure carrying the store's
    error. *)
Theorem cache_write_failure_fails_categorization (w : Categorize.World)
    (videos : list Categorize.Video) (db : Database)
    (allCategories : gmap string (list Categorize.Video)) (m : string) :
  videos <> [] ->
  fst (getCachedData (Categorize.cache_read w) (Categorize.categorizationKey videos)
         "categories" db) ≫= p_categories = None ->
  Categorize.dispatch w videos = Fulfilled allCategories ->
  allCategories <> ∅ ->
  fst (fst (cacheData (Categorize.cache_write w) (Categorize.categorizationKey videos)
              (JObj [("categories", Categorize.categories_json allCategories)]) "categories"
              (snd (getCachedData (Categorize.cache_read w)
                      (Categorize.categorizationKey videos) "categories" db))))
    = Rejected m ->
  fst (Categorize.categorizeVideos w videos db) = Categorize.failed w m
  /\ forall c, ~ In (Categorize.DisplayCategories c)
                   (fst (Categorize.categorizeVideos w videos db)).
Proof.
  intros Hne Hmiss Hd Hnonempty Hwrite.
  assert (E : fst (Categorize.categorizeVideos w videos db) = Categorize.failed w m).
  { unfold Categorize.categorizeVideos. destruct videos as [|v videos]; [contradiction|].
    destruct (getCachedData _ _ _ _) as [cached db1]. simpl in Hmiss, Hwrite.
    rewrite Hmiss, Hd. destruct (decide (allCategories = ∅)); [contradiction|].
    destruct (cacheData _ _ _ _ _) as [[[body|m'] db2] n0]; simpl in Hwrite;
      [discriminate|]. injection Hwrite as ->. reflexivity. }
  split; [exact E|]. intros c. rewrite E. unfold Categorize.failed, Categorize.toast.
  destruct (Categorize.has_toast w); simpl; intros H;
    repeat (destruct H as [H|H]; [discriminate|]); exact H.
Qed.

Lemma cache_write_failure_fails_categorization_witness :
  Categorize.dispatch Samples.store_down_world Samples.one_video
    = Fulfilled {[ "Streams" := Samples.one_video ]}
  /\ fst (Categorize.categorizeVideos Samples.store_down_world Samples.one_video ∅)
     = [Categorize.ToastError "Failed to categorize videos: Failed to store cache";
        Categorize.LoadingStatus (Some "Categorization failed.");
        Categorize.LoadingStatus None]
  /\ forall c, ~ In (Categorize.DisplayCategories c)
                   (fst (Categorize.categorizeVideos Samples.store_down_world
                           Samples.one_video ∅)).
Proof.
  assert (Hd : Categorize.dispatch Samples.store_down_world Samples.one_video
               = Fulfilled {[ "Streams" := Samples.one_video ]}).
  { vm_compute. reflexivity. }
  split; [exact Hd|].
  apply (cache_write_failure_fails_categorization Samples.store_down_world Samples.one_video
           ∅ {[ "Streams" := Samples.one_video ]} "Failed to store cache").
  - discriminate.
  - vm_compute. reflexivity.
  - exact Hd.
  - intros E. apply (f_equal (fun m => m !! "Streams")) in E. vm_compute in E. discriminate.
  - vm_compute. reflexivity.
Defined.

(** The same store failure in [loadPlaylistData], which does not await the
    write: the playlist is set and rendered, the promise fulfils, and the
    failure is logged. *)
Lemma playlist_survives_cache_write_failure :
  snd (YouTube.loadPlaylistData 3 Samples.playlist_world "PL_ABC" Samples.browser5)
    = Some (Fulfilled tt)
  /\ YouTube.events
       (fst (YouTube.loadPlaylistData 3 Samples.playlist_world "PL_ABC" Samples.browser5))
     = [YouTube.SetVideos (JArr [JObj [("id", JStr "vid_a")]]);
        YouTube.Rendered;
        YouTube.ConsoleError
          "[Cache] Background playlist caching failed: Failed to store cache"].
Proof.
  split; vm_compute; reflexivity.
Qed.

(** [cacheData] gives up after three requests when the store refuses each. *)
Lemma cacheData_exhausts_retries :
  cacheData (fun _ => Samples.store_down) "playlist_PL_ABC"
    (JObj [("videos", JArr [JObj [("id", JStr "vid_a")]])]) "playlists" ∅
  = (Rejected "Failed to store cache", ∅, 3%nat).
Proof. vm_compute. reflexivity. Qed.

End WriteBackFacts.

(** * Further properties of the cache store *)
Module CacheStoreMore.
Import JS CacheStore CacheStoreFacts.

Lemma find_filter {A} (f g : A -> bool) (l : list A) :
  (forall x, f x = true -> g x = true) ->
  List.find f (List.filter g l) = List.find f l.
Proof.
  intros H. induction l as [|x l IH]; simpl; [reflexivity|].
  destruct (g x) eqn:Eg; simpl.
  - destruct (f x); [reflexivity|exact IH].
  - destruct (f x) eqn:Ef; [rewrite (H x Ef) in Eg; discriminate|exact IH].
Qed.

Lemma live_not_swept t now d : t <= now -> live now d = true -> negb (expired t d) = true.
Proof.
  unfold live, expired. intros Ht. destruct (expiresAt d) as [e|]; [|reflexivity].
  intros H. apply Z.ltb_lt in H. destruct (Z.ltb_spec e t); [lia|reflexivity].
Qed.

Lemma findOne_after_sweep k t now (c : list Doc) :
  t <= now ->
  findOne (matches_live k now) (deleteMany (expired t) c) = findOne (matches_live k now) c.
Proof.
  intros Ht. unfold findOne, deleteMany. apply find_filter.
  intros d H. unfold matches_live in H. apply andb_prop in H as [_ H].
  exact (live_not_swept t now d Ht H).
Qed.

Lemma lookup_live_after_sweep f k t now c db :
  t <= now ->
  fst (lookup_live f now c k (delete_expired t db)) = fst (lookup_live f now c k db).
Proof.
  intros Ht. unfold lookup_live. destruct (findOne_fails f); [reflexivity|].
  rewrite db_collection_delete_expired, findOne_after_sweep by exact Ht.
  destruct (findOne _ _); [reflexivity|]. destruct (deleteOne_fails f); reflexivity.
Qed.

Lemma filter_idem {A} (f : A -> bool) (l : list A) :
  List.filter f (List.filter f l) = List.filter f l.
Proof.
  induction l as [|x l IH]; simpl; [reflexivity|].
  destruct (f x) eqn:E; simpl; rewrite ?E, IH; reflexivity.
Qed.

(** X1. A sweep of the expired documents at time [t] removes exactly the
    documents whose [expiresAt] is before [t], is idempotent, and does not
    change the answer either read route gives at any time from [t] on,
    whatever the database does during the read. *)
Theorem sweep_is_invisible_to_reads (f : Faults) (t now : Z) (req : Request) (db : Database) :
  t <= now ->
  fst (get_cache f now req (delete_expired t db)) = fst (get_cache f now req db)
  /\ fst (post_cache_get f now req (delete_expired t db)) = fst (post_cache_get f now req db)
  /\ (forall c d, In d (db_collection (delete_expired t db) c)
                  <-> In d (db_collection db c) /\ expired t d = false)
  /\ delete_expired t (delete_expired t db) = delete_expired t db.
Proof.
  intros Ht. split; [|split; [|split]].
  - unfold get_cache. destruct (getCacheMiddleware f req) as [r|c]; [reflexivity|].
    destruct (truthy_str (query_key req)); [|reflexivity].
    pose proof (lookup_live_after_sweep f (default "" (query_key req)) t now c db Ht) as H.
    destruct (lookup_live f now c _ (delete_expired t db)) as [[r1|d1] db1],
             (lookup_live f now c _ db) as [[r2|d2] db2]; simpl in H |- *; congruence.
  - unfold post_cache_get. destruct (getCacheMiddleware f req) as [r|c]; [reflexivity|].
    destruct (truthy_str (body_key req)); [|reflexivity].
    pose proof (lookup_live_after_sweep f (default "" (body_key req)) t now c db Ht) as H.
    destruct (lookup_live f now c _ (delete_expired t db)) as [[r1|d1] db1],
             (lookup_live f now c _ db) as [[r2|d2] db2]; simpl in H |- *; congruence.
  - intros c d. rewrite db_collection_delete_expired. unfold deleteMany.
    rewrite filter_In. rewrite negb_true_iff. reflexivity.
  - unfold delete_expired. rewrite <- map_fmap_compose. apply map_fmap_ext.
    intros c docs _. unfold compose, deleteMany. apply filter_idem.
Qed.

Lemma sweep_is_invisible_to_reads_witness :
  fst (get_cache no_faults 500 (get_request "playlists" "playlist_ABC")
         (delete_expired 400 Samples.stale_db))
  = {| status := 200; body := DataDoc Samples.stale_doc |}
  /\ delete_expired 1500 Samples.stale_db = {[ "playlists" := [] ]}.
Proof.
  split; [|vm_compute; reflexivity].
  rewrite (proj1 (sweep_is_invisible_to_reads no_faults 400 500
                    (get_request "playlists" "playlist_ABC") Samples.stale_db ltac:(lia))).
  vm_compute. reflexivity.
Defined.

Lemma deleteOne_keeps (f : Doc -> bool) (c : list Doc) d :
  In d c -> f d = false -> In d (deleteOne f c).
Proof.
  induction c as [|x c IH]; simpl; [tauto|]. intros [->|H] Hf.
  - rewrite Hf. left. reflexivity.
  - destruct (f x); [exact H|]. right. apply IH; assumption.
Qed.

Lemma findOne_none_subset (f : Doc -> bool) (c c' : list Doc) :
  (forall d, In d c' -> In d c) -> findOne f c = None -> findOne f c' = None.
Proof.
  unfold findOne. intros Hs Hn.
  destruct (List.find f c') as [d|] eqn:E; [|reflexivity].
  apply find_some in E as [Hin Hf]. exfalso.
  exact (eq_true_false_abs _ Hf (find_none _ _ Hn d (Hs d Hin))).
Qed.

(** What a lookup does to the database: nothing, or the removal of one
    document of that collection and key that had expired. *)
Lemma lookup_live_effect f now c k db :
  let db' := snd (lookup_live f now c k db) in
  (forall c', c' <> c -> db_collection db' c' = db_collection db c')
  /\ (forall d, In d (db_collection db' c) -> In d (db_collection db c))
  /\ (forall d, In d (db_collection db c) -> matches_expired k now d = false ->
                In d (db_collection db' c))
  /\ fst (lookup_live f now c k db') = fst (lookup_live f now c k db).
Proof.
  unfold lookup_live. destruct (findOne_fails f); simpl; [auto|].
  destruct (findOne (matches_live k now) (db_collection db c)) as [d0|] eqn:E0; simpl.
  { rewrite ?E0. auto. }
  destruct (deleteOne_fails f) eqn:Ed; simpl.
  { rewrite ?E0, ?Ed. auto. }
  split; [|split; [|split]].
  - intros c' Hc. rewrite db_collection_insert.
    destruct (decide (c = c')); [congruence|reflexivity].
  - intros d. rewrite db_collection_insert. destruct (decide (c = c)); [|contradiction].
    apply In_deleteOne.
  - intros d Hd Hm. rewrite db_collection_insert. destruct (decide (c = c)); [|contradiction].
    apply deleteOne_keeps; assumption.
  - rewrite db_collection_insert. destruct (decide (c = c)); [|contradiction].
    rewrite (findOne_none_subset _ _ _ (fun d => In_deleteOne _ _ d) E0). reflexivity.
Qed.

Lemma expired_not_matches k now d : expired now d = false -> matches_expired k now d = false.
Proof. unfold matches_expired. intros ->. apply andb_false_r. Qed.

(** X2. A read never adds a document and never removes one that has not
    expired: all it may remove is a document of the collection it reads whose
    [expiresAt] is before the time of the read; and the same read made again
    gets the same answer.  This holds for both read routes, whatever the
    database does during the read. *)
Theorem reads_remove_only_expired (f : Faults) (now : Z) (req : Request) (db : Database) :
  (forall c d, In d (db_collection (snd (get_cache f now req db)) c) ->
               In d (db_collection db c))
  /\ (forall c d, In d (db_collection db c) -> expired now d = false ->
                  In d (db_collection (snd (get_cache f now req db)) c))
  /\ fst (get_cache f now req (snd (get_cache f now req db))) = fst (get_cache f now req db)
  /\ (forall c d, In d (db_collection (snd (post_cache_get f now req db)) c) ->
                  In d (db_collection db c))
  /\ (forall c d, In d (db_collection db c) -> expired now d = false ->
                  In d (db_collection (snd (post_cache_get f now req db)) c))
  /\ fst (post_cache_get f now req (snd (post_cache_get f now req db)))
     = fst (post_cache_get f now req db).
Proof.
  assert (Hroute : forall k c0,
    let db' := snd (lookup_live f now c0 k db) in
    (forall c d, In d (db_collection db' c) -> In d (db_collection db c))
    /\ (forall c d, In d (db_collection db c) -> expired now d = false ->
                    In d (db_collection db' c))).
  { intros k c0 db'. destruct (lookup_live_effect f now c0 k db) as (H1 & H2 & H3 & _).
    fold db' in H1, H2, H3. split; intros c d Hd.
    - destruct (decide (c = c0)) as [->|Hc]; [apply H2, Hd|]. rewrite <- (H1 c Hc). exact Hd.
    - intros He. destruct (decide (c = c0)) as [->|Hc].
      + apply H3; [exact Hd|]. apply expired_not_matches, He.
      + rewrite (H1 c Hc). exact Hd. }
  assert (Hget : forall (getkey : option string) (wrap : Doc -> Body),
    let route db :=
      match getCacheMiddleware f req with
      | inl r => (r, db)
      | inr c =>
          if truthy_str getkey then
            match lookup_live f now c (default "" getkey) db with
            | (inl r, db') => (r, db')
            | (inr d, db') => ({| status := 200; body := wrap d |}, db')
            end
          else ({| status := 400; body := ErrorBody "Key is required" |}, db)
      end in
    (forall c d, In d (db_collection (snd (route db)) c) -> In d (db_collection db c))
    /\ (forall c d, In d (db_collection db c) -> expired now d = false ->
                    In d (db_collection (snd (route db)) c))
    /\ fst (route (snd (route db))) = fst (route db)).
  { intros getkey wrap route. subst route. cbv beta.
    destruct (getCacheMiddleware f req) as [r|c0]; [simpl; auto|].
    destruct (truthy_str getkey); [|simpl; auto].
    destruct (Hroute (default "" getkey) c0) as [H1 H2].
    destruct (lookup_live_effect f now c0 (default "" getkey) db) as (_ & _ & _ & H4).
    destruct (lookup_live f now c0 (default "" getkey) db) as [[r|d] db'] eqn:E;
      simpl in H1, H2, H4 |- *.
    - split; [exact H1|]. split; [exact H2|].
      destruct (lookup_live f now c0 (default "" getkey) db') as [[r'|d'] db''];
        simpl in H4 |- *; congruence.
    - split; [exact H1|]. split; [exact H2|].
      destruct (lookup_live f now c0 (default "" getkey) db') as [[r'|d'] db''];
        simpl in H4 |- *; congruence. }
  destruct (Hget (query_key req) DataDoc) as (A1 & A2 & A3).
  destruct (Hget (body_key req) (fun d => DataPayload (dataToReturn d))) as (B1 & B2 & B3).
  split; [exact A1|]. split; [exact A2|]. split; [exact A3|].
  split; [exact B1|]. split; [exact B2|exact B3].
Qed.

(** A write either leaves the database as it was, or answers 200 after the
    upsert of its cache document into the collection it names. *)
Lemma post_cache_cases f now now' req db :
  (snd (post_cache f now now' req db) = db /\ status (fst (post_cache f now now' req db)) <> 200)
  \/ exists name k data,
       body_collection req = Some name /\ body_key req = Some k /\ body_data req = Some data
       /\ DB_collections name = Some name /\ k <> ""
       /\ store_with_retries maxAttempts 0 (updateOne_fails f) = None
       /\ post_cache f now now' req db
          = ({| status := 200;
                body := Stored "Cache stored successfully" (expiry_of name now)
                          (if 0 <? snd (updateOne_upsert k
                                          (cacheDoc_of k name data (expiry_of name now) now')
                                          (db_collection db name))
                           then "inserted" else "updated") |},
             <[name := fst (updateOne_upsert k
                              (cacheDoc_of k name data (expiry_of name now) now')
                              (db_collection db name))]> db).
Proof.
  unfold post_cache, cacheMiddleware.
  set (stored := store_with_retries maxAttempts 0 (updateOne_fails f)).
  destruct (middleware f (body_collection req)) as [r|c] eqn:Em.
  { left. split; [reflexivity|]. exact (middleware_error _ _ _ Em). }
  destruct (body_collection req) as [name|] eqn:En.
  2:{ unfold middleware in Em. destruct (connection_fails f); discriminate. }
  assert (Hc : DB_collections name = Some c).
  { unfold middleware in Em. destruct (connection_fails f); [discriminate|].
    destruct (negb _); [|discriminate]. destruct (DB_collections name); [|discriminate].
    congruence. }
  destruct (DB_collections_valid _ _ Hc) as [-> Hne].
  destruct (body_data req) as [data|]; [|left; split; [reflexivity|discriminate]].
  destruct (body_key req) as [k|]; [|left; split; [reflexivity|discriminate]].
  simpl truthy_str. destruct (String.eqb_spec k "") as [->|Hk];
    [left; split; [reflexivity|discriminate]|].
  destruct (truthy data); [|left; split; [reflexivity|discriminate]].
  destruct (String.eqb name ""); [left; split; [reflexivity|discriminate]|].
  cbn [negb andb]. destruct (MAX_DATA_SIZE <? dataSize data);
    [left; split; [reflexivity|discriminate]|].
  destruct stored eqn:Es; [left; split; [reflexivity|discriminate]|].
  right. exists name, k, data. unfold expiry_of. cbn [default].
  destruct (updateOne_upsert _ _ _) as [docs n]. simpl. auto 10.
Qed.

Lemma upsert_other_keys k cacheDoc (c : list Doc) d :
  key cacheDoc = k -> key d <> k ->
  (In d (fst (updateOne_upsert k cacheDoc c)) <-> In d c).
Proof.
  intros Hk Hd. induction c as [|x c IH]; simpl.
  - split; [intros [<-|[]]; contradiction|tauto].
  - destruct (String.eqb_spec (key x) k) as [Ex|Hx]; simpl.
    + split; intros [<-|H]; auto.
      * simpl in Hd. contradiction.
      * contradiction.
    + destruct (updateOne_upsert k cacheDoc c) as [rest n]. simpl in *. tauto.
Qed.

Lemma upsert_length k cacheDoc (c : list Doc) :
  (length c <= length (fst (updateOne_upsert k cacheDoc c)) <= S (length c))%nat.
Proof.
  induction c as [|x c IH]; simpl; [lia|].
  destruct (String.eqb (key x) k); simpl; [lia|].
  destruct (updateOne_upsert k cacheDoc c) as [rest n]. simpl in *. lia.
Qed.

(** X3. A write changes nothing outside the collection and key it names:
    every other collection keeps its documents, every document under another
    key stays as it is, the collection gains at most one document, and keys
    that were distinct stay distinct.  This holds whatever the answer is. *)
Theorem write_touches_one_key (f : Faults) (now now' : Z) (req : Request) (db : Database) :
  let db' := snd (post_cache f now now' req db) in
  (forall c, Some c <> body_collection req -> db_collection db' c = db_collection db c)
  /\ (forall c d, Some (key d) <> body_key req ->
                  (In d (db_collection db' c) <-> In d (db_collection db c)))
  /\ (forall c, unique_keys (db_collection db c) -> unique_keys (db_collection db' c))
  /\ (forall c, (length (db_collection db c) <= length (db_collection db' c)
                 <= S (length (db_collection db c)))%nat).
Proof.
  intros db'. subst db'.
  destruct (post_cache_cases f now now' req db)
    as [[-> _]|(name & k & data & Hn & Hk & _ & _ & _ & _ & ->)].
  { split; [auto|]. split; [tauto|]. split; [auto|]. intros c. lia. }
  cbn [snd]. split; [|split; [|split]].
  - intros c Hc. rewrite db_collection_insert.
    destruct (decide (name = c)) as [->|]; [congruence|reflexivity].
  - intros c d Hd. rewrite db_collection_insert.
    destruct (decide (name = c)) as [->|]; [|tauto].
    apply upsert_other_keys; [reflexivity|congruence].
  - intros c Hu. rewrite db_collection_insert.
    destruct (decide (name = c)) as [->|]; [|exact Hu].
    apply upsert_keeps_keys_unique; [reflexivity|exact Hu].
  - intros c. rewrite db_collection_insert.
    destruct (decide (name = c)) as [->|]; [apply upsert_length|lia].
Qed.

Lemma or_else_idem {A} (a b : option A) : or_else a (or_else a b) = or_else a b.
Proof. destruct a; reflexivity. Qed.

Lemma apply_set_idem cacheDoc d : apply_set cacheDoc (apply_set cacheDoc d) = apply_set cacheDoc d.
Proof. unfold apply_set. simpl. rewrite !or_else_idem. reflexivity. Qed.

Lemma apply_set_self k name data e u :
  apply_set (cacheDoc_of k name data e u) (cacheDoc_of k name data e u)
  = cacheDoc_of k name data e u.
Proof.
  unfold apply_set, cacheDoc_of. simpl. f_equal;
    match goal with |- or_else ?x ?x = ?x => destruct x; reflexivity end.
Qed.

Lemma upsert_twice k name data e u (c : list Doc) :
  updateOne_upsert k (cacheDoc_of k name data e u)
    (fst (updateOne_upsert k (cacheDoc_of k name data e u) c))
  = (fst (updateOne_upsert k (cacheDoc_of k name data e u) c), 0).
Proof.
  induction c as [|x c IH]; simpl.
  - rewrite String.eqb_refl, apply_set_self. reflexivity.
  - destruct (String.eqb (key x) k) eqn:Ex; simpl.
    + rewrite String.eqb_refl, apply_set_idem. reflexivity.
    + destruct (updateOne_upsert k _ c) as [rest n]. simpl in *. rewrite Ex, IH. reflexivity.
Qed.

(** X4. A write is idempotent: when a request has been answered 200 and the
    same request, handled at the same clock readings, is answered 200 again,
    the second write leaves the database exactly as the first left it and
    reports [updated], not [inserted]. *)
Theorem write_is_idempotent (f f' : Faults) (now now' : Z) (req : Request) (db : Database) :
  status (fst (post_cache f now now' req db)) = 200 ->
  status (fst (post_cache f' now now' req (snd (post_cache f now now' req db)))) = 200 ->
  snd (post_cache f' now now' req (snd (post_cache f now now' req db)))
    = snd (post_cache f now now' req db)
  /\ exists message expires,
       body (fst (post_cache f' now now' req (snd (post_cache f now now' req db))))
       = Stored message expires "updated".
Proof.
  intros H1 H2.
  destruct (post_cache_cases f now now' req db)
    as [[_ Hbad]|(name & k & data & Hn & Hk & Hd & _ & _ & _ & E1)]; [contradiction|].
  rewrite E1 in H2 |- *. cbn [snd] in H2 |- *.
  destruct (post_cache_cases f' now now' req
              (<[name := fst (updateOne_upsert k
                                (cacheDoc_of k name data (expiry_of name now) now')
                                (db_collection db name))]> db))
    as [[_ Hbad]|(name' & k' & data' & Hn' & Hk' & Hd' & _ & _ & _ & E2)]; [contradiction|].
  assert (name' = name) by congruence. assert (k' = k) by congruence.
  assert (data' = data) by congruence. subst name' k' data'.
  rewrite E2. cbn [fst snd body].
  rewrite db_collection_insert. destruct (decide (name = name)); [|contradiction].
  rewrite upsert_twice. cbn [fst snd]. split; [apply insert_insert_eq|].
  eexists _, _. reflexivity.
Qed.

Lemma write_is_idempotent_witness :
  snd (post_cache no_faults 0 0 (put_request "videos" "list_1" Samples.first_payload)
         Samples.after_first_put)
  = Samples.after_first_put.
Proof.
  refine (proj1 (write_is_idempotent no_faults no_faults 0 0
                   (put_request "videos" "list_1" Samples.first_payload) ∅ _ _));
    vm_compute; reflexivity.
Defined.

Lemma store_with_retries_spec (fails : nat -> option string) :
  match store_with_retries maxAttempts 0 fails with
  | None => exists n, (n < 3)%nat /\ fails n = None
  | Some m => fails 2%nat = Some m /\ forall n, (n < 3)%nat -> fails n <> None
  end.
Proof.
  unfold maxAttempts. simpl.
  destruct (fails 0%nat) eqn:E0; [|exists 0%nat; split; [lia|exact E0]].
  destruct (fails 1%nat) eqn:E1; [|exists 1%nat; split; [lia|exact E1]].
  destruct (fails 2%nat) eqn:E2; [|exists 2%nat; split; [lia|exact E2]].
  split; [reflexivity|]. intros n Hn.
  destruct n as [|[|[|n]]]; [congruence|congruence|congruence|lia].
Qed.

(** X5. A well-formed write tries [updateOne] up to three times: it answers
    200 exactly when one of the three attempts does not throw, and when all
    three throw it answers 500 with the message of the third error and leaves
    the database as it was. *)
Theorem write_retries_updateOne_three_times (f : Faults) (now now' : Z)
    (name k : string) (data : JSON) (db : Database) :
  connection_fails f = false -> DB_collections name = Some name -> k <> "" ->
  truthy data = true -> dataSize data <= MAX_DATA_SIZE ->
  (status (fst (post_cache f now now' (put_request name k data) db)) = 200
   <-> exists n, (n < 3)%nat /\ updateOne_fails f n = None)
  /\ ((forall n, (n < 3)%nat -> updateOne_fails f n <> None) ->
      exists m, updateOne_fails f 2%nat = Some m
        /\ post_cache f now now' (put_request name k data) db
           = ({| status := 500; body := StoreFailed "Failed to store cache" m |}, db)).
Proof.
  intros Hconn Hc Hk Ht Hsize.
  destruct (DB_collections_valid _ _ Hc) as [_ Hne].
  pose proof (store_with_retries_spec (updateOne_fails f)) as Hs.
  unfold post_cache, cacheMiddleware, middleware.
  set (stored := store_with_retries maxAttempts 0 (updateOne_fails f)) in *.
  simpl. rewrite Hconn, Hc, Ht.
  destruct (String.eqb_spec name "") as [|_]; [contradiction|].
  destruct (String.eqb_spec k "") as [|_]; [contradiction|]. simpl.
  destruct (Z.ltb_spec MAX_DATA_SIZE (dataSize data)) as [|_]; [lia|].
  destruct stored as [m|].
  - destruct Hs as [H2 Hall]. simpl. split.
    + split; [discriminate|]. intros (n & Hn & E). destruct (Hall n Hn E).
    + intros _. exists m. auto.
  - destruct (updateOne_upsert _ _ _) as [docs upserted]. simpl. split.
    + split; [intros _; exact Hs|reflexivity].
    + intros Hall. destruct Hs as (n & Hn & E). destruct (Hall n Hn E).
Qed.

Lemma write_retries_updateOne_three_times_witness :
  status (fst (post_cache
                 {| connection_fails := false; findOne_fails := false;
                    deleteOne_fails := false;
                    updateOne_fails := fun n => if Nat.ltb n 2 then Some "timeout" else None |}
                 0 0 (put_request "videos" "list_1" Samples.first_payload) ∅)) = 200
  /\ exists m, post_cache (CacheClient.faults Samples.store_down) 0 0
                 (put_request "videos" "list_1" Samples.first_payload) ∅
               = ({| status := 500; body := StoreFailed "Failed to store cache" m |}, ∅).
Proof.
  split.
  - apply (proj1 (write_retries_updateOne_three_times
                    {| connection_fails := false; findOne_fails := false;
                       deleteOne_fails := false;
                       updateOne_fails := fun n => if Nat.ltb n 2 then Some "timeout" else None |}
                    0 0 "videos" "list_1" Samples.first_payload ∅
                    eq_refl eq_refl ltac:(discriminate) eq_refl ltac:(vm_compute; discriminate))).
    exists 2%nat. split; [lia|reflexivity].
  - destruct (proj2 (write_retries_updateOne_three_times
                       (CacheClient.faults Samples.store_down)
                       0 0 "videos" "list_1" Samples.first_payload ∅
                       eq_refl eq_refl ltac:(discriminate) eq_refl
                       ltac:(vm_compute; discriminate))) as (m & _ & E).
    + intros n _. discriminate.
    + exists m. exact E.
Defined.

End CacheStoreMore.

(** * Further properties of the cache client *)
Module CacheClientMore.
Import JS CacheStore CacheClient CacheAttempts CacheStoreFacts CacheClientFacts CacheStoreMore.

Lemma goes_through_false world req db j :
  goes_through world req db j = false ->
  network_error (world j) <> None
  \/ (network_error (world j) = None /\ ok (fst (answer world req db j)) = false
      /\ snd (answer world req db j) = db).
Proof.
  unfold goes_through. destruct (network_error (world j)); [left; discriminate|].
  intros H. right. split; [reflexivity|]. split; [exact H|].
  unfold answer in *.
  destruct (post_cache_rejection (faults (world j)) (server_now (world j))
              (server_now' (world j)) req db) as [E|[E _]]; [|exact E].
  unfold ok in H. rewrite E in H. discriminate.
Qed.

Lemma post_with_retries_first_success world req db : forall turns attempts lastError j,
  (attempts <= j < attempts + turns)%nat ->
  (forall i, (attempts <= i < j)%nat -> goes_through world req db i = false) ->
  goes_through world req db j = true ->
  post_with_retries turns attempts world req lastError db
  = (Fulfilled (body (fst (answer world req db j))), snd (answer world req db j), S j).
Proof.
  induction turns as [|turns IH]; intros attempts lastError j Hj Hbefore Hok; [lia|].
  cbn [post_with_retries].
  destruct (decide (attempts = j)) as [->|Hne].
  - unfold goes_through in Hok. destruct (network_error (world j)); [discriminate|].
    unfold answer in *. destruct (post_cache _ _ _ req db) as [response db'].
    simpl in Hok |- *. rewrite Hok. reflexivity.
  - destruct (goes_through_false world req db attempts (Hbefore attempts ltac:(lia)))
      as [Hn|(Hn & Hnok & Hdb)].
    + destruct (network_error (world attempts)); [|contradiction].
      apply IH; [lia| |exact Hok]. intros i Hi. apply Hbefore. lia.
    + rewrite Hn. unfold answer in Hnok, Hdb.
      destruct (post_cache _ _ _ req db) as [response db']. simpl in Hnok, Hdb.
      rewrite Hnok. subst db'. apply IH; [lia| |exact Hok]. intros i Hi. apply Hbefore. lia.
Qed.

Lemma post_with_retries_all_fail world req db : forall turns attempts lastError,
  (forall i, (attempts <= i < attempts + turns)%nat -> goes_through world req db i = false) ->
  exists m, post_with_retries turns attempts world req lastError db
            = (Rejected m, db, (attempts + turns)%nat).
Proof.
  induction turns as [|turns IH]; intros attempts lastError Hall; cbn [post_with_retries].
  - exists lastError. rewrite Nat.add_0_r. reflexivity.
  - replace (attempts + S turns)%nat with (S attempts + turns)%nat by lia.
    destruct (goes_through_false world req db attempts (Hall attempts ltac:(lia)))
      as [Hn|(Hn & Hnok & Hdb)].
    + destruct (network_error (world attempts)); [|contradiction].
      apply IH. intros i Hi. apply Hall. lia.
    + rewrite Hn. unfold answer in Hnok, Hdb.
      destruct (post_cache _ _ _ req db) as [response db']. simpl in Hnok, Hdb.
      rewrite Hnok. subst db'. apply IH. intros i Hi. apply Hall. lia.
Qed.

(** X6. [cacheData] sends at most three requests.  With a key, truthy data
    and a recognized field to send, it fulfils at the first of its three
    attempts that reaches the server and is answered 2xx, with that answer
    and the database as that answer left it, and sends nothing after it;
    when none of the three attempts goes through it rejects after the third
    and the database is as it was. *)
Theorem cacheData_stops_at_first_success (world : nat -> Attempt) (k name : string)
    (data : JSON) (db : Database) :
  k <> "" -> truthy data = true -> validatedData data <> [] ->
  (forall j, (j < 3)%nat ->
     (forall i, (i < j)%nat -> goes_through world (cache_request k name data) db i = false) ->
     goes_through world (cache_request k name data) db j = true ->
     cacheData world k data name db
     = (Fulfilled (body (fst (answer world (cache_request k name data) db j))),
        snd (answer world (cache_request k name data) db j), S j))
  /\ ((forall i, (i < 3)%nat -> goes_through world (cache_request k name data) db i = false) ->
      exists m, cacheData world k data name db = (Rejected m, db, 3%nat)).
Proof.
  intros Hk Ht Hv.
  assert (E : cacheData world k data name db
              = post_with_retries maxAttempts 0 world (cache_request k name data) "" db).
  { unfold cacheData, cache_request. rewrite Ht.
    destruct (String.eqb_spec k ""); [contradiction|]. simpl.
    destruct (validatedData data); [contradiction|reflexivity]. }
  rewrite E. split.
  - intros j Hj Hbefore Hok. apply post_with_retries_first_success.
    + unfold maxAttempts. lia.
    + intros i Hi. apply Hbefore. lia.
    + exact Hok.
  - intros Hall.
    apply (post_with_retries_all_fail world (cache_request k name data) db maxAttempts 0 "").
    intros i Hi. apply Hall. unfold maxAttempts in Hi. lia.
Qed.

Lemma cacheData_stops_at_first_success_witness :
  cacheData (fun j => if Nat.eqb j 0 then Samples.store_down else calm 5) "list_1"
    Samples.first_payload "videos" ∅
  = (Fulfilled (Stored "Cache stored successfully" 43200005 "inserted"),
     snd (post_cache no_faults 5 5 (put_request "videos" "list_1" Samples.first_payload) ∅),
     2%nat).
Proof.
  refine (proj1 (cacheData_stops_at_first_success
                   (fun j => if Nat.eqb j 0 then Samples.store_down else calm 5) "list_1"
                   "videos" Samples.first_payload ∅ _ _ _) 1%nat _ _ _).
  - discriminate.
  - reflexivity.
  - discriminate.
  - lia.
  - intros i Hi. assert (i = 0%nat) as -> by lia. vm_compute. reflexivity.
  - vm_compute. reflexivity.
Defined.

Lemma post_with_retries_fulfilled world req db : forall turns attempts lastError b db' n,
  post_with_retries turns attempts world req lastError db = (Fulfilled b, db', n) ->
  exists j, n = S j /\ network_error (world j) = None
    /\ status (fst (answer world req db j)) = 200
    /\ b = body (fst (answer world req db j)) /\ db' = snd (answer world req db j).
Proof.
  induction turns as [|turns IH]; intros attempts lastError b db' n; cbn [post_with_retries];
    [discriminate|].
  destruct (network_error (world attempts)) eqn:En; [apply IH|].
  destruct (post_cache_rejection (faults (world attempts)) (server_now (world attempts))
              (server_now' (world attempts)) req db) as [E|[Edb Enok]].
  - destruct (post_cache _ _ _ req db) as [response db1] eqn:Ep. simpl in E.
    unfold ok. rewrite E. simpl. intros [= <- <- <-].
    exists attempts. unfold answer. rewrite Ep. simpl. auto.
  - destruct (post_cache _ _ _ req db) as [response db1] eqn:Ep. simpl in Edb, Enok.
    rewrite Enok. subst db1. apply IH.
Qed.

Lemma cacheData_fulfilled world k name data db b db' n :
  cacheData world k data name db = (Fulfilled b, db', n) ->
  exists j, n = S j /\ network_error (world j) = None
    /\ status (fst (answer world (cache_request k name data) db j)) = 200
    /\ b = body (fst (answer world (cache_request k name data) db j))
    /\ db' = snd (answer world (cache_request k name data) db j).
Proof.
  unfold cacheData. destruct (negb (String.eqb k "") && truthy data); [|discriminate].
  destruct (validatedData data) as [|x l] eqn:Ev; [discriminate|].
  unfold cache_request. rewrite Ev. apply post_with_retries_fulfilled.
Qed.

(** What a calm read finds after a fulfilled [cacheData], before the expiry
    of the entry it wrote. *)
Lemma read_after_cacheData world k name data db b db' n t :
  cacheData world k data name db = (Fulfilled b, db', n) ->
  t < expiry_of name (server_now (world (n - 1)%nat)) ->
  getCachedData (calm t) k name db'
  = (Some (merged_fields (JObj (validatedData data)) (stored_under k (db_collection db name))),
     db').
Proof.
  intros Hc Ht. apply cacheData_fulfilled in Hc as (j & -> & _ & Hs & _ & ->).
  replace (S j - 1)%nat with j in Ht by lia. unfold answer in *.
  destruct (post_cache_cases (faults (world j)) (server_now (world j)) (server_now' (world j))
              (cache_request k name data) db)
    as [[_ Hbad]|(name' & k' & data' & Hn & Hk & Hd & Hvalid & Hne & _ & E)]; [contradiction|].
  simpl in Hn, Hk, Hd. injection Hn as <-. injection Hk as <-. injection Hd as <-.
  destruct (DB_collections_valid _ _ Hvalid) as [_ Hname].
  rewrite E. cbn [snd].
  unfold getCachedData, post_cache_get, getCacheMiddleware, str_or. simpl.
  rewrite (middleware_valid _ _ Hvalid).
  destruct (String.eqb_spec k "") as [|_]; [contradiction|]. simpl.
  unfold lookup_live. simpl.
  rewrite db_collection_insert. destruct (decide (name = name)); [|contradiction].
  rewrite (findOne_after_upsert k t _ _ (expiry_of name (server_now (world j))));
    [|reflexivity|reflexivity|exact Ht].
  simpl. rewrite dataToReturn_stored. reflexivity.
Qed.

Lemma assoc_app name (l1 l2 : list (string * JSON)) :
  assoc name (l1 ++ l2)%list = or_else (assoc name l1) (assoc name l2).
Proof.
  induction l1 as [|[k v] l1 IH]; simpl; [reflexivity|].
  destruct (String.eqb k name); [reflexivity|exact IH].
Qed.

Lemma assoc_field_truthy name' name keep v x :
  (keep = true -> truthy_opt v = true) ->
  assoc name' (field name keep v) = Some x -> truthy x = true.
Proof.
  unfold field. intros Hkeep. destruct v as [y|]; [|discriminate].
  destruct keep; [|discriminate]. simpl.
  destruct (String.eqb name name'); [|discriminate].
  intros [= <-]. apply Hkeep. reflexivity.
Qed.

(** Every field of a validated payload is truthy, so the server stores it. *)
Lemma validated_fields_truthy data name :
  keep_truthy (prop name (JObj (validatedData data))) = prop name (JObj (validatedData data)).
Proof.
  cbn [prop]. destruct (assoc name (validatedData data)) as [x|] eqn:E; [|reflexivity].
  assert (Hx : truthy x = true); [|unfold keep_truthy; simpl; rewrite Hx; reflexivity].
  assert (Hv : isArray (prop "videos" data) = true -> truthy_opt (prop "videos" data) = true).
  { destruct (prop "videos" data) as [[]|]; simpl; intros; (discriminate || reflexivity). }
  assert (Hc : truthy_object (prop "categories" data) = true ->
               truthy_opt (prop "categories" data) = true).
  { destruct (prop "categories" data) as [[]|]; simpl; intros; (discriminate || reflexivity). }
  unfold validatedData in E. rewrite !assoc_app in E.
  repeat match type of E with
         | or_else ?a _ = Some _ =>
             let Ea := fresh "Ea" in
             destruct a eqn:Ea; [simpl in E; injection E as ->|simpl in E]
         end.
  - exact (assoc_field_truthy _ _ _ _ _ Hv Ea).
  - exact (assoc_field_truthy _ _ _ _ _ (fun H => H) Ea0).
  - exact (assoc_field_truthy _ _ _ _ _ (fun H => H) Ea1).
  - exact (assoc_field_truthy _ _ _ _ _ Hc E).
Qed.

(** X7. What [cacheData] has stored, [getCachedData] returns: after a
    fulfilled [cacheData] under a key that held nothing before, a read of
    the same collection and key before the expiry returns exactly the fields
    that passed validation, and changes nothing in the database. *)
Theorem cached_data_reads_back (world : nat -> Attempt) (k name : string) (data : JSON)
    (db db' : Database) (b : Body) (n : nat) (t : Z) :
  cacheData world k data name db = (Fulfilled b, db', n) ->
  stored_under k (db_collection db name) = None ->
  t < expiry_of name (server_now (world (n - 1)%nat)) ->
  getCachedData (calm t) k name db'
  = (Some (recognized_fields (JObj (validatedData data))), db').
Proof.
  intros Hc Hfresh Ht. rewrite (read_after_cacheData _ _ _ _ _ _ _ _ _ Hc Ht), Hfresh.
  do 2 f_equal. unfold merged_fields, recognized_fields. cbn [mbind option_bind].
  rewrite !validated_fields_truthy.
  f_equal; match goal with |- or_else ?x _ = _ => destruct x; reflexivity end.
Qed.

Lemma cached_data_reads_back_witness :
  getCachedData (calm 3600000) "channel_handle_MrBeast_resolved" "channels"
    (snd (fst (cacheData (fun _ => calm 0) "channel_handle_MrBeast_resolved"
                 (JObj [("channelId", JStr "UCX6OQ3DkcsbYNE6H8uQQuVA");
                        ("uploadsPlaylistId", JStr "UUX6OQ3DkcsbYNE6H8uQQuVA");
                        ("resolvedAt", JNum 0)]) "channels" ∅)))
  = (Some {| p_videos := None;
             p_channelId := Some (JStr "UCX6OQ3DkcsbYNE6H8uQQuVA");
             p_uploadsPlaylistId := Some (JStr "UUX6OQ3DkcsbYNE6H8uQQuVA");
             p_categories := None |},
     snd (fst (cacheData (fun _ => calm 0) "channel_handle_MrBeast_resolved"
                 (JObj [("channelId", JStr "UCX6OQ3DkcsbYNE6H8uQQuVA");
                        ("uploadsPlaylistId", JStr "UUX6OQ3DkcsbYNE6H8uQQuVA");
                        ("resolvedAt", JNum 0)]) "channels" ∅))).
Proof.
  refine (cached_data_reads_back (fun _ => calm 0) "channel_handle_MrBeast_resolved" "channels"
            (JObj [("channelId", JStr "UCX6OQ3DkcsbYNE6H8uQQuVA");
                   ("uploadsPlaylistId", JStr "UUX6OQ3DkcsbYNE6H8uQQuVA");
                   ("resolvedAt", JNum 0)]) ∅ _
            (Stored "Cache stored successfully" 86400000 "inserted") 1 3600000 _ _ _).
  - vm_compute. reflexivity.
  - reflexivity.
  - vm_compute. reflexivity.
Defined.

End CacheClientMore.

(** * Further properties of the batch categorizer *)
Module CategorizeMore.
Import JS CacheStore CacheClient Categorize CacheStoreFacts CacheClientFacts CategorizeFacts
       CacheAttempts CacheClientMore.

Lemma chunks_concat {A} (s : nat) : forall (n : nat) (l : list A),
  (length l <= n * s)%nat ->
  List.concat (List.map (fun i => take s (drop (i * s) l)) (seq 0 n)) = l.
Proof.
  induction n as [|n IH]; intros l Hl.
  - destruct l; [reflexivity|simpl in Hl; lia].
  - cbn [seq List.map List.concat]. rewrite <- seq_shift, List.map_map.
    rewrite Nat.mul_0_l. cbn [drop].
    transitivity (take s l ++ drop s l)%list; [|apply take_drop]. f_equal.
    etransitivity; [|apply (IH (drop s l)); rewrite length_drop; lia].
    f_equal. apply List.map_ext. intros i.
    rewrite drop_drop; f_equal; f_equal; lia.
Qed.

Lemma ceil_div_bounds (len s : nat) :
  (0 < s)%nat ->
  (len <= (len + s - 1) / s * s)%nat
  /\ forall i, (i < (len + s - 1) / s)%nat -> (i * s < len)%nat.
Proof.
  intros Hs.
  pose proof (Nat.div_mod_eq (len + s - 1) s) as Hd.
  pose proof (Nat.mod_upper_bound (len + s - 1) s ltac:(lia)) as Hm.
  split; [nia|]. intros i Hi. nia.
Qed.

(** X8. The batches partition the video list: in order they concatenate to
    the list itself, none is empty, none holds more than [BATCH_SIZE] videos,
    every batch but the last holds exactly [BATCH_SIZE], and there is no
    batch exactly when there is no video. *)
Theorem batches_partition_the_videos (videos : list Video) :
  List.concat (List.map (batchVideos videos) (seq 0 (totalBatches videos))) = videos
  /\ (forall i, (i < totalBatches videos)%nat ->
        (1 <= length (batchVideos videos i) <= BATCH_SIZE)%nat)
  /\ (forall i, (S i < totalBatches videos)%nat ->
        length (batchVideos videos i) = BATCH_SIZE)
  /\ (totalBatches videos = 0%nat <-> videos = []).
Proof.
  assert (Hs : (0 < BATCH_SIZE)%nat) by (unfold BATCH_SIZE; lia).
  destruct (ceil_div_bounds (length videos) BATCH_SIZE Hs) as [Hcover Hinside].
  fold (totalBatches videos) in Hcover, Hinside.
  split; [|split; [|split]].
  - unfold batchVideos. apply chunks_concat. exact Hcover.
  - intros i Hi. unfold batchVideos. rewrite length_take, length_drop.
    specialize (Hinside i Hi). lia.
  - intros i Hi. unfold batchVideos. rewrite length_take, length_drop.
    specialize (Hinside (S i) Hi). lia.
  - split.
    + intros E. rewrite E in Hcover. destruct videos; [reflexivity|simpl in Hcover; lia].
    + intros ->. reflexivity.
Qed.

Lemma Promise_all_snoc_rejected {A} (promises : list (Outcome A)) p msg :
  Promise_all (promises ++ [p]) = Rejected msg ->
  Promise_all promises = Rejected msg
  \/ exists rs, Promise_all promises = Fulfilled rs /\ p = Rejected msg.
Proof.
  induction promises as [|[a|m] promises IH]; simpl.
  - destruct p as [r|m]; [discriminate|]. intros [= <-]. right. exists []. auto.
  - destruct (Promise_all (promises ++ [p])) as [rs'|m'] eqn:E; [discriminate|].
    intros [= <-]. destruct (IH eq_refl) as [H|(rs & H & Hp)].
    + left. rewrite H. reflexivity.
    + right. exists (a :: rs). rewrite H. auto.
  - intros [= <-]. left. reflexivity.
Qed.

(** The loop over batch numbers that end with the last batch fulfils with
    the merge of the pending promises and then of the batches, in order. *)
Lemma batch_loop_fold w videos : forall pre batchPromises allCategories r,
  batch_loop w videos (pre ++ [(totalBatches videos - 1)%nat]) batchPromises allCategories
    = Fulfilled r ->
  exists ps ms,
    Promise_all batchPromises = Fulfilled ps
    /\ Forall2 (fun i m => batchPromise w videos i = Fulfilled m)
         (pre ++ [(totalBatches videos - 1)%nat]) ms
    /\ r = fold_left merge_batch (ps ++ ms) allCategories.
Proof.
  induction pre as [|i pre IH]; intros pending allCategories r.
  - cbn [app batch_loop]. rewrite Nat.eqb_refl, orb_true_r.
    destruct (Promise_all (pending ++ [_])) as [results|] eqn:E; [|discriminate].
    intros [= <-]. apply Promise_all_snoc in E as (ps & m & Hps & Hm & ->).
    exists ps, [m]. split; [exact Hps|]. split; [|reflexivity].
    constructor; [exact Hm|constructor].
  - cbn [app batch_loop].
    destruct (Nat.leb _ _ || Nat.eqb _ _).
    + destruct (Promise_all (pending ++ [_])) as [results|] eqn:E; [|discriminate].
      intros H. apply IH in H as (ps0 & ms & Hps0 & Hms & ->). injection Hps0 as <-.
      apply Promise_all_snoc in E as (ps & m & Hps & Hm & ->).
      exists ps, (m :: ms). split; [exact Hps|]. split; [constructor; assumption|].
      cbn [app]. rewrite <- fold_left_app, <- app_assoc. reflexivity.
    + intros H. apply IH in H as (ps' & ms & E & Hms & ->).
      apply Promise_all_snoc in E as (ps & m & Hps & Hm & ->).
      exists ps, (m :: ms). split; [exact Hps|]. split; [constructor; assumption|].
      rewrite <- app_assoc. reflexivity.
Qed.

Lemma batch_loop_rejected w videos msg : forall pre batchPromises allCategories,
  batch_loop w videos (pre ++ [(totalBatches videos - 1)%nat]) batchPromises allCategories
    = Rejected msg ->
  Promise_all batchPromises = Rejected msg
  \/ exists i, In i (pre ++ [(totalBatches videos - 1)%nat])
               /\ batchPromise w videos i = Rejected msg.
Proof.
  induction pre as [|i pre IH]; intros pending allCategories.
  - cbn [app batch_loop]. rewrite Nat.eqb_refl, orb_true_r.
    destruct (Promise_all (pending ++ [_])) as [results|m] eqn:E; [discriminate|].
    intros [= <-]. apply Promise_all_snoc_rejected in E as [H|(rs & _ & H)]; [left; exact H|].
    right. eexists. split; [left; reflexivity|exact H].
  - cbn [app batch_loop].
    destruct (Nat.leb _ _ || Nat.eqb _ _).
    + destruct (Promise_all (pending ++ [_])) as [results|m] eqn:E.
      * intros H. apply IH in H as [H|(j & Hj & H)]; [discriminate|].
        right. exists j. split; [right; exact Hj|exact H].
      * intros [= <-]. apply Promise_all_snoc_rejected in E as [H|(rs & _ & H)];
          [left; exact H|].
        right. exists i. split; [left; reflexivity|exact H].
    + intros H. apply IH in H as [H|(j & Hj & H)].
      * apply Promise_all_snoc_rejected in H as [H|(rs & _ & H)]; [left; exact H|].
        right. exists i. split; [left; reflexivity|exact H].
      * right. exists j. split; [right; exact Hj|exact H].
Qed.

Lemma batch_numbers videos :
  totalBatches videos <> 0%nat ->
  seq 0%nat (totalBatches videos)
  = (seq 0%nat (totalBatches videos - 1) ++ [(totalBatches videos - 1)%nat])%list.
Proof.
  intros H. destruct (totalBatches videos) as [|n]; [contradiction|].
  rewrite seq_S. replace (S n - 1)%nat with n by lia. reflexivity.
Qed.

(** What [dispatch] fulfils with: the merge, in order, of what the batches
    fulfil with. *)
Lemma dispatch_fold w videos r :
  dispatch w videos = Fulfilled r ->
  exists ms,
    Forall2 (fun i m => batchPromise w videos i = Fulfilled m)
      (seq 0%nat (totalBatches videos)) ms
    /\ r = fold_left merge_batch ms ∅.
Proof.
  unfold dispatch. destruct (Nat.eq_dec (totalBatches videos) 0%nat) as [E|Hne].
  - rewrite E. simpl. intros [= <-]. exists []. split; [constructor|reflexivity].
  - rewrite (batch_numbers videos Hne). intros H.
    apply batch_loop_fold in H as (ps & ms & Hps & Hms & ->). injection Hps as <-.
    exists ms. auto.
Qed.

Lemma dispatch_rejected w videos msg :
  dispatch w videos = Rejected msg ->
  exists i, (i < totalBatches videos)%nat /\ batchPromise w videos i = Rejected msg.
Proof.
  unfold dispatch.
  destruct (Nat.eq_dec (totalBatches videos) 0%nat) as [E|Hne].
  - rewrite E. discriminate.
  - rewrite (batch_numbers videos Hne). intros H.
    apply batch_loop_rejected in H as [H|(i & Hi & H)]; [discriminate|].
    exists i. split; [|exact H]. rewrite <- (batch_numbers videos Hne) in Hi.
    apply in_seq in Hi. lia.
Qed.

(** X9. The job stands or falls with its batch promises: it fulfils exactly
    when every batch promise fulfils, and when it rejects it does so with the
    message of a batch promise that rejected.  A batch whose answer fails to
    parse is not a rejection: its promise fulfils with no category. *)
Theorem dispatch_fulfils_iff_every_batch_does (w : World) (videos : list Video) :
  ((exists allCategories, dispatch w videos = Fulfilled allCategories)
   <-> forall i, (i < totalBatches videos)%nat ->
         exists m, batchPromise w videos i = Fulfilled m)
  /\ (forall msg, dispatch w videos = Rejected msg ->
        exists i, (i < totalBatches videos)%nat /\ batchPromise w videos i = Rejected msg)
  /\ (forall i c rest, geminiApiKey w = Some (String c rest) ->
        gemini w i (batchVideos videos i) = ParseError ->
        batchPromise w videos i = Fulfilled ∅).
Proof.
  pose proof (dispatch_rejected w videos) as Hrej.
  split; [|split; [exact Hrej|]].
  - split.
    + intros (allCategories & H) i Hi.
      apply dispatch_fold in H as (ms & Hms & _).
      assert (Hin : In i (seq 0%nat (totalBatches videos))) by (apply in_seq; lia).
      clear Hi. induction Hms as [|j m js ms Hj Hms IH]; [contradiction|].
      destruct Hin as [->|Hin]; [eauto|auto].
    + intros Hall. destruct (dispatch w videos) as [r|msg] eqn:E; [eauto|].
      destruct (Hrej msg eq_refl) as (i & Hi & Hr).
      destruct (Hall i Hi) as (m & Hm). congruence.
  - intros i c rest Hkey Hg. unfold batchPromise. rewrite Hkey, Hg. reflexivity.
Qed.

Lemma merge_empty : merge_batch ∅ ∅ = ∅.
Proof.
  unfold merge_batch. apply map_eq. intros cat.
  rewrite lookup_union_with, lookup_empty. reflexivity.
Qed.

Lemma add_categories_nil videos m : add_categories videos m [] = Fulfilled m.
Proof. reflexivity. Qed.

(** X10. When every batch answers with text that fails to parse, or with an
    empty array, the categorizer ends with the failure [No categories were
    generated.]: nothing is displayed and nothing is written to the cache. *)
Theorem unparseable_answers_produce_no_categories (w : World) (videos : list Video)
    (db : Database) (c : ascii) (rest : string) :
  videos <> [] ->
  geminiApiKey w = Some (String c rest) ->
  (forall i, (i < totalBatches videos)%nat ->
     gemini w i (batchVideos videos i) = ParseError
     \/ gemini w i (batchVideos videos i) = Parsed []) ->
  fst (getCachedData (cache_read w) (categorizationKey videos) "categories" db)
    ≫= p_categories = None ->
  dispatch w videos = Fulfilled ∅
  /\ categorizeVideos w videos db
     = (failed w "No categories were generated.",
        snd (getCachedData (cache_read w) (categorizationKey videos) "categories" db)).
Proof.
  intros Hne Hkey Hall Hmiss.
  assert (Hbatch : forall i, (i < totalBatches videos)%nat ->
            batchPromise w videos i = Fulfilled ∅).
  { intros i Hi. unfold batchPromise. rewrite Hkey.
    destruct (Hall i Hi) as [-> | ->]; reflexivity. }
  assert (Hd : dispatch w videos = Fulfilled ∅).
  { destruct (dispatch w videos) as [r|msg] eqn:E.
    - apply dispatch_fold in E as (ms & Hms & ->). f_equal.
      assert (Hin : forall i, In i (seq 0%nat (totalBatches videos)) ->
                (i < totalBatches videos)%nat) by (intros i Hi; apply in_seq in Hi; lia).
      induction Hms as [|j m js ms Hj Hms IH]; [reflexivity|].
      rewrite (Hbatch j (Hin j (or_introl eq_refl))) in Hj. injection Hj as <-.
      cbn [fold_left]. rewrite merge_empty. apply IH. intros i Hi. apply Hin. right. exact Hi.
    - destruct (dispatch_rejected w videos msg E) as (i & Hi & Hr).
      rewrite (Hbatch i Hi) in Hr. discriminate. }
  split; [exact Hd|].
  unfold categorizeVideos. destruct videos as [|v videos]; [contradiction|].
  destruct (getCachedData _ _ _ _) as [cached db1]. simpl in Hmiss |- *.
  rewrite Hmiss, Hd. destruct (decide (∅ = ∅)); [reflexivity|contradiction].
Qed.

Lemma unparseable_answers_produce_no_categories_witness :
  dispatch MoreSamples.garbled_world Samples.one_video = Fulfilled ∅
  /\ categorizeVideos MoreSamples.garbled_world Samples.one_video ∅
     = (failed MoreSamples.garbled_world "No categories were generated.",
        snd (getCachedData (cache_read MoreSamples.garbled_world)
               (categorizationKey Samples.one_video) "categories" ∅)).
Proof.
  apply (unparseable_answers_produce_no_categories MoreSamples.garbled_world Samples.one_video ∅
           "g"%char "emini-key").
  - discriminate.
  - reflexivity.
  - intros i _. left. reflexivity.
  - vm_compute. reflexivity.
Defined.

Lemma categories_payload allCategories old :
  p_categories
    (merged_fields (JObj (validatedData (JObj [("categories", categories_json allCategories)])))
       old)
  = Some (categories_json allCategories).
Proof. reflexivity. Qed.

(** X11. Categories that were stored are not asked for again.  When a run
    of the categorizer has classified the videos and stored the result, a
    later run on the same videos, started before the entry expires, displays
    the same categories from the cache, whatever the classifier would answer
    then, and leaves the database as it is. *)
Theorem stored_categories_are_reused (w w' : World) (videos : list Video)
    (db db2 : Database) (allCategories : gmap string (list Video)) (b : Body) (n : nat)
    (t : Z) :
  videos <> [] ->
  fst (getCachedData (cache_read w) (categorizationKey videos) "categories" db)
    ≫= p_categories = None ->
  dispatch w videos = Fulfilled allCategories ->
  allCategories <> ∅ ->
  cacheData (cache_write w) (categorizationKey videos)
    (JObj [("categories", categories_json allCategories)]) "categories"
    (snd (getCachedData (cache_read w) (categorizationKey videos) "categories" db))
    = (Fulfilled b, db2, n) ->
  cache_read w' = calm t ->
  t < expiry_of "categories" (server_now (cache_write w (n - 1)%nat)) ->
  categorizeVideos w videos db
    = ([DisplayCategories (categories_json allCategories); LoadingStatus None], db2)
  /\ categorizeVideos w' videos db2
     = ([DisplayCategories (categories_json allCategories); LoadingStatus None], db2).
Proof.
  intros Hne Hmiss Hd Hnonempty Hwrite Hread Ht. split.
  - unfold categorizeVideos. destruct videos as [|v videos]; [contradiction|].
    destruct (getCachedData _ _ _ _) as [cached db1]. simpl in Hmiss, Hwrite.
    rewrite Hmiss, Hd. destruct (decide (allCategories = ∅)); [contradiction|].
    rewrite Hwrite. reflexivity.
  - unfold categorizeVideos. destruct videos as [|v videos]; [contradiction|].
    rewrite Hread, (read_after_cacheData _ _ _ _ _ _ _ _ _ Hwrite Ht).
    cbn [mbind option_bind]. rewrite categories_payload. reflexivity.
Qed.

Lemma stored_categories_are_reused_witness :
  categorizeVideos Samples.echo_world Samples.one_video ∅
    = ([DisplayCategories (categories_json {[ "Everything" := Samples.one_video ]});
        LoadingStatus None],
       snd (fst (cacheData (cache_write Samples.echo_world) (categorizationKey Samples.one_video)
                   (JObj [("categories",
                           categories_json {[ "Everything" := Samples.one_video ]})])
                   "categories" ∅)))
  /\ categorizeVideos MoreSamples.garbled_world Samples.one_video
       (snd (fst (cacheData (cache_write Samples.echo_world)
                    (categorizationKey Samples.one_video)
                    (JObj [("categories",
                            categories_json {[ "Everything" := Samples.one_video ]})])
                    "categories" ∅)))
     = ([DisplayCategories (categories_json {[ "Everything" := Samples.one_video ]});
         LoadingStatus None],
        snd (fst (cacheData (cache_write Samples.echo_world)
                    (categorizationKey Samples.one_video)
                    (JObj [("categories",
                            categories_json {[ "Everything" := Samples.one_video ]})])
                    "categories" ∅))).
Proof.
  refine (stored_categories_are_reused Samples.echo_world MoreSamples.garbled_world
            Samples.one_video ∅ _ {[ "Everything" := Samples.one_video ]}
            (Stored "Cache stored successfully" 172800000 "inserted") 1 3600000
            _ _ _ _ _ _ _).
  - discriminate.
  - vm_compute. reflexivity.
  - vm_compute. reflexivity.
  - intros E. apply (f_equal (fun m => m !! "Everything")) in E. vm_compute in E.
    discriminate.
  - vm_compute. reflexivity.
  - reflexivity.
  - vm_compute. reflexivity.
Defined.

End CategorizeMore.

(** * Further properties of the key pool and its routes *)
Module KeyRotationMore.
Import JS KeyRotation KeyRoutes KeyRotationFacts.

Lemma lookup_tracking {A} (f : nat -> A) (n : nat) : forall a i,
  (list_to_map (List.map (fun j => (j, f j)) (seq a n)) : gmap nat A) !! i
  = if decide (a <= i < a + n)%nat then Some (f i) else None.
Proof.
  induction n as [|n IH]; intros a i.
  - simpl. rewrite lookup_empty. destruct (decide _); [lia|reflexivity].
  - cbn [seq List.map]. rewrite list_to_map_cons. destruct (decide (a = i)) as [->|Hne].
    + rewrite lookup_insert_eq. destruct (decide _); [reflexivity|lia].
    + rewrite lookup_insert_ne by exact Hne. rewrite IH.
      destruct (decide (S a <= i < S a + n)%nat), (decide (a <= i < a + S n)%nat);
        try reflexivity; lia.
Qed.

Lemma pool_ok_init env now0 : pool_ok env [now0] (initializeKeyTracking env now0).
Proof.
  constructor; simpl.
  - reflexivity.
  - intros Hne. destruct (getYouTubeApiKeys env); [contradiction|simpl; lia].
  - intros i. rewrite (lookup_tracking (fun _ => 0)).
    destruct (decide _), (decide _); try reflexivity; lia.
  - intros i Hi. exists now0. split; [|left; reflexivity].
    rewrite (lookup_tracking (fun _ => now0)). destruct (decide _); [reflexivity|lia].
  - intros i Hi. rewrite (lookup_tracking (fun _ => now0)).
    destruct (decide _); [lia|reflexivity].
Qed.

Lemma pool_ok_weaken env times times' p :
  (forall r, In r times -> In r times') -> pool_ok env times p -> pool_ok env times' p.
Proof.
  intros Hsub [H1 H2 H3 H4 H5]. constructor; try assumption.
  intros i Hi. destruct (H4 i Hi) as (r & Hr & Hin). eauto.
Qed.

Lemma pool_ok_step env times now p :
  pool_ok env times p ->
  pool_ok env (times ++ [now]) (fst (rotateYoutubeKey env now p)).
Proof.
  intros Hok. pose proof Hok as [H1 H2 H3 H4 H5].
  rewrite (rotateYoutubeKey_unlocked env now p H1). cbn [fst].
  unfold rotate_locked. set (n := length (getYouTubeApiKeys env)) in *.
  destruct (Nat.eqb_spec n 0) as [E|Hn].
  - constructor; simpl; fold n; try assumption; try reflexivity.
    intros i Hi. lia.
  - assert (Hi : ((currentKeyIndex p + 1) mod n < n)%nat) by (apply Nat.mod_upper_bound, Hn).
    set (i := ((currentKeyIndex p + 1) mod n)%nat) in *.
    constructor; cbn [keyRotationLock currentKeyIndex usageCount quotaResets]; fold n.
    + reflexivity.
    + intros _. exact Hi.
    + intros j. destruct (match quotaResets p !! i with Some _ => _ | None => _ end);
        cbn [fst usageCount]; [|apply H3].
      destruct (decide (i = j)) as [<-|Hne].
      * rewrite lookup_insert_eq. destruct (decide _); [reflexivity|lia].
      * rewrite lookup_insert_ne by exact Hne. apply H3.
    + intros j Hj. destruct (H4 j Hj) as (r & Hr & Hin).
      destruct (match quotaResets p !! i with Some _ => _ | None => _ end);
        cbn [fst quotaResets].
      * destruct (decide (i = j)) as [<-|Hne].
        -- rewrite lookup_insert_eq. exists now. split; [reflexivity|].
           apply in_or_app. right. left. reflexivity.
        -- rewrite lookup_insert_ne by exact Hne.
           exists r. split; [exact Hr|]. apply in_or_app. left. exact Hin.
      * exists r. split; [exact Hr|]. apply in_or_app. left. exact Hin.
    + intros j Hj. destruct (match quotaResets p !! i with Some _ => _ | None => _ end);
        cbn [fst quotaResets]; [|apply H5; exact Hj].
      rewrite lookup_insert_ne by lia. apply H5. exact Hj.
Qed.

Lemma pool_ok_many env nows : forall times p,
  pool_ok env times p -> pool_ok env (times ++ nows) (rotate_many env nows p).
Proof.
  induction nows as [|now rest IH]; intros times p Hok; simpl.
  - rewrite app_nil_r. exact Hok.
  - replace (times ++ now :: rest)%list with ((times ++ [now]) ++ rest)%list
      by (rewrite <- app_assoc; reflexivity).
    apply IH, pool_ok_step, Hok.
Qed.

(** X12. The bookkeeping of the key pool, whatever rotations have run since
    the start: the lock is free, the index points at a configured key, every
    configured key has a reset time that is the start or the time of one of
    the rotations, and its usage count is zero: no route ever counts a use.
    [GET /key-usage] therefore lists exactly the configured indices, each
    with count zero. *)
Theorem key_bookkeeping_is_kept (env : Env) (now0 : Z) (nows : list Z) :
  let n := length (getYouTubeApiKeys env) in
  let p := rotate_many env nows (initializeKeyTracking env now0) in
  keyRotationLock p = false
  /\ (n <> 0%nat -> currentKeyIndex p = (length nows mod n)%nat)
  /\ (forall i, (i < n)%nat ->
        usageCount p !! i = Some 0
        /\ exists r, quotaResets p !! i = Some r /\ In r (now0 :: nows))
  /\ (forall i, (n <= i)%nat -> usageCount p !! i = None /\ quotaResets p !! i = None)
  /\ fst (key_usage p) = currentKeyIndex p
  /\ (forall u, In u (snd (key_usage p))
        <-> exists i, (i < n)%nat
              /\ u = {| keyIndex := i; usageCount_of := 0;
                        lastReset := quotaResets p !! i |}).
Proof.
  intros n p.
  pose proof (pool_ok_many env nows [now0] _ (pool_ok_init env now0)) as Hok.
  fold p in Hok. cbn [app] in Hok. destruct Hok as [H1 H2 H3 H4 H5]. fold n in H2, H3, H4, H5.
  split; [exact H1|]. split; [|split; [|split; [|split]]].
  - intros Hn. unfold p. rewrite rotate_many_index.
    + reflexivity.
    + reflexivity.
    + simpl. fold n. lia.
  - intros i Hi. split; [|apply H4, Hi]. rewrite H3. destruct (decide _); [reflexivity|lia].
  - intros i Hi. split; [|apply H5, Hi]. rewrite H3. destruct (decide _); [lia|reflexivity].
  - reflexivity.
  - intros u. unfold key_usage. cbn [snd]. rewrite in_map_iff. split.
    + intros ([i c] & <- & Hin). apply list_elem_of_In, elem_of_map_to_list in Hin.
      rewrite H3 in Hin. destruct (decide (i < n)%nat) as [Hi|]; [|discriminate].
      injection Hin as <-. exists i. split; [exact Hi|reflexivity].
    + intros (i & Hi & ->). exists (i, 0). split; [reflexivity|].
      apply list_elem_of_In, elem_of_map_to_list. rewrite H3.
      destruct (decide _); [reflexivity|lia].
Qed.

Lemma key_first_head key keys : head (key_first key keys) = Some key.
Proof. reflexivity. Qed.

Lemma key_first_rotated k keys :
  key_first (Some k) keys = List.map Some (YouTube.rotated_keys (Some k) keys).
Proof. reflexivity. Qed.

(** X13. The key routes agree with each other and with the tab.  After a
    rotation on a server with keys, [POST /rotate-key] answers a list that
    starts with the key at the new index, holds every configured key, and
    does not repeat its first key; the tab takes that list as its keys; and
    [GET /config], asked afterwards, answers the same list. *)
Theorem rotation_and_config_agree (w : YouTube.World) (b : YouTube.Browser)
    (gemini : string) :
  keyRotationLock (YouTube.server b) = false ->
  getYouTubeApiKeys (YouTube.env w) <> [] ->
  gemini <> "" ->
  let keys := getYouTubeApiKeys (YouTube.env w) in
  let now := YouTube.clock w (YouTube.rotations b) in
  let b' := fst (YouTube.rotateApiKey w b) in
  exists k rest,
    keys !! currentKeyIndex (YouTube.server b') = Some k
    /\ currentKeyIndex (YouTube.server b')
       = ((currentKeyIndex (YouTube.server b) + 1) mod length keys)%nat
    /\ snd (rotate_key (YouTube.env w) now (YouTube.server b))
       = Some (Rotated (Some k :: List.map Some rest)
                 (currentKeyIndex (YouTube.server b')) (length keys))
    /\ YouTube.server b' = fst (rotate_key (YouTube.env w) now (YouTube.server b))
    /\ YouTube.currentApiKeys b' = k :: rest
    /\ snd (YouTube.rotateApiKey w b) = Fulfilled (Some k)
    /\ config (YouTube.env w) (Some gemini) (YouTube.server b')
       = Config (Some k :: List.map Some rest) gemini false
    /\ ~ In k rest
    /\ (forall k', In k' keys <-> k' = k \/ In k' rest).
Proof.
  intros Hl Hne Hg keys now b'.
  assert (Hn : length keys <> 0%nat) by (intros E; apply Hne, List.length_zero_iff_nil, E).
  set (i := ((currentKeyIndex (YouTube.server b) + 1) mod length keys)%nat).
  assert (Hi : (i < length keys)%nat) by (apply Nat.mod_upper_bound, Hn).
  destruct (lookup_lt_is_Some_2 keys i Hi) as [k Hk].
  pose proof (rotateYoutubeKey_unlocked (YouTube.env w) now (YouTube.server b) Hl) as Hrot.
  pose proof (rotate_locked_index (YouTube.env w) now (YouTube.server b) Hne) as Hidx.
  pose proof (rotate_locked_result (YouTube.env w) now (YouTube.server b) Hne) as Hres.
  fold keys in Hidx, Hres. fold i in Hidx, Hres. unfold key_at in Hres. fold keys in Hres.
  rewrite Hk in Hres.
  destruct (rotate_locked (YouTube.env w) now (YouTube.server b)) as [p' r] eqn:Er.
  simpl in Hidx, Hres, Hrot. subst r.
  exists k, (List.filter (fun k' => negb (String.eqb k' k)) keys).
  assert (Eb : YouTube.rotateApiKey w b
               = ({| YouTube.server := p'; YouTube.db := YouTube.db b;
                     YouTube.currentApiKeys := YouTube.rotated_keys (Some k) keys;
                     YouTube.rotations := S (YouTube.rotations b);
                     YouTube.events := YouTube.events b |}, Fulfilled (Some k))).
  { unfold YouTube.rotateApiKey. fold now. rewrite Hrot. reflexivity. }
  unfold b'. rewrite Eb. cbn [fst snd YouTube.server YouTube.currentApiKeys].
  unfold rotate_key. rewrite Hrot. cbn [fst snd]. fold keys. rewrite Hidx.
  split; [exact Hk|]. split; [reflexivity|]. split; [reflexivity|]. split; [reflexivity|].
  split; [reflexivity|]. split; [reflexivity|]. split; [|split].
  - unfold config. fold keys. replace (Nat.eqb (length keys) 0) with false
      by (symmetry; apply Nat.eqb_neq, Hn).
    destruct gemini as [|c g]; [contradiction|]. rewrite Hidx, Hk. reflexivity.
  - rewrite filter_In. intros [_ H]. rewrite String.eqb_refl in H. discriminate.
  - intros k'. rewrite filter_In. destruct (String.eqb_spec k' k) as [->|Hneq].
    + split; [auto|]. intros _. apply list_elem_of_In, list_elem_of_lookup. eauto.
    + split; [intros H; right; split; [exact H|reflexivity]|].
      intros [->|[H _]]; [contradiction|exact H].
Qed.

Lemma rotation_and_config_agree_witness :
  YouTube.currentApiKeys (fst (YouTube.rotateApiKey Samples.world5 Samples.browser5))
    = ["k2"; "k1"; "k3"; "k4"; "k5"]
  /\ snd (rotate_key env5 0 (YouTube.server Samples.browser5))
     = Some (Rotated [Some "k2"; Some "k1"; Some "k3"; Some "k4"; Some "k5"] 1 5)
  /\ config env5 (Some "gemini-key")
       (YouTube.server (fst (YouTube.rotateApiKey Samples.world5 Samples.browser5)))
     = Config [Some "k2"; Some "k1"; Some "k3"; Some "k4"; Some "k5"] "gemini-key" false.
Proof.
  destruct (rotation_and_config_agree Samples.world5 Samples.browser5 "gemini-key")
    as (k & rest & _ & Hi & Hr & _ & Hk & _ & Hc & _).
  - reflexivity.
  - discriminate.
  - discriminate.
  - assert (E : k :: rest = ["k2"; "k1"; "k3"; "k4"; "k5"]) by (rewrite <- Hk; reflexivity).
    injection E as -> ->. split; [exact Hk|]. split; [|exact Hc].
    rewrite Hi in Hr. exact Hr.
Defined.

End KeyRotationMore.

(** * Further properties of the loaders of the tab *)
Module YouTubeMore.
Import JS KeyRotation CacheStore CacheClient YouTube YouTubeRuns
       KeyRotationFacts CacheStoreFacts CacheClientFacts YouTubeFacts CacheClientMore.

Lemma quota_refusal_try w channelId b :
  quota_refusal w channelId (getCurrentApiKey b) ->
  channel_details_try w channelId b = Rejected "quota exceeded".
Proof.
  intros (m & Hm & Hq). unfold channel_details_try. rewrite Hm, Hq. reflexivity.
Qed.

(** One rotation on a server with keys: the tab comes to hold the key at the
    next index. *)
Lemma rotateApiKey_key w b :
  getYouTubeApiKeys (env w) ≠ [] ->
  keyRotationLock (server b) = false ->
  exists b',
    rotateApiKey w b = (b', Fulfilled (getCurrentApiKey b'))
    /\ getCurrentApiKey b' = key_after w b 1
    /\ rotations b' = S (rotations b) /\ db b' = db b /\ events b' = events b
    /\ keyRotationLock (server b') = false
    /\ currentKeyIndex (server b')
       = ((currentKeyIndex (server b) + 1) mod length (getYouTubeApiKeys (env w)))%nat.
Proof.
  intros Hne Hl. unfold rotateApiKey.
  rewrite (rotateYoutubeKey_unlocked _ _ _ Hl).
  pose proof (rotate_locked_index (env w) (clock w (rotations b)) (server b) Hne) as Hi.
  pose proof (rotate_locked_result (env w) (clock w (rotations b)) (server b) Hne) as Hr.
  pose proof (rotate_locked_unlocks (env w) (clock w (rotations b)) (server b)) as Hu.
  destruct (rotate_locked _ _ _) as [p' r]. simpl in Hi, Hr, Hu. subst r.
  unfold key_at.
  assert (Hlt : ((currentKeyIndex (server b) + 1) mod length (getYouTubeApiKeys (env w))
                 < length (getYouTubeApiKeys (env w)))%nat).
  { apply Nat.mod_upper_bound. intros E. apply Hne, List.length_zero_iff_nil, E. }
  destruct (lookup_lt_is_Some_2 _ _ Hlt) as [k Hk].
  unfold key_after. rewrite Hk. cbn [fst snd].
  match goal with |- exists b', (?x, _) = _ /\ _ => exists x end.
  split; [reflexivity|]. unfold getCurrentApiKey. simpl. auto 10.
Qed.

Lemma key_after_shift w b b' j :
  getYouTubeApiKeys (env w) ≠ [] ->
  getCurrentApiKey b' = key_after w b 1 ->
  currentKeyIndex (server b')
    = ((currentKeyIndex (server b) + 1) mod length (getYouTubeApiKeys (env w)))%nat ->
  key_after w b' j = key_after w b (S j).
Proof.
  intros Hne Hk Hi. destruct j as [|j]; [exact Hk|].
  unfold key_after. rewrite Hi. f_equal.
  rewrite Nat.Div0.add_mod_idemp_l. f_equal. lia.
Qed.

Lemma getChannelDetails_reaches w channelId id uploads : forall r fuel b,
  keyRotationLock (server b) = false ->
  getYouTubeApiKeys (env w) ≠ [] ->
  (forall j, (j < r)%nat -> quota_refusal w channelId (key_after w b j)) ->
  channels_api w (key_after w b r) channelId = ApiOk (Some (id, Some uploads)) ->
  uploads <> "" ->
  (r < fuel)%nat ->
  exists b',
    getChannelDetails fuel w channelId b = (b', Some (Fulfilled tt))
    /\ rotations b' = (rotations b + r)%nat
    /\ events b' = (events b ++ [SetChannelInfo id uploads])%list
    /\ getCurrentApiKey b' = key_after w b r
    /\ db b' = db b.
Proof.
  induction r as [|r IH]; intros fuel b Hl Hne Hq Hok Hu Hf;
    (destruct fuel as [|fuel]; [lia|]); cbn [getChannelDetails].
  - unfold channel_details_try. cbn [key_after] in Hok. rewrite Hok.
    destruct (String.eqb_spec uploads "") as [|_]; [contradiction|].
    eexists. split; [reflexivity|]. simpl. rewrite Nat.add_0_r. auto.
  - rewrite (quota_refusal_try w channelId b (Hq 0%nat ltac:(lia))).
    replace (includes "quota" "quota exceeded") with true by reflexivity.
    destruct (rotateApiKey_key w b Hne Hl) as (b1 & -> & Hk & Hrot & Hdb & Hev & Hl1 & Hi).
    pose proof (key_after_shift w b b1) as Hshift.
    destruct (IH fuel b1 Hl1 Hne) as (b' & -> & Hr' & He' & Hk' & Hd').
    + intros j Hj. rewrite (Hshift j Hne Hk Hi). apply Hq. lia.
    + rewrite (Hshift r Hne Hk Hi). exact Hok.
    + exact Hu.
    + lia.
    + exists b'. split; [reflexivity|]. rewrite Hr', He', Hk', Hd', Hrot, Hev, Hdb.
      rewrite (Hshift r Hne Hk Hi). repeat split; try reflexivity. lia.
Qed.

(** X14. Rotation finds a key that works.  When the channels API refuses
    the tab's key and the next [r - 1] keys of the server for the quota and
    answers for the one after, [getChannelDetails] fulfils after exactly [r]
    rotations, sets the channel the API named, and leaves the tab holding
    the key that worked. *)
Theorem rotation_reaches_a_working_key (w : World) (channelId : string) (b : Browser)
    (r fuel : nat) (id uploads : string) :
  keyRotationLock (server b) = false ->
  getYouTubeApiKeys (env w) <> [] ->
  (forall j, (j < r)%nat -> quota_refusal w channelId (key_after w b j)) ->
  channels_api w (key_after w b r) channelId = ApiOk (Some (id, Some uploads)) ->
  uploads <> "" ->
  (r < fuel)%nat ->
  snd (getChannelDetails fuel w channelId b) = Some (Fulfilled tt)
  /\ rotations (fst (getChannelDetails fuel w channelId b)) = (rotations b + r)%nat
  /\ events (fst (getChannelDetails fuel w channelId b))
     = (events b ++ [SetChannelInfo id uploads])%list
  /\ getCurrentApiKey (fst (getChannelDetails fuel w channelId b)) = key_after w b r
  /\ db (fst (getChannelDetails fuel w channelId b)) = db b.
Proof.
  intros Hl Hne Hq Hok Hu Hf.
  destruct (getChannelDetails_reaches w channelId id uploads r fuel b Hl Hne Hq Hok Hu Hf)
    as (b' & -> & H). exact (conj eq_refl H).
Qed.

Lemma rotation_reaches_a_working_key_witness :
  snd (getChannelDetails 3 third_key_world "UCX6OQ3DkcsbYNE6H8uQQuVA" Samples.browser5)
    = Some (Fulfilled tt)
  /\ rotations (fst (getChannelDetails 3 third_key_world "UCX6OQ3DkcsbYNE6H8uQQuVA"
                       Samples.browser5)) = 2%nat
  /\ events (fst (getChannelDetails 3 third_key_world "UCX6OQ3DkcsbYNE6H8uQQuVA"
                    Samples.browser5))
     = [SetChannelInfo "UCX6OQ3DkcsbYNE6H8uQQuVA" "UUX6OQ3DkcsbYNE6H8uQQuVA"]
  /\ getCurrentApiKey (fst (getChannelDetails 3 third_key_world "UCX6OQ3DkcsbYNE6H8uQQuVA"
                              Samples.browser5)) = Some "k3".
Proof.
  destruct (rotation_reaches_a_working_key third_key_world "UCX6OQ3DkcsbYNE6H8uQQuVA"
              Samples.browser5 2 3 "UCX6OQ3DkcsbYNE6H8uQQuVA" "UUX6OQ3DkcsbYNE6H8uQQuVA")
    as (H1 & H2 & H3 & H4 & _).
  - reflexivity.
  - discriminate.
  - intros j Hj. exists Samples.quota_message.
    destruct j as [|[|j]]; [split; reflexivity|split; reflexivity|lia].
  - reflexivity.
  - discriminate.
  - lia.
  - auto.
Defined.



Lemma videos_payload allVideos old :
  p_videos (merged_fields (JObj (validatedData (JObj [("videos", JArr allVideos)]))) old)
  = Some (JArr allVideos).
Proof. reflexivity. Qed.

(** X16. A playlist that was stored is not fetched again.  When a load has
    collected the videos of a playlist from the API and its background write
    has gone through, a later load of the same playlist, started before the
    entry expires, sets the same videos from the cache: whatever the APIs
    would answer then, it fulfils without a rotation and leaves the database
    as it is. *)
Theorem stored_playlist_is_reused (w w' : World) (playlistId : string) (b : Browser)
    (fuel fuel' : nat) (v : JSON) (vs : list JSON) (body : Body) (db2 : Database)
    (n : nat) (t : Z) :
  fst (getCachedData (cache_read w) ("playlist_" ++ playlistId) "playlists" (db b))
    ≫= p_videos = None ->
  fetch_pages fuel w (getCurrentApiKey b) playlistId "" [] = Collected (v :: vs) ->
  cacheData (cache_write w) ("playlist_" ++ playlistId) (JObj [("videos", JArr (v :: vs))])
    "playlists"
    (snd (getCachedData (cache_read w) ("playlist_" ++ playlistId) "playlists" (db b)))
    = (Fulfilled body, db2, n) ->
  cache_read w' = calm t ->
  t < expiry_of "playlists" (server_now (cache_write w (n - 1)%nat)) ->
  let b1 := fst (loadPlaylistData (S fuel) w playlistId b) in
  snd (loadPlaylistData (S fuel) w playlistId b) = Some (Fulfilled tt)
  /\ db b1 = db2
  /\ events b1
     = (events b ++ [SetVideos (JArr (v :: vs)); Rendered;
                     ConsoleLog "[Cache] Playlist automatically cached in background."])%list
  /\ loadPlaylistData (S fuel') w' playlistId b1
     = (emit [SetVideos (JArr (v :: vs)); Rendered] b1, Some (Fulfilled tt)).
Proof.
  intros Hmiss Hfetch Hwrite Hread Ht b1.
  assert (E : loadPlaylistData (S fuel) w playlistId b
              = (emit [ConsoleLog "[Cache] Playlist automatically cached in background."]
                   (with_db db2
                      (emit [SetVideos (JArr (v :: vs)); Rendered]
                         (with_db (snd (getCachedData (cache_read w)
                                          ("playlist_" ++ playlistId) "playlists" (db b)))
                            b))),
                 Some (Fulfilled tt))).
  { cbn [loadPlaylistData].
    destruct (getCachedData (cache_read w) ("playlist_" ++ playlistId) "playlists" (db b))
      as [cached db1].
    cbn [fst snd] in Hmiss, Hwrite |- *. rewrite Hmiss.
    change (getCurrentApiKey (with_db db1 b)) with (getCurrentApiKey b). rewrite Hfetch.
    unfold cache_in_background. cbn [db emit with_db]. rewrite Hwrite. reflexivity. }
  subst b1. rewrite E. cbn [fst snd].
  split; [reflexivity|]. split; [reflexivity|].
  split; [cbn [events emit with_db]; rewrite <- app_assoc; reflexivity|].
  cbn [loadPlaylistData]. cbn [db emit with_db].
  rewrite Hread, (read_after_cacheData _ _ _ _ _ _ _ _ _ Hwrite Ht).
  cbn [mbind option_bind]. rewrite videos_payload. reflexivity.
Qed.

Lemma stored_playlist_is_reused_witness :
  snd (loadPlaylistData 2 stored_playlist_world "PL_ABC" Samples.browser5)
    = Some (Fulfilled tt)
  /\ events (fst (loadPlaylistData 2 stored_playlist_world "PL_ABC" Samples.browser5))
     = [SetVideos (JArr [JObj [("id", JStr "vid_a")]]); Rendered;
        ConsoleLog "[Cache] Playlist automatically cached in background."]
  /\ loadPlaylistData 1 offline_world "PL_ABC"
       (fst (loadPlaylistData 2 stored_playlist_world "PL_ABC" Samples.browser5))
     = (emit [SetVideos (JArr [JObj [("id", JStr "vid_a")]]); Rendered]
          (fst (loadPlaylistData 2 stored_playlist_world "PL_ABC" Samples.browser5)),
        Some (Fulfilled tt)).
Proof.
  destruct (stored_playlist_is_reused stored_playlist_world offline_world "PL_ABC"
              Samples.browser5 1 0 (JObj [("id", JStr "vid_a")]) []
              (Stored "Cache stored successfully" 86400000 "inserted")
              (snd (fst (cacheData (cache_write stored_playlist_world) "playlist_PL_ABC"
                           (JObj [("videos", JArr [JObj [("id", JStr "vid_a")]])])
                           "playlists" ∅)))
              1 3600000)
    as (H1 & _ & H3 & H4).
  - vm_compute. reflexivity.
  - reflexivity.
  - vm_compute. reflexivity.
  - reflexivity.
  - vm_compute. reflexivity.
  - split; [exact H1|]. split; [exact H3|exact H4].
Defined.

End YouTubeMore.

(** * Properties of the housekeeping routes of the cache *)
Module CacheAdminFacts.
Import JS CacheStore CacheAdmin CacheStoreFacts CacheStoreMore.

Lemma count_cons (f : Doc -> bool) d (c : list Doc) :
  countDocuments f (d :: c) = (if f d then 1 else 0) + countDocuments f c.
Proof.
  unfold countDocuments. cbn [List.filter]. destruct (f d); cbn [length]; lia.
Qed.

Lemma count_split (t1 t2 : Z) (c : list Doc) :
  t1 <= t2 ->
  countDocuments (fun _ => true) c
  = countDocuments (expired t1) c + countDocuments (unexpired t2) c
    + countDocuments (uncounted t1 t2) c.
Proof.
  intros Ht. induction c as [|d c IH]; [reflexivity|].
  rewrite !count_cons, IH. unfold uncounted, expired, unexpired.
  destruct (expiresAt d) as [e|]; cbn [negb andb]; [|lia].
  destruct (Z.ltb_spec e t1), (Z.ltb_spec t2 e); cbn [negb andb]; lia.
Qed.

Lemma uncounted_spec t1 t2 d :
  uncounted t1 t2 d = true
  <-> expiresAt d = None \/ exists e, expiresAt d = Some e /\ t1 <= e <= t2.
Proof.
  unfold uncounted, expired, unexpired. destruct (expiresAt d) as [e|].
  - destruct (Z.ltb_spec e t1), (Z.ltb_spec t2 e); cbn [negb andb]; split;
      try discriminate; try (intros [Hb|(e' & [= <-] & Hb)]; [discriminate|lia]);
      try (intros _; reflexivity).
    intros _. right. exists e. split; [reflexivity|lia].
  - split; [auto|reflexivity].
Qed.

Lemma count_after_sweep_expired t (c : list Doc) :
  countDocuments (expired t) (deleteMany (expired t) c) = 0.
Proof.
  unfold countDocuments, deleteMany. induction c as [|d c IH]; [reflexivity|].
  cbn [List.filter]. destruct (expired t d) eqn:E; cbn [negb List.filter]; [exact IH|].
  rewrite E. exact IH.
Qed.

Lemma count_after_sweep (f : Doc -> bool) t (c : list Doc) :
  (forall d, f d = true -> expired t d = false) ->
  countDocuments f (deleteMany (expired t) c) = countDocuments f c.
Proof.
  intros H. unfold countDocuments, deleteMany. induction c as [|d c IH]; [reflexivity|].
  cbn [List.filter]. destruct (expired t d) eqn:E; cbn [negb List.filter].
  - destruct (f d) eqn:Ef; [rewrite (H d Ef) in E; discriminate|exact IH].
  - destruct (f d); cbn [length]; lia.
Qed.

Lemma length_after_sweep t (c : list Doc) :
  Z.of_nat (length (deleteMany (expired t) c))
  = Z.of_nat (length c) - countDocuments (expired t) c.
Proof.
  unfold countDocuments, deleteMany. induction c as [|d c IH]; [reflexivity|].
  cbn [List.filter]. destruct (expired t d); cbn [negb length]; lia.
Qed.

Lemma count_all (c : list Doc) : countDocuments (fun _ => true) c = Z.of_nat (length c).
Proof.
  unfold countDocuments. f_equal. f_equal. induction c as [|d c IH]; [reflexivity|].
  simpl. rewrite IH. reflexivity.
Qed.

(** X17. What [GET /cache/status] counts.  In every collection the total is
    the expired count plus the active count plus the documents neither
    filter matches: those without an [expiresAt], and those that expire
    between the two readings of the clock, the very moment of a reading
    included.  The expired count is what [DELETE /cache/expired] reports as
    deleted at that moment; after the sweep the total has gone down by it,
    nothing is counted as expired, and the active count has not changed. *)
Theorem status_counts_and_sweep (t1 t2 : string -> Z) (db : Database) (name : string)
    (s : Counts) :
  t1 name <= t2 name ->
  In (name, s) (cache_status t1 t2 db) ->
  let c := db_collection db name in
  total s = Z.of_nat (length c)
  /\ total s = expired_count s + active s + countDocuments (uncounted (t1 name) (t2 name)) c
  /\ (forall d, uncounted (t1 name) (t2 name) d = true
        <-> expiresAt d = None \/ exists e, expiresAt d = Some e /\ t1 name <= e <= t2 name)
  /\ In (name, expired_count s) (deleted_counts (t1 name) db)
  /\ In (name, {| total := total s - expired_count s; expired_count := 0;
                  active := active s |})
       (cache_status t1 t2 (delete_expired (t1 name) db)).
Proof.
  intros Ht Hin c. unfold cache_status in Hin. apply in_map_iff in Hin as (n & E & Hn).
  injection E as -> <-.
  fold c. cbn [total expired_count active collection_status].
  split; [apply count_all|]. split; [apply count_split, Ht|].
  split; [intros d; apply uncounted_spec|]. split.
  - unfold deleted_counts. apply in_map_iff. exists name. split; [reflexivity|exact Hn].
  - unfold cache_status. apply in_map_iff. exists name. split; [|exact Hn].
    f_equal. unfold collection_status. rewrite db_collection_delete_expired. fold c.
    rewrite count_after_sweep_expired, !count_all, length_after_sweep.
    rewrite (count_after_sweep (unexpired (t2 name)) (t1 name) c); [reflexivity|].
    intros d. unfold unexpired, expired. destruct (expiresAt d) as [e|]; [|discriminate].
    intros H. apply Z.ltb_lt in H. apply Z.ltb_ge. lia.
Qed.

Lemma status_counts_and_sweep_witness :
  In ("playlists", {| total := 3; expired_count := 1; active := 1 |})
    (cache_status (fun _ => 1000) (fun _ => 1000) edge_db)
  /\ countDocuments (uncounted 1000 1000) (db_collection edge_db "playlists") = 1
  /\ In ("playlists", 1) (deleted_counts 1000 edge_db)
  /\ In ("playlists", {| total := 2; expired_count := 0; active := 1 |})
       (cache_status (fun _ => 1000) (fun _ => 1000) (delete_expired 1000 edge_db)).
Proof.
  assert (Hin : In ("playlists", {| total := 3; expired_count := 1; active := 1 |})
                  (cache_status (fun _ => 1000) (fun _ => 1000) edge_db)).
  { right. right. right. left. reflexivity. }
  split; [exact Hin|].
  destruct (status_counts_and_sweep (fun _ => 1000) (fun _ => 1000) edge_db "playlists"
              {| total := 3; expired_count := 1; active := 1 |} ltac:(lia) Hin)
    as (_ & H2 & _ & H4 & H5).
  cbn [total expired_count active] in H2, H4, H5.
  split; [lia|]. split; [exact H4|exact H5].
Defined.





End CacheAdminFacts.

(** * Properties of the scan of the channel page *)
Module ResolvePageFacts.
Import ResolveHandle ResolvePage ResolveHandleFacts.

Lemma starts_with_spec (p : jsstring) : forall s,
  starts_with p s = true <-> exists t, s = (p ++ t)%list.
Proof.
  induction p as [|a p IH]; intros s; simpl.
  - split; [intros _; exists s; reflexivity|reflexivity].
  - destruct s as [|b s].
    + split; [discriminate|]. intros (t & Ht). discriminate.
    + rewrite andb_true_iff, N.eqb_eq, IH. split.
      * intros (-> & t & ->). exists t. reflexivity.
      * intros (t & [= -> ->]). split; [reflexivity|]. exists t. reflexivity.
Qed.

Lemma is_channel_id_length id : is_channel_id id = true -> length id = 24%nat.
Proof.
  unfold is_channel_id. rewrite !andb_true_iff, Nat.eqb_eq. tauto.
Qed.

Lemma channel_id_at_spec prefix s id :
  channel_id_at prefix s = Some id
  <-> is_channel_id id = true /\ exists post, s = (prefix ++ id ++ dq ++ post)%list.
Proof.
  unfold channel_id_at. split.
  - destruct (starts_with prefix s) eqn:Ep; [|discriminate].
    apply starts_with_spec in Ep as (t & ->). rewrite drop_app_length.
    destruct (is_channel_id (take 24 t)) eqn:Ei; [|discriminate].
    destruct (starts_with dq (drop 24 t)) eqn:Eq; [|discriminate].
    cbn [andb]. intros [= <-]. split; [exact Ei|].
    apply starts_with_spec in Eq as (post & Hpost). exists post.
    rewrite <- Hpost, take_drop. reflexivity.
  - intros (Hid & post & ->).
    assert (Hp : starts_with prefix (prefix ++ id ++ dq ++ post)%list = true)
      by (apply starts_with_spec; eauto).
    rewrite Hp, drop_app_length.
    pose proof (is_channel_id_length id Hid) as Hlen.
    rewrite (take_app_length' id _ 24 (eq_sym Hlen)), Hid.
    rewrite (drop_app_length' id _ 24 (eq_sym Hlen)). reflexivity.
Qed.

Lemma first_match_sound prefix : forall s id,
  first_match prefix s = Some id ->
  is_channel_id id = true
  /\ exists pre post, s = (pre ++ prefix ++ id ++ dq ++ post)%list.
Proof.
  induction s as [|c s IH]; intros id; cbn [first_match].
  - destruct (channel_id_at prefix []) as [id'|] eqn:E; [|discriminate].
    intros [= <-]. apply channel_id_at_spec in E as (Hid & post & Hs).
    split; [exact Hid|]. exists [], post. exact Hs.
  - destruct (channel_id_at prefix (c :: s)) as [id'|] eqn:E.
    + intros [= <-]. apply channel_id_at_spec in E as (Hid & post & Hs).
      split; [exact Hid|]. exists [], post. exact Hs.
    + intros H. destruct (IH id H) as (Hid & pre & post & ->).
      split; [exact Hid|]. exists (c :: pre), post. reflexivity.
Qed.

Lemma first_match_complete prefix id post : forall pre,
  is_channel_id id = true ->
  exists id', first_match prefix (pre ++ prefix ++ id ++ dq ++ post)%list = Some id'.
Proof.
  intros pre Hid.
  assert (Hhere : channel_id_at prefix (prefix ++ id ++ dq ++ post)%list = Some id)
    by (apply channel_id_at_spec; eauto).
  induction pre as [|c pre IH].
  - exists id. cbn [app]. destruct (prefix ++ id ++ dq ++ post)%list;
      cbn [first_match]; rewrite Hhere; reflexivity.
  - cbn [app first_match]. destruct (channel_id_at prefix (c :: _)); [eauto|exact IH].
Qed.

Lemma page_bytes_nonneg chunks : 0 <= page_bytes chunks.
Proof.
  unfold page_bytes. induction chunks as [|c chunks IH]; simpl; lia.
Qed.

Lemma receive_large : forall chunks dataSize data,
  MAX_RESPONSE_SIZE < dataSize + page_bytes chunks ->
  dataSize <= MAX_RESPONSE_SIZE ->
  receive chunks dataSize data = Failed 413 "Response too large".
Proof.
  induction chunks as [|c chunks IH]; intros dataSize data Hbig Hsmall.
  - unfold page_bytes in Hbig. simpl in Hbig. lia.
  - cbn [receive]. destruct (Z.ltb_spec MAX_RESPONSE_SIZE (dataSize + Z.of_nat (bytes c)));
      [reflexivity|].
    apply IH; [|assumption]. unfold page_bytes in *. simpl in Hbig. lia.
Qed.

Lemma receive_small : forall chunks dataSize data,
  0 <= dataSize ->
  dataSize + page_bytes chunks <= MAX_RESPONSE_SIZE ->
  receive chunks dataSize data = on_end (data ++ page_text chunks)%list.
Proof.
  induction chunks as [|c chunks IH]; intros dataSize data Hd Hsmall.
  - cbn [receive page_text List.map List.concat]. rewrite app_nil_r. reflexivity.
  - cbn [receive]. assert (Hc : page_bytes (c :: chunks) = Z.of_nat (bytes c) + page_bytes chunks)
      by reflexivity.
    pose proof (page_bytes_nonneg chunks).
    destruct (Z.ltb_spec MAX_RESPONSE_SIZE (dataSize + Z.of_nat (bytes c))); [lia|].
    rewrite IH by lia. unfold page_text. cbn [List.map List.concat].
    rewrite <- app_assoc. reflexivity.
Qed.

Lemma channel_id_chars id : is_channel_id id = true -> forallb is_handle_char id = true.
Proof.
  unfold is_channel_id. rewrite !andb_true_iff. intros [[_ Hs] Hd].
  apply starts_with_spec in Hs as (t & ->). exact Hd.
Qed.

Lemma channelId_of_sound data id :
  channelId_of data = Some id ->
  is_channel_id id = true
  /\ exists prefix pre post,
       In prefix [canonical; browse; external]
       /\ data = (pre ++ prefix ++ id ++ dq ++ post)%list.
Proof.
  unfold channelId_of.
  destruct (first_match canonical data) as [i1|] eqn:E1;
    [|destruct (first_match browse data) as [i2|] eqn:E2].
  - intros [= <-]. destruct (first_match_sound _ _ _ E1) as (Hid & pre & post & H).
    split; [exact Hid|]. exists canonical, pre, post. split; [left; reflexivity|exact H].
  - intros [= <-]. destruct (first_match_sound _ _ _ E2) as (Hid & pre & post & H).
    split; [exact Hid|]. exists browse, pre, post.
    split; [right; left; reflexivity|exact H].
  - intros E3. destruct (first_match_sound _ _ _ E3) as (Hid & pre & post & H).
    split; [exact Hid|]. exists external, pre, post.
    split; [right; right; left; reflexivity|exact H].
Qed.

Lemma channelId_of_complete data prefix pre id post :
  In prefix [canonical; browse; external] ->
  is_channel_id id = true ->
  data = (pre ++ prefix ++ id ++ dq ++ post)%list ->
  exists id', channelId_of data = Some id'.
Proof.
  intros Hin Hid ->. unfold channelId_of.
  destruct (first_match_complete prefix id post pre Hid) as (id' & Hm).
  destruct (first_match canonical _) as [i1|] eqn:E1; [eauto|].
  destruct (first_match browse _) as [i2|] eqn:E2; [eauto|].
  exists id'. destruct Hin as [<-|[<-|[<-|[]]]]; congruence.
Qed.

(** X19. What the resolve route finds in a channel page.  An id it answers
    with comes from a page of status 200 within the size limit, is [UC]
    followed by 22 letters, digits, underscores or hyphens, and stands in the
    page between one of the three markers and a double quote.  Such a page
    that holds an id after any of the markers is answered with an id; and
    when the canonical marker has a match, the leftmost one is the answer,
    wherever the other markers stand. *)
Theorem resolved_channel_id_is_well_formed (statusCode : Z) (chunks : list Chunk) :
  (forall id, on_response statusCode chunks = Found id ->
     statusCode = 200 /\ page_bytes chunks <= MAX_RESPONSE_SIZE
     /\ length id = 24%nat
     /\ starts_with (of_string "UC") id = true
     /\ forallb is_handle_char id = true
     /\ exists prefix pre post,
          In prefix [canonical; browse; external]
          /\ page_text chunks = (pre ++ prefix ++ id ++ dq ++ post)%list)
  /\ (statusCode = 200 -> page_bytes chunks <= MAX_RESPONSE_SIZE ->
      (forall prefix pre id post,
         In prefix [canonical; browse; external] ->
         is_channel_id id = true ->
         page_text chunks = (pre ++ prefix ++ id ++ dq ++ post)%list ->
         exists id', on_response statusCode chunks = Found id')
      /\ (forall id, first_match canonical (page_text chunks) = Some id ->
            on_response statusCode chunks = Found id)).
Proof.
  unfold on_response. split.
  - intros id. destruct (Z.eqb_spec statusCode 404) as [|_]; [discriminate|].
    destruct (Z.eqb_spec statusCode 200) as [->|_]; [|discriminate]. cbn [negb].
    destruct (Z.le_gt_cases (page_bytes chunks) MAX_RESPONSE_SIZE) as [Hs|Hb].
    + rewrite receive_small by (unfold MAX_RESPONSE_SIZE in *; lia). cbn [app]. unfold on_end.
      destruct (channelId_of (page_text chunks)) as [id'|] eqn:E; [|discriminate].
      intros [= <-]. destruct (channelId_of_sound _ _ E) as (Hid & Hocc).
      split; [reflexivity|]. split; [exact Hs|]. split; [apply is_channel_id_length, Hid|].
      split; [|split; [apply channel_id_chars, Hid|exact Hocc]].
      unfold is_channel_id in Hid. rewrite !andb_true_iff in Hid. tauto.
    + rewrite receive_large; [discriminate|unfold MAX_RESPONSE_SIZE in *; lia|unfold MAX_RESPONSE_SIZE in *; lia].
  - intros -> Hs. cbn [Z.eqb negb]. rewrite receive_small by (unfold MAX_RESPONSE_SIZE in *; lia).
    cbn [app]. unfold on_end. split.
    + intros prefix pre id post Hin Hid Hpage.
      destruct (channelId_of_complete _ _ _ _ _ Hin Hid Hpage) as (id' & ->). eauto.
    + intros id Hm. unfold channelId_of. rewrite Hm. reflexivity.
Qed.

Lemma resolved_channel_id_is_well_formed_witness :
  on_response 200 sample_page = Found (of_string "UCX6OQ3DkcsbYNE6H8uQQuVA")
  /\ first_match browse (page_text sample_page) = Some (of_string "UCaaaaaaaaaaaaaaaaaaaaaa").
Proof.
  split; [|vm_compute; reflexivity].
  apply (proj2 (proj2 (resolved_channel_id_is_well_formed 200 sample_page) eq_refl
                  ltac:(vm_compute; discriminate))).
  vm_compute. reflexivity.
Defined.

End ResolvePageFacts.

(** * Properties of the dispatch on the address *)
Module LoadContentFacts.
Import ResolveHandle ResolvePage LoadContent ResolveHandleFacts ResolvePageFacts.

Lemma take_while_forallb f s : forallb f (take_while f s) = true.
Proof.
  induction s as [|c s IH]; simpl; [reflexivity|].
  destruct (f c) eqn:E; simpl; [rewrite E; exact IH|reflexivity].
Qed.

Lemma take_while_prefix f s : exists t, s = (take_while f s ++ t)%list.
Proof.
  induction s as [|c s (t & IH)]; simpl; [exists []; reflexivity|].
  destruct (f c); [exists t; simpl; f_equal; exact IH|exists (c :: s); reflexivity].
Qed.

Lemma handle_char_range c :
  is_handle_char c = true ->
  (48 <= c <= 57 \/ 65 <= c <= 90 \/ 97 <= c <= 122 \/ c = 95 \/ c = 45)%N.
Proof.
  unfold is_handle_char.
  rewrite !orb_true_iff, !andb_true_iff, !N.leb_le, !N.eqb_eq. lia.
Qed.

Lemma handle_char_not_whitespace c : is_handle_char c = true -> is_whitespace c = false.
Proof.
  intros H. apply handle_char_range in H.
  destruct (is_whitespace c) eqn:E; [|reflexivity]. unfold is_whitespace in E.
  rewrite !orb_true_iff, !andb_true_iff, !N.leb_le, !N.eqb_eq in E. lia.
Qed.

Lemma trim_start_id s :
  forallb (fun c => negb (is_whitespace c)) s = true -> trim_start s = s.
Proof.
  destruct s as [|c s]; simpl; [reflexivity|].
  destruct (is_whitespace c); [discriminate|reflexivity].
Qed.

Lemma trim_id s : forallb (fun c => negb (is_whitespace c)) s = true -> trim s = s.
Proof.
  intros H. unfold trim. rewrite (trim_start_id s H), trim_start_id, rev_involutive;
    [reflexivity|].
  rewrite forallb_forall in *. intros c Hc. apply H, in_rev, Hc.
Qed.

Lemma replace_first_at_id s :
  forallb (fun c => negb (c =? 64)%N) s = true -> replace_first_at s = s.
Proof.
  induction s as [|c s IH]; simpl; [reflexivity|].
  destruct ((c =? 64)%N); simpl; [discriminate|]. intros H. rewrite IH by exact H. reflexivity.
Qed.

(** A string of letters, digits, underscores and hyphens passes through the
    cleaning steps of the tab and of the server unchanged. *)
Lemma handle_chars_clean h :
  forallb is_handle_char h = true -> tab_cleanHandle h = h /\ cleanHandle h = h.
Proof.
  intros H. rewrite forallb_forall in H. split.
  - destruct h as [|c h]; [reflexivity|]. simpl.
    rewrite (handle_char_not_at c (H c (or_introl eq_refl))). reflexivity.
  - unfold cleanHandle. rewrite replace_first_at_id, trim_id; [reflexivity| |];
      apply forallb_forall; intros c Hc.
    + rewrite (handle_char_not_whitespace c (H c Hc)). reflexivity.
    + rewrite (handle_char_not_at c (H c Hc)). reflexivity.
Qed.

Lemma channelHandleMatch_chars url h :
  channelHandleMatch url = Some h -> h <> [] /\ forallb is_handle_char h = true.
Proof.
  unfold channelHandleMatch.
  destruct (strip "http" url) as [s1|]; [|discriminate].
  destruct (strip "://" _) as [s2|]; [|discriminate].
  destruct (strip "youtube.com/@" _) as [s3|]; [|discriminate].
  pose proof (take_while_forallb is_handle_char s3) as Hf.
  destruct (take_while is_handle_char s3) as [|c g]; [discriminate|].
  intros [= <-]. split; [discriminate|exact Hf].
Qed.

(** X20. From the address bar to the server's check.  When [loadContent]
    takes the address for a channel handle, the handle it passes on is not
    empty and holds letters, digits, underscores and hyphens only, so the
    cleaning steps of the tab and of the server leave it as it is; the
    server then requests [https://www.youtube.com/@] followed by that handle
    when it has at most 100 characters, and answers 400 when it is longer:
    the pattern of the tab sets no bound on the length. *)
Theorem handle_urls_pass_the_server_check (input h : jsstring) :
  loadContent input = ToHandle h ->
  h <> [] /\ forallb is_handle_char h = true
  /\ tab_cleanHandle h = h /\ cleanHandle h = h
  /\ resolve_handle (Some (tab_cleanHandle h))
     = if Nat.leb (length h) 100
       then HttpsGet (of_string "https://www.youtube.com/@" ++ h)%list
       else Respond 400 "Invalid handle format".
Proof.
  unfold loadContent. destruct (trim input) as [|c url]; [discriminate|].
  destruct (playlistIdMatch (c :: url)); [discriminate|].
  destruct (channelHandleMatch (c :: url)) as [g|] eqn:E;
    [|destruct (channelIdMatch (c :: url)); discriminate].
  intros [= ->]. apply channelHandleMatch_chars in E as [Hne Hchars].
  destruct (handle_chars_clean h Hchars) as [Htab Hserver].
  split; [exact Hne|]. split; [exact Hchars|]. split; [exact Htab|]. split; [exact Hserver|].
  rewrite Htab. unfold resolve_handle. destruct h as [|c0 h0]; [contradiction|].
  rewrite Hserver. unfold valid_handle. rewrite Hchars, andb_true_r. reflexivity.
Qed.

Lemma handle_urls_pass_the_server_check_witness :
  loadContent (of_string " https://www.youtube.com/@Mr_Beast-6/videos ")
    = ToHandle (of_string "Mr_Beast-6")
  /\ resolve_handle (Some (tab_cleanHandle (of_string "Mr_Beast-6")))
     = HttpsGet (of_string "https://www.youtube.com/@Mr_Beast-6").
Proof.
  assert (E : loadContent (of_string " https://www.youtube.com/@Mr_Beast-6/videos ")
              = ToHandle (of_string "Mr_Beast-6")) by (vm_compute; reflexivity).
  split; [exact E|].
  destruct (handle_urls_pass_the_server_check _ _ E) as (_ & _ & _ & _ & H).
  rewrite H. reflexivity.
Defined.

Lemma playlistIdMatch_needs_equals s :
  forallb (fun c => negb (c =? 61)%N) s = true -> playlistIdMatch s = None.
Proof.
  induction s as [|c s IH]; intros H.
  - reflexivity.
  - cbn [playlistIdMatch]. unfold playlist_at.
    destruct (starts_with (of_string "list=") (c :: s)) eqn:E.
    + exfalso. apply starts_with_spec in E as (t & Ht). rewrite Ht in H.
      vm_compute in H. discriminate.
    + apply IH. simpl in H. apply andb_prop in H as [_ H]. exact H.
Qed.

Lemma channelIdMatch_here s g : channel_at s = Some g -> channelIdMatch s = Some g.
Proof. intros H. destruct s; cbn [channelIdMatch]; rewrite H; reflexivity. Qed.

Lemma channelIdMatch_skip (pre s : jsstring) :
  (forall n, (n < length pre)%nat -> channel_at (drop n (pre ++ s)%list) = None) ->
  channelIdMatch (pre ++ s)%list = channelIdMatch s.
Proof.
  induction pre as [|c pre IH]; intros H; [reflexivity|].
  pose proof (H 0%nat ltac:(simpl; lia)) as H0.
  change (channel_at (c :: pre ++ s)%list = None) in H0.
  cbn [app channelIdMatch]. rewrite H0.
  apply IH. intros n Hn. apply (H (S n)). simpl. lia.
Qed.

Lemma loadContent_trimmed input url :
  trim input = url -> url <> [] ->
  loadContent input
  = match playlistIdMatch url with
    | Some g => ToPlaylist g
    | None =>
        match channelHandleMatch url with
        | Some g => ToHandle g
        | None =>
            match channelIdMatch url with
            | Some g => ToChannel g
            | None => NotRecognized
            end
        end
    end.
Proof.
  intros <- H. unfold loadContent. destruct (trim input); [contradiction|reflexivity].
Qed.

(** The address of a channel, written with its id. *)
Lemma channel_address_route id :
  is_channel_id id = true ->
  loadContent (of_string "https://www.youtube.com/channel/" ++ id)%list = ToChannel id.
Proof.
  intros Hid. pose proof (channel_id_chars id Hid) as Hchars.
  pose proof (is_channel_id_length id Hid) as Hlen.
  assert (Hws : forallb (fun c => negb (is_whitespace c))
                  (of_string "https://www.youtube.com/channel/" ++ id)%list = true).
  { rewrite forallb_app. apply andb_true_intro. split; [vm_compute; reflexivity|].
    rewrite forallb_forall in *. intros c Hc.
    rewrite (handle_char_not_whitespace c (Hchars c Hc)). reflexivity. }
  assert (Heq : forallb (fun c => negb (c =? 61)%N)
                  (of_string "https://www.youtube.com/channel/" ++ id)%list = true).
  { rewrite forallb_app. apply andb_true_intro. split; [vm_compute; reflexivity|].
    rewrite forallb_forall in *. intros c Hc.
    pose proof (handle_char_range c (Hchars c Hc)) as Hr.
    destruct (N.eqb_spec c 61); [lia|reflexivity]. }
  rewrite (loadContent_trimmed _ _ (trim_id _ Hws)) by discriminate.
  rewrite (playlistIdMatch_needs_equals _ Heq).
  assert (Hm : channelIdMatch (of_string "https://www.youtube.com/channel/" ++ id)%list
               = Some id).
  { change (of_string "https://www.youtube.com/channel/" ++ id)%list
      with (of_string "https://www.youtube.com/" ++ (of_string "channel/" ++ id))%list.
    rewrite channelIdMatch_skip.
    - apply channelIdMatch_here. unfold channel_at.
      change (starts_with (of_string "channel/") (of_string "channel/" ++ id)%list) with true.
      change (drop 8 (of_string "channel/" ++ id)%list) with id.
      rewrite take_ge by lia. rewrite Hlen, Hchars. reflexivity.
    - intros n Hn. change (length (of_string "https://www.youtube.com/")) with 24%nat in Hn.
      do 24 (destruct n as [|n]; [reflexivity|]). lia. }
  rewrite Hm. reflexivity.
Qed.

(** X21. An id found by the server leads back to its channel.  Whatever
    page the resolve route answers from, the id it answers with, written
    after [https://www.youtube.com/channel/] in the address bar, is taken by
    [loadContent] for a channel id and passed on unchanged; the patterns for
    playlists and handles do not match that address. *)
Theorem resolved_id_routes_to_its_channel (statusCode : Z) (chunks : list Chunk)
    (id : jsstring) :
  on_response statusCode chunks = Found id ->
  loadContent (of_string "https://www.youtube.com/channel/" ++ id)%list = ToChannel id
  /\ playlistIdMatch (of_string "https://www.youtube.com/channel/" ++ id)%list = None
  /\ channelHandleMatch (of_string "https://www.youtube.com/channel/" ++ id)%list = None.
Proof.
  intros H.
  assert (Hid : is_channel_id id = true).
  { unfold on_response in H. destruct (statusCode =? 404); [discriminate|].
    destruct (negb (statusCode =? 200)); [discriminate|].
    assert (Hr : forall cs ds data, receive cs ds data = Found id ->
                   exists data', on_end data' = Found id).
    { induction cs as [|c cs IH]; intros ds data; cbn [receive]; [eauto|].
      destruct (_ <? _); [discriminate|apply IH]. }
    destruct (Hr _ _ _ H) as (data & Hd). unfold on_end in Hd.
    destruct (channelId_of data) as [id'|] eqn:E; [|discriminate].
    injection Hd as ->. exact (proj1 (channelId_of_sound _ _ E)). }
  split; [exact (channel_address_route id Hid)|]. split.
  - apply playlistIdMatch_needs_equals. rewrite forallb_app. apply andb_true_intro.
    split; [vm_compute; reflexivity|].
    pose proof (channel_id_chars id Hid) as Hchars.
    rewrite forallb_forall in *. intros c Hc.
    pose proof (handle_char_range c (Hchars c Hc)) as Hr.
    destruct (N.eqb_spec c 61); [lia|reflexivity].
  - reflexivity.
Qed.

Lemma resolved_id_routes_to_its_channel_witness :
  loadContent (of_string "https://www.youtube.com/channel/UCX6OQ3DkcsbYNE6H8uQQuVA")
  = ToChannel (of_string "UCX6OQ3DkcsbYNE6H8uQQuVA").
Proof.
  refine (proj1 (resolved_id_routes_to_its_channel 200 sample_page
                   (of_string "UCX6OQ3DkcsbYNE6H8uQQuVA") _)).
  vm_compute. reflexivity.
Defined.

End LoadContentFacts.

(** * The cache key of a categorization *)
Module CategorizationKeyFacts.
Import JS Categorize KeyOrder.

Lemma ascii_compare_N a b : Ascii.compare a b = N.compare (N_of_ascii a) (N_of_ascii b).
Proof. reflexivity. Qed.

Lemma string_compare_lt_trans : forall s1 s2 s3,
  String.compare s1 s2 = Lt -> String.compare s2 s3 = Lt -> String.compare s1 s3 = Lt.
Proof.
  induction s1 as [|c1 s1 IH]; intros [|c2 s2] [|c3 s3]; simpl; try discriminate; auto.
  rewrite !ascii_compare_N.
  destruct (N.compare_spec (N_of_ascii c1) (N_of_ascii c2)) as [E12|L12|G12];
    destruct (N.compare_spec (N_of_ascii c2) (N_of_ascii c3)) as [E23|L23|G23];
    try discriminate; intros H1 H2.
  - rewrite E12, E23, N.compare_refl. exact (IH _ _ H1 H2).
  - rewrite E12. apply N.compare_lt_iff in L23. rewrite L23. reflexivity.
  - rewrite <- E23. apply N.compare_lt_iff in L12. rewrite L12. reflexivity.
  - assert (L : (N_of_ascii c1 < N_of_ascii c3)%N) by lia.
    apply N.compare_lt_iff in L. rewrite L. reflexivity.
Qed.

Lemma string_leb_trans s1 s2 s3 :
  String.leb s1 s2 = true -> String.leb s2 s3 = true -> String.leb s1 s3 = true.
Proof.
  unfold String.leb.
  destruct (String.compare s1 s2) eqn:E12; try discriminate;
    destruct (String.compare s2 s3) eqn:E23; try discriminate; intros _ _.
  - apply String.compare_eq_iff in E12, E23. subst.
    pose proof (String.compare_antisym s3 s3) as Ha.
    destruct (String.compare s3 s3); try reflexivity; discriminate Ha.
  - apply String.compare_eq_iff in E12. subst. rewrite E23. reflexivity.
  - apply String.compare_eq_iff in E23. subst. rewrite E12. reflexivity.
  - rewrite (string_compare_lt_trans _ _ _ E12 E23). reflexivity.
Qed.

Lemma insert_sorted_perm s l : Permutation (insert_sorted s l) (s :: l).
Proof.
  induction l as [|x l IH]; simpl; [reflexivity|].
  destruct (String.leb s x); [reflexivity|].
  rewrite IH. apply perm_swap.
Qed.

Lemma insert_sorted_ascending s l : ascending l -> ascending (insert_sorted s l).
Proof.
  induction l as [|x l IH]; simpl; intros Hs.
  - split; [constructor|exact I].
  - destruct Hs as [Hx Hl]. destruct (String.leb s x) eqn:E.
    + split; [|split; assumption]. constructor; [exact E|].
      eapply Forall_impl; [exact Hx|]. intros y Hy. exact (string_leb_trans _ _ _ E Hy).
    + split; [|apply IH, Hl].
      assert (Hxs : String.leb x s = true)
        by (destruct (String.leb_total x s) as [H|H]; [exact H|congruence]).
      apply Forall_forall. intros y Hy. apply list_elem_of_In in Hy.
      apply (Permutation_in _ (insert_sorted_perm s l)) in Hy as [<-|Hy]; [exact Hxs|].
      rewrite Forall_forall in Hx. apply Hx, list_elem_of_In, Hy.
Qed.

Lemma sort_strings_perm l : Permutation (sort_strings l) l.
Proof.
  induction l as [|x l IH]; simpl; [reflexivity|].
  rewrite insert_sorted_perm, IH. reflexivity.
Qed.

Lemma sort_strings_ascending l : ascending (sort_strings l).
Proof.
  induction l as [|x l IH]; simpl; [exact I|apply insert_sorted_ascending, IH].
Qed.

Lemma ascending_perm_eq : forall l l', ascending l -> ascending l' -> Permutation l l' -> l = l'.
Proof.
  induction l as [|x l IH]; intros l' Hs Hs' Hp.
  - apply Permutation_nil in Hp. congruence.
  - destruct l' as [|y l']; [apply Permutation_sym, Permutation_nil in Hp; discriminate|].
    destruct Hs as [Hx Hl]. destruct Hs' as [Hy Hl'].
    rewrite Forall_forall in Hx, Hy.
    assert (Exy : x = y).
    { assert (Hin1 : In x (y :: l')) by (apply (Permutation_in _ Hp); left; reflexivity).
      assert (Hin2 : In y (x :: l))
        by (apply (Permutation_in _ (Permutation_sym Hp)); left; reflexivity).
      destruct Hin1 as [->|Hin1]; [reflexivity|].
      destruct Hin2 as [->|Hin2]; [reflexivity|].
      apply String.leb_antisym; [apply Hx, list_elem_of_In, Hin2|apply Hy, list_elem_of_In, Hin1]. }
    subst y. f_equal. apply IH; [exact Hl|exact Hl'|].
    exact (Permutation_cons_inv Hp).
Qed.

(** X22. The cache key of a categorization does not depend on the order of
    the videos.  When the first video of neither list carries a playlist id,
    two lists that hold the same video ids, in whatever order, get the same
    key, so a list that was categorized and then sorted anew finds its
    categories.  When the first video carries a playlist id, that id alone
    makes the key, whatever other videos the list holds. *)
Theorem categorization_key_ignores_order (videos videos' : list Video) :
  (Permutation (List.map id videos) (List.map id videos') ->
   default "" (head videos ≫= playlistId) = "" ->
   default "" (head videos' ≫= playlistId) = "" ->
   categorizationKey videos = categorizationKey videos')
  /\ (forall v p rest, videos = v :: rest -> playlistId v = Some p -> p <> "" ->
        categorizationKey videos = "categorization_playlist_" ++ p).
Proof.
  split.
  - intros Hp H1 H2. unfold categorizationKey.
    destruct (head videos ≫= playlistId) as [[|c1 p1]|];
      destruct (head videos' ≫= playlistId) as [[|c2 p2]|]; try discriminate;
      do 2 f_equal; apply ascending_perm_eq; try apply sort_strings_ascending;
      rewrite !sort_strings_perm; exact Hp.
  - intros v p rest -> Hv Hne. unfold categorizationKey. cbn [head mbind option_bind].
    rewrite Hv. destruct p as [|c p]; [contradiction|reflexivity].
Qed.

Lemma categorization_key_ignores_order_witness :
  categorizationKey [Samples.late; Samples.episode 7; Samples.early]
  = categorizationKey [Samples.episode 7; Samples.early; Samples.late].
Proof.
  apply (proj1 (categorization_key_ignores_order
                  [Samples.late; Samples.episode 7; Samples.early]
                  [Samples.episode 7; Samples.early; Samples.late])).
  - exact (Permutation_cons_append [id (Samples.episode 7); id Samples.early]
             (id Samples.late)).
  - reflexivity.
  - reflexivity.
Defined.

End CategorizationKeyFacts.

(** * Properties of the lookup of a channel by its handle *)
Module HandleLookupFacts.
Import JS KeyRotation CacheStore CacheClient YouTube HandleLookup
       CacheStoreFacts CacheClientFacts CacheClientMore.

Lemma handle_try_stored w resolve_api h b channelId id' c rest :
  resolve_api (cleanHandle h) = Resolved channelId ->
  channels_api w (getCurrentApiKey b) channelId = ApiOk (Some (id', Some (String c rest))) ->
  handle_try w resolve_api h b
  = match cacheData (cache_write w) (cacheKey h) (resolved_data channelId (String c rest))
            "channels" (db b) with
    | (Fulfilled _, db', _) =>
        (with_db db' b, [ChannelInfo (Some (JStr channelId)) (Some (JStr (String c rest)))],
         Fulfilled tt)
    | (Rejected m, db', _) =>
        (with_db db' b, [ChannelInfo (Some (JStr channelId)) (Some (JStr (String c rest)))],
         Rejected m)
    end.
Proof. intros Hr Hd. unfold handle_try. rewrite Hr, Hd. reflexivity. Qed.

(** X23. A failed write of the cache fails the lookup of a handle.  The
    function awaits [cacheData] inside its [try] block, after it has set the
    channel: when the handle is resolved, the details are served and the
    write is rejected with a message that does not mention the quota, the
    channel has been set, the key is not rotated, and the promise rejects
    with the message of the store. *)
Theorem handle_lookup_fails_when_the_write_fails (w : World)
    (resolve_api : string -> ResolveReply) (channelHandle channelId id' : string)
    (c : ascii) (rest m : string) (b : Browser) (db2 : Database) (n fuel : nat) :
  fst (getCachedData (cache_read w) (cacheKey channelHandle) "channels" (db b)) = None ->
  resolve_api (cleanHandle channelHandle) = Resolved channelId ->
  channels_api w (getCurrentApiKey b) channelId = ApiOk (Some (id', Some (String c rest))) ->
  cacheData (cache_write w) (cacheKey channelHandle)
    (resolved_data channelId (String c rest)) "channels"
    (snd (getCachedData (cache_read w) (cacheKey channelHandle) "channels" (db b)))
    = (Rejected m, db2, n) ->
  includes "quota" m = false ->
  getChannelIdByHandle (S fuel) w resolve_api channelHandle b
  = (with_db db2 b, [ChannelInfo (Some (JStr channelId)) (Some (JStr (String c rest)))],
     Some (Rejected m)).
Proof.
  intros Hmiss Hr Hd Hwrite Hq. cbn [getChannelIdByHandle].
  destruct (getCachedData (cache_read w) (cacheKey channelHandle) "channels" (db b))
    as [cached db1].
  cbn [fst snd] in Hmiss, Hwrite. subst cached.
  rewrite (handle_try_stored w resolve_api channelHandle (with_db db1 b) channelId id' c rest
             Hr Hd).
  cbn [db with_db]. rewrite Hwrite, Hq. reflexivity.
Qed.

Lemma handle_lookup_fails_when_the_write_fails_witness :
  getChannelIdByHandle 1 details_world resolver "@MrBeast" Samples.browser5
  = (with_db after_miss Samples.browser5,
     [ChannelInfo (Some (JStr "UCX6OQ3DkcsbYNE6H8uQQuVA"))
        (Some (JStr "UUX6OQ3DkcsbYNE6H8uQQuVA"))],
     Some (Rejected "Failed to store cache")).
Proof.
  refine (handle_lookup_fails_when_the_write_fails details_world resolver "@MrBeast"
            "UCX6OQ3DkcsbYNE6H8uQQuVA" "UCX6OQ3DkcsbYNE6H8uQQuVA" "U"
            "UX6OQ3DkcsbYNE6H8uQQuVA" "Failed to store cache" Samples.browser5 after_miss 3 0
            _ _ _ _ _).
  - vm_compute. reflexivity.
  - reflexivity.
  - reflexivity.
  - vm_compute. reflexivity.
  - reflexivity.
Defined.

Lemma resolved_payload channelId c rest old :
  channelId <> "" ->
  let p := merged_fields (JObj (validatedData (resolved_data channelId (String c rest)))) old in
  p_channelId p = Some (JStr channelId)
  /\ p_uploadsPlaylistId p = Some (JStr (String c rest)).
Proof.
  intros Hne. destruct channelId as [|c0 rest0]; [contradiction|]. split; reflexivity.
Qed.

(** X24. A handle that was resolved is not resolved again.  When a lookup
    has resolved a handle, set the channel and stored the result, a later
    lookup of the same handle, written with or without its [@] and started
    before the entry expires, sets the same channel from the cache: it asks
    neither the server nor the API, and leaves the database and the keys as
    they are. *)
Theorem resolved_handle_is_reused (w w' : World)
    (resolve_api resolve_api' : string -> ResolveReply)
    (channelHandle channelHandle' channelId id' : string) (c : ascii) (rest : string)
    (b : Browser) (body : Body) (db2 : Database) (n fuel fuel' : nat) (t : Z) :
  fst (getCachedData (cache_read w) (cacheKey channelHandle) "channels" (db b)) = None ->
  resolve_api (cleanHandle channelHandle) = Resolved channelId ->
  channelId <> "" ->
  channels_api w (getCurrentApiKey b) channelId = ApiOk (Some (id', Some (String c rest))) ->
  cacheData (cache_write w) (cacheKey channelHandle)
    (resolved_data channelId (String c rest)) "channels"
    (snd (getCachedData (cache_read w) (cacheKey channelHandle) "channels" (db b)))
    = (Fulfilled body, db2, n) ->
  cleanHandle channelHandle' = cleanHandle channelHandle ->
  cache_read w' = calm t ->
  t < expiry_of "channels" (server_now (cache_write w (n - 1)%nat)) ->
  getChannelIdByHandle (S fuel) w resolve_api channelHandle b
  = (with_db db2 b, [ChannelInfo (Some (JStr channelId)) (Some (JStr (String c rest)))],
     Some (Fulfilled tt))
  /\ getChannelIdByHandle (S fuel') w' resolve_api' channelHandle' (with_db db2 b)
     = (with_db db2 b, [ChannelInfo (Some (JStr channelId)) (Some (JStr (String c rest)))],
        Some (Fulfilled tt)).
Proof.
  intros Hmiss Hr Hne Hd Hwrite Hsame Hread Ht. split.
  - cbn [getChannelIdByHandle].
    destruct (getCachedData (cache_read w) (cacheKey channelHandle) "channels" (db b))
      as [cached db1].
    cbn [fst snd] in Hmiss, Hwrite. subst cached.
    rewrite (handle_try_stored w resolve_api channelHandle (with_db db1 b) channelId id' c
               rest Hr Hd).
    cbn [db with_db]. rewrite Hwrite. reflexivity.
  - cbn [getChannelIdByHandle]. cbn [db with_db].
    assert (Hkey : cacheKey channelHandle' = cacheKey channelHandle)
      by (unfold cacheKey; rewrite Hsame; reflexivity).
    rewrite Hkey, Hread, (read_after_cacheData _ _ _ _ _ _ _ _ _ Hwrite Ht).
    destruct (resolved_payload channelId c rest
                (stored_under (cacheKey channelHandle)
                   (db_collection
                      (snd (getCachedData (cache_read w) (cacheKey channelHandle) "channels"
                              (db b))) "channels")) Hne) as [-> ->].
    reflexivity.
Qed.

Lemma resolved_handle_is_reused_witness :
  getChannelIdByHandle 1 details_stored_world resolver "@MrBeast" Samples.browser5
  = (with_db after_store Samples.browser5,
     [ChannelInfo (Some (JStr "UCX6OQ3DkcsbYNE6H8uQQuVA"))
        (Some (JStr "UUX6OQ3DkcsbYNE6H8uQQuVA"))],
     Some (Fulfilled tt))
  /\ getChannelIdByHandle 1 YouTubeRuns.offline_world no_resolver "MrBeast"
       (with_db after_store Samples.browser5)
     = (with_db after_store Samples.browser5,
        [ChannelInfo (Some (JStr "UCX6OQ3DkcsbYNE6H8uQQuVA"))
           (Some (JStr "UUX6OQ3DkcsbYNE6H8uQQuVA"))],
        Some (Fulfilled tt)).
Proof.
  refine (resolved_handle_is_reused details_stored_world YouTubeRuns.offline_world
            resolver no_resolver "@MrBeast" "MrBeast"
            "UCX6OQ3DkcsbYNE6H8uQQuVA" "UCX6OQ3DkcsbYNE6H8uQQuVA" "U"
            "UX6OQ3DkcsbYNE6H8uQQuVA" Samples.browser5
            (Stored "Cache stored successfully" 86400000 "inserted") after_store 1 0 0 3600000
            _ _ _ _ _ _ _ _).
  - vm_compute. reflexivity.
  - reflexivity.
  - discriminate.
  - reflexivity.
  - vm_compute. reflexivity.
  - reflexivity.
  - reflexivity.
  - vm_compute. reflexivity.
Defined.

End HandleLookupFacts.

(** * Properties of the two views of a channel *)
Module ChannelViewsFacts.
Import JS KeyRotation YouTube ChannelViews.

Lemma filter_app_list {A} (f : A -> bool) (l k : list A) :
  List.filter f (l ++ k) = (List.filter f l ++ List.filter f k)%list.
Proof. apply List.filter_app. Qed.

(** The loop of [loadChannelData] collects what the loop of
    [loadPlaylistData] collects on the same playlist, filtered. *)
Lemma channel_pages_filter w statusText k playlistId type : forall fuel pageToken allVideos vs,
  fetch_pages fuel w k playlistId pageToken allVideos = Collected vs ->
  fetch_channel_pages fuel w statusText k playlistId pageToken type
    (List.filter (wanted type) allVideos)
  = Collected (List.filter (wanted type) vs).
Proof.
  induction fuel as [|fuel IH]; intros pageToken allVideos vs; [discriminate|].
  cbn [fetch_pages fetch_channel_pages].
  destruct (playlistItems_api w k playlistId pageToken) as [m|message|page];
    [discriminate|destruct (mentions_quota message); discriminate|].
  destruct (items page) as [|it its]; [intros [= <-]; reflexivity|].
  destruct (String.eqb (join_ids (it :: its)) "").
  - destruct (nextPageToken page) as [token|]; [|intros [= <-]; reflexivity].
    destruct (String.eqb token ""); [intros [= <-]; reflexivity|apply IH].
  - destruct (videos_api w k (join_ids (it :: its))) as [m|message|[statsItems|]];
      [discriminate|destruct (mentions_quota message); [discriminate|]| |].
    + destruct (nextPageToken page) as [token|]; [|intros [= <-]; reflexivity].
      destruct (String.eqb token ""); [intros [= <-]; reflexivity|apply IH].
    + cbn [default from_option id]. rewrite <- filter_app_list.
      destruct (nextPageToken page) as [token|]; [|intros [= <-]; reflexivity].
      destruct (String.eqb token ""); [intros [= <-]; reflexivity|apply IH].
    + cbn [default from_option]. rewrite app_nil_r.
      destruct (nextPageToken page) as [token|]; [|intros [= <-]; reflexivity].
      destruct (String.eqb token ""); [intros [= <-]; reflexivity|apply IH].
Qed.

Lemma filter_partition {A} (f : A -> bool) (l : list A) :
  Permutation (List.filter f l ++ List.filter (fun x => negb (f x)) l) l.
Proof.
  induction l as [|x l IH]; [reflexivity|]. cbn [List.filter].
  destruct (f x); cbn [negb app].
  - constructor. exact IH.
  - rewrite <- Permutation_middle. constructor. exact IH.
Qed.

(** X25. The two views of a channel split its uploads.  On the answers for
    which the loop of [loadPlaylistData] collects the videos of the uploads
    playlist, the loop of [loadChannelData] collects, for the type
    [streams], those of them that [isStreamVideo] accepts, and for every
    other type those it refuses, each in the order of the playlist: the two
    views together hold every upload exactly once. *)
Theorem views_split_the_uploads (fuel : nat) (w : World) (statusText : string)
    (k : option string) (uploadsPlaylistId : string) (vs : list JSON) :
  fetch_pages fuel w k uploadsPlaylistId "" [] = Collected vs ->
  fetch_channel_pages fuel w statusText k uploadsPlaylistId "" "streams" []
    = Collected (List.filter isStreamVideo vs)
  /\ (forall type, type <> "streams" ->
        fetch_channel_pages fuel w statusText k uploadsPlaylistId "" type []
        = Collected (List.filter (fun v => negb (isStreamVideo v)) vs))
  /\ Permutation
       (List.filter isStreamVideo vs ++ List.filter (fun v => negb (isStreamVideo v)) vs) vs.
Proof.
  intros H. split; [|split].
  - exact (channel_pages_filter w statusText k uploadsPlaylistId "streams" fuel "" [] vs H).
  - intros type Hne.
    pose proof (channel_pages_filter w statusText k uploadsPlaylistId type fuel "" [] vs H)
      as Hc.
    cbn [List.filter] in Hc. rewrite Hc. f_equal. apply List.filter_ext. intros v.
    unfold wanted. destruct (String.eqb_spec type "streams"); [contradiction|reflexivity].
  - apply filter_partition.
Qed.

Lemma views_split_the_uploads_witness :
  fetch_channel_pages 1 uploads_world "Forbidden" (Some "k1") "UUX6OQ3DkcsbYNE6H8uQQuVA" ""
    "streams" [] = Collected [stream]
  /\ fetch_channel_pages 1 uploads_world "Forbidden" (Some "k1") "UUX6OQ3DkcsbYNE6H8uQQuVA" ""
       "videos" [] = Collected [upload].
Proof.
  destruct (views_split_the_uploads 1 uploads_world "Forbidden" (Some "k1")
              "UUX6OQ3DkcsbYNE6H8uQQuVA" [upload; stream] eq_refl) as (H1 & H2 & _).
  split; [exact H1|]. exact (H2 "videos" ltac:(discriminate)).
Defined.

End ChannelViewsFacts.
